(** * Batch-job reconciliation (pkg/operator/resources/job/batchapi/cron.go)

    A shallow embedding of the periodic reconciler [ManageJobResources] and of
    the functions it calls ([reconcileInProgressJob], [checkIfJobCompleted],
    [investigateJobFailure]).

    The reconciler talks to a state store, a queue service, an orchestrator,
    a metrics backend and a log stream.  None of these collaborators is part
    of cron.go; they are gathered in the record [Env].  Every call to a
    collaborator is numbered: the answer to the n-th call of a pass is
    whatever [Env] says for index n, so that nothing is assumed about the
    outside world unless a theorem says so.  Effects on the outside world
    (log lines, status writes, deletions) are recorded, in order, in the
    [trace] of the [World]; the two package-level variables of cron.go live
    in the [World] as well. *)

From stdpp Require Import base strings gmap sets list pretty.
From Stdlib Require Import ZArith Lia Ascii String.

Local Open Scope Z_scope.

(** ** Go runtime pieces used by cron.go *)

(** Go's [error] values are only ever printed, compared with nil or turned
    into a string by cron.go. *)
Definition error := string.

(** A Go result pair [(value, err)] with [err != nil] exclusive of [value]. *)
Inductive result (A : Type) : Type :=
| Ok (a : A)
| Err (e : error).
Arguments Ok {A} a.
Arguments Err {A} e.

(** [errors.FirstError(errs...)]: the first non-nil error, if any.  Its
    arguments are evaluated, left to right, before it is called. *)
Fixpoint FirstError (errs : list (option error)) : option error :=
  match errs with
  | [] => None
  | Some e :: _ => Some e
  | None :: rest => FirstError rest
  end.

(** Indexing a Go [map[string]string]: the empty string when the key is
    absent (or when the map is nil). *)
Definition index (m : gmap string string) (k : string) : string :=
  default "" (m !! k).

Definition wrap64 (z : Z) : Z := (z + 2 ^ 63) mod 2 ^ 64 - 2 ^ 63.

(** Package [time] of the Go standard library.  An instant is kept as its
    offset from the Unix epoch in nanoseconds; a [Duration] is an int64
    count of nanoseconds. *)
Module time.
Definition Time := Z.
Definition Duration := Z.

Definition Second : Duration := 1000000000.
Definition minDuration : Duration := - 2 ^ 63.
Definition maxDuration : Duration := 2 ^ 63 - 1.

(** Seconds from January 1, year 1 (the zero [Time]) to the Unix epoch. *)
Definition unixToInternal : Z := 62135596800.

(** [time.Time{}] *)
Definition zero : Time := - unixToInternal * Second.

(** [time.Unix(sec, 0)]: the internal second count is an int64. *)
Definition Unix (sec : Z) : Time :=
  (wrap64 (sec + unixToInternal) - unixToInternal) * Second.

(** [t.Sub(u)]: the difference, saturated to the range of [Duration]. *)
Definition Sub (t u : Time) : Duration :=
  let d := t - u in
  if d <? minDuration then minDuration
  else if maxDuration <? d then maxDuration
  else d.

(** Product of two durations in int64 arithmetic. *)
Definition mul (a b : Duration) : Duration := wrap64 (a * b).

(** Indexing a [map[string]time.Time]: the zero instant when absent. *)
Definition index (m : gmap string Time) (k : string) : Time :=
  default zero (m !! k).
End time.

(** Modelled from the spec: pkg/lib/strings is not under src/.  [ParseInt64]
    succeeds exactly on "a parsable integer": an optional sign followed by
    one or more decimal digits whose value fits in 64 bits. *)
Definition digit_of (a : ascii) : option Z :=
  let n := Z.of_nat (nat_of_ascii a) in
  if (48 <=? n) && (n <=? 57) then Some (n - 48) else None.

Fixpoint parse_digits (acc : Z) (str : string) : option Z :=
  match str with
  | EmptyString => Some acc
  | String a rest =>
      match digit_of a with
      | Some d => parse_digits (acc * 10 + d) rest
      | None => None
      end
  end.

Definition ParseInt64 (valStr : string) : option Z :=
  let '(neg, body) :=
    match valStr with
    | String "+"%char rest => (false, rest)
    | String "-"%char rest => (true, rest)
    | _ => (false, valStr)
    end in
  match body with
  | EmptyString => None
  | _ =>
      match parse_digits 0 body with
      | Some n =>
          let v := if neg then - n else n in
          if (- 2 ^ 63 <=? v) && (v <=? 2 ^ 63 - 1) then Some v else None
      | None => None
      end
  end.

(** ** Data model *)

Module spec.
(** [spec.JobKey] *)
Record JobKey := { APIName : string; ID : string }.

(** [spec.BatchJob], the fields cron.go reads. *)
Record BatchJob := {
  Workers : Z;
  TotalBatchCount : Z;
  Timeout : option Z;
  StartTime : time.Time
}.
End spec.

#[global] Instance JobKey_eq_dec : EqDecision spec.JobKey.
Proof. solve_decision. Defined.

Module status.
(** Modelled from the spec: package status is not under src/.  The nine
    codes are those of the job status state machine; the first two are
    the in-progress ones. *)
Inductive JobCode :=
| JobEnqueuing
| JobRunning
| JobEnqueueFailed
| JobCompletedWithFailures
| JobSucceeded
| JobUnexpectedError
| JobWorkerError
| JobWorkerOOM
| JobTimedOut.

Definition IsInProgress (c : JobCode) : bool :=
  match c with
  | JobEnqueuing | JobRunning => true
  | _ => false
  end.
End status.

#[global] Instance JobCode_eq_dec : EqDecision status.JobCode.
Proof. solve_decision. Defined.

Module job.
(** [job.State] *)
Record State := {
  JobKey : spec.JobKey;
  Status : status.JobCode;
  LastUpdatedMap : gmap string time.Time
}.
End job.

Module kbatch.
Record JobStatus := { Active : Z; Succeeded : Z; Failed : Z }.
(** [kbatch.Job], the fields cron.go reads. *)
Record Job := { Labels : gmap string string; Status : JobStatus }.
End kbatch.

Module kcore.
Record ContainerStateTerminated := { ExitCode : Z; Reason : string }.
Record ContainerStatus := {
  State_Terminated : option ContainerStateTerminated;
  LastTerminationState_Terminated : option ContainerStateTerminated
}.
Record Pod := { Name : string; ContainerStatuses : list ContainerStatus }.
End kcore.

Record QueueMetrics := { IsEmpty : bool }.
Record BatchMetrics := { Succeeded : Z }.

(** ** Constants of cron.go *)

Definition _doesQueueExistGracePeriod : time.Duration := 30 * time.Second.
Definition _enqueuingLivenessBuffer : time.Duration := 30 * time.Second.
Definition _k8sJobExistenceGracePeriod : time.Duration := 10 * time.Second.

(** ** Effects and the outside world *)

(** What a pass does to the outside world, as attempted calls. *)
Inductive Event :=
| EvLog (jobKey : spec.JobKey) (lines : list string)
| EvSetStatus (jobKey : spec.JobKey) (code : status.JobCode)
| EvDeleteInProgressFile (jobKey : spec.JobKey)
| EvDeleteRuntime (jobKey : spec.JobKey)
| EvReport (err : error).

#[global] Instance Event_eq_dec : EqDecision Event.
Proof. solve_decision. Defined.

(** The collaborators.  A field with a [nat] argument is a call to an
    external service: the argument is the number of the call.  The others
    are pure helpers, constants and tables that cron.go takes from other
    files. *)
Record Env := {
  (* state store *)
  ext_ListAllInProgressJobKeys : nat -> result (list spec.JobKey);
  ext_GetJobState : nat -> spec.JobKey -> result job.State;
  ext_SetStatus : nat -> spec.JobKey -> status.JobCode -> option error;
  ext_DeleteInProgressFile : nat -> spec.JobKey -> option error;
  (* queue service *)
  ext_listQueueURLsForAllAPIs : nat -> result (list string);
  ext_GetAllQueueAttributes : nat -> string -> result (gmap string string);
  ext_getJobQueueURL : nat -> spec.JobKey -> result string;
  ext_getQueueMetricsFromURL : nat -> string -> result QueueMetrics;
  (* orchestrator *)
  ext_ListJobs : nat -> result (list kbatch.Job);
  ext_ListPodsByLabel : nat -> string -> string -> list kcore.Pod;
  ext_deleteJobRuntimeResources : nat -> spec.JobKey -> option error;
  (* metrics, object storage, log stream, clock *)
  ext_getRealTimeBatchMetrics : nat -> spec.JobKey -> result BatchMetrics;
  ext_downloadJobSpec : nat -> spec.JobKey -> result spec.BatchJob;
  ext_writeToJobLogStream : nat -> spec.JobKey -> list string -> option error;
  ext_Now : nat -> time.Time;
  (* the order in which a [range] over a Go map visits its keys *)
  ext_rangeOrder : nat -> list string -> list string;
  (* pure helpers and tables from other files *)
  jobKeyFromQueueURL : string -> spec.JobKey;
  UserString : spec.JobKey -> string;
  JobCode_String : status.JobCode -> string;
  LivenessFile : string;
  _enqueuingLivenessPeriod : time.Duration;
  WasPodOOMKilled : kcore.Pod -> bool;
  GetPodStatus : kcore.Pod -> string;
  ToLower : string -> string
}.

(** The reconciler's own state: the two package-level variables of cron.go,
    the number of external calls made so far and the effects so far. *)
Record World := {
  _jobsToDelete : gset string;
  _inProgressJobSpecMap : gmap string spec.BatchJob;
  calls : nat;
  trace : list Event
}.

(** A computation either returns or panics (a nil-pointer dereference);
    both leave a world behind. *)
Inductive Outcome (A : Type) : Type :=
| Ret (a : A) (w : World)
| Panic (w : World).
Arguments Ret {A} a w.
Arguments Panic {A} w.

Definition world_of {A} (o : Outcome A) : World :=
  match o with Ret _ w => w | Panic w => w end.

Definition M (A : Type) : Type := World -> Outcome A.

#[global] Instance M_ret : MRet M := fun A a w => Ret a w.
#[global] Instance M_bind : MBind M := fun A B f m w =>
  match m w with
  | Ret a w' => f a w'
  | Panic w' => Panic w'
  end.

Definition panic {A} : M A := fun w => Panic w.

(** An external call that only reads. *)
Definition call {A} (f : nat -> A) : M A := fun w =>
  Ret (f (calls w))
      {| _jobsToDelete := _jobsToDelete w;
         _inProgressJobSpecMap := _inProgressJobSpecMap w;
         calls := S (calls w);
         trace := trace w |}.

(** An external call that acts on the outside world. *)
Definition act {A} (e : Event) (f : nat -> A) : M A := fun w =>
  Ret (f (calls w))
      {| _jobsToDelete := _jobsToDelete w;
         _inProgressJobSpecMap := _inProgressJobSpecMap w;
         calls := S (calls w);
         trace := trace w ++ [e] |}.

(** [telemetry.Error(err); errors.PrintError(err)] *)
Definition report (err : error) : M unit := fun w =>
  Ret tt
      {| _jobsToDelete := _jobsToDelete w;
         _inProgressJobSpecMap := _inProgressJobSpecMap w;
         calls := calls w;
         trace := trace w ++ [EvReport err] |}.

Definition getJobsToDelete : M (gset string) := fun w => Ret (_jobsToDelete w) w.
Definition setJobsToDelete (s : gset string) : M unit := fun w =>
  Ret tt
      {| _jobsToDelete := s;
         _inProgressJobSpecMap := _inProgressJobSpecMap w;
         calls := calls w;
         trace := trace w |}.

Definition getJobSpecMap : M (gmap string spec.BatchJob) :=
  fun w => Ret (_inProgressJobSpecMap w) w.
Definition setJobSpecMap (m : gmap string spec.BatchJob) : M unit := fun w =>
  Ret tt
      {| _jobsToDelete := _jobsToDelete w;
         _inProgressJobSpecMap := m;
         calls := calls w;
         trace := trace w |}.

(** [for _, x := range l { body }] *)
Fixpoint forM_ {A} (l : list A) (body : A -> M unit) : M unit :=
  match l with
  | [] => mret tt
  | x :: rest => body x ;; forM_ rest body
  end.

(** ** The program *)

Section Reconciler.
Context (env : Env).

(** *** Calls to the collaborators *)

Definition writeToJobLogStream (jobKey : spec.JobKey) (lines : list string)
  : M (option error) :=
  act (EvLog jobKey lines) (fun n => ext_writeToJobLogStream env n jobKey lines).

Definition SetStatusForJob (jobKey : spec.JobKey) (code : status.JobCode)
  : M (option error) :=
  act (EvSetStatus jobKey code) (fun n => ext_SetStatus env n jobKey code).

(** Modelled from the spec: package job is not under src/.  Its
    "convenience setters per terminal status" each persist their status
    for the job. *)
Definition SetSucceededStatus jobKey := SetStatusForJob jobKey status.JobSucceeded.
Definition SetCompletedWithFailuresStatus jobKey :=
  SetStatusForJob jobKey status.JobCompletedWithFailures.
Definition SetTimedOutStatus jobKey := SetStatusForJob jobKey status.JobTimedOut.
Definition SetUnexpectedErrorStatus jobKey :=
  SetStatusForJob jobKey status.JobUnexpectedError.
Definition SetWorkerOOMStatus jobKey := SetStatusForJob jobKey status.JobWorkerOOM.
Definition SetWorkerErrorStatus jobKey := SetStatusForJob jobKey status.JobWorkerError.

Definition DeleteInProgressFile (jobKey : spec.JobKey) : M (option error) :=
  act (EvDeleteInProgressFile jobKey) (fun n => ext_DeleteInProgressFile env n jobKey).

Definition deleteJobRuntimeResources (jobKey : spec.JobKey) : M (option error) :=
  act (EvDeleteRuntime jobKey) (fun n => ext_deleteJobRuntimeResources env n jobKey).

Definition ListAllInProgressJobKeys : M (result (list spec.JobKey)) :=
  call (ext_ListAllInProgressJobKeys env).
Definition GetJobState (jobKey : spec.JobKey) : M (result job.State) :=
  call (fun n => ext_GetJobState env n jobKey).
Definition listQueueURLsForAllAPIs : M (result (list string)) :=
  call (ext_listQueueURLsForAllAPIs env).
Definition GetAllQueueAttributes (queueURL : string)
  : M (result (gmap string string)) :=
  call (fun n => ext_GetAllQueueAttributes env n queueURL).
Definition getJobQueueURL (jobKey : spec.JobKey) : M (result string) :=
  call (fun n => ext_getJobQueueURL env n jobKey).
Definition getQueueMetricsFromURL (queueURL : string) : M (result QueueMetrics) :=
  call (fun n => ext_getQueueMetricsFromURL env n queueURL).
Definition ListJobs : M (result (list kbatch.Job)) :=
  call (ext_ListJobs env).
Definition ListPodsByLabel (label value : string) : M (list kcore.Pod) :=
  call (fun n => ext_ListPodsByLabel env n label value).
Definition getRealTimeBatchMetrics (jobKey : spec.JobKey) : M (result BatchMetrics) :=
  call (fun n => ext_getRealTimeBatchMetrics env n jobKey).
Definition downloadJobSpec (jobKey : spec.JobKey) : M (result spec.BatchJob) :=
  call (fun n => ext_downloadJobSpec env n jobKey).

(** [time.Now()] and [time.Since(t)] *)
Definition Now : M time.Time := call (ext_Now env).
Definition Since (t : time.Time) : M time.Duration :=
  now ← Now; mret (time.Sub now t).

(** The keys of a Go map or set, in the order a [range] visits them. *)
Definition rangeKeys (keys : list string) : M (list string) :=
  fun w => Ret (ext_rangeOrder env (calls w) keys) w.

(** [_jobsToDelete.Has], [.Add], [.Remove] *)
Definition jobsToDelete_Has (jobID : string) : M bool :=
  toDelete ← getJobsToDelete; mret (bool_decide (jobID ∈ toDelete)).
Definition jobsToDelete_Add (jobID : string) : M unit :=
  toDelete ← getJobsToDelete; setJobsToDelete ({[jobID]} ∪ toDelete).
Definition jobsToDelete_Remove (jobID : string) : M unit :=
  toDelete ← getJobsToDelete; setJobsToDelete (toDelete ∖ {[jobID]}).

(** *** reconcileInProgressJob *)

Definition reconcileInProgressJob (jobState : job.State)
    (queueURL : option string) (k8sJob : option kbatch.Job)
  : M (status.JobCode * string * option error) :=
  let jobKey := job.JobKey jobState in
  match queueURL with
  | None =>
      now ← Now;
      if time.Sub now (time.index (job.LastUpdatedMap jobState)
                         (JobCode_String env status.JobEnqueuing))
         <=? _doesQueueExistGracePeriod
      then mret (job.Status jobState, "", None)
      else
        r ← getJobQueueURL jobKey;
        match r with
        | Err err => mret (job.Status jobState, "", Some err)
        | Ok expectedQueueURL =>
            (* unexpected queue missing error *)
            mret (status.JobUnexpectedError,
                  "terminating job " +:+ UserString env jobKey
                    +:+ "; sqs queue with url " +:+ expectedQueueURL
                    +:+ " was not found",
                  None)
        end
  | Some _ =>
      livenessFailed ←
        (if decide (job.Status jobState = status.JobEnqueuing)
         then d ← Since (time.index (job.LastUpdatedMap jobState) (LivenessFile env));
              mret (_enqueuingLivenessPeriod env + _enqueuingLivenessBuffer <=? d)
         else mret false);
      if (livenessFailed : bool)
      then mret (status.JobEnqueueFailed,
                 "terminating job " +:+ UserString env jobKey
                   +:+ "; enqueuing liveness check failed",
                 None)
      else if decide (job.Status jobState = status.JobRunning)
      then
        now ← Now;
        if time.Sub now (time.index (job.LastUpdatedMap jobState)
                           (JobCode_String env status.JobRunning))
           <=? _k8sJobExistenceGracePeriod
        then mret (job.Status jobState, "", None)
        else
          match k8sJob with
          | None => (* unexpected k8s job missing *)
              mret (status.JobUnexpectedError,
                    "terminating job " +:+ UserString env jobKey
                      +:+ "; unable to find kubernetes job",
                    None)
          | Some _ => mret (job.Status jobState, "", None)
          end
      else mret (job.Status jobState, "", None)
  end.

(** *** investigateJobFailure *)

Definition terminationLine (podStatus : string)
    (t : kcore.ContainerStateTerminated) : string :=
  "at least one worker had status " +:+ podStatus
    +:+ " and terminated for reason " +:+ ToLower env (kcore.Reason t)
    +:+ " (exit_code=" +:+ pretty (kcore.ExitCode t) +:+ ")".

(** The inner loop over [pod.Status.ContainerStatuses]; returns the new
    value of [reasonFound]. *)
Fixpoint investigateContainers (jobKey : spec.JobKey) (podStatus : string)
    (reasonFound : bool) (statuses : list kcore.ContainerStatus) : M bool :=
  match statuses with
  | [] => mret reasonFound
  | containerStatus :: rest =>
      match kcore.LastTerminationState_Terminated containerStatus with
      | Some t =>
          _ ← writeToJobLogStream jobKey [terminationLine podStatus t];
          investigateContainers jobKey podStatus true rest
      | None =>
          match kcore.State_Terminated containerStatus with
          | Some t =>
              _ ← writeToJobLogStream jobKey [terminationLine podStatus t];
              investigateContainers jobKey podStatus true rest
          | None => investigateContainers jobKey podStatus reasonFound rest
          end
      end
  end.

(** The loop over [pods]: [inl err] when it returns from the function,
    [inr reasonFound] when it runs to its end. *)
Fixpoint investigatePods (jobKey : spec.JobKey) (reasonFound : bool)
    (pods : list kcore.Pod) : M (option error + bool) :=
  match pods with
  | [] => mret (inr reasonFound)
  | pod :: rest =>
      if WasPodOOMKilled env pod
      then
        e1 ← writeToJobLogStream jobKey
               ["at least one worker was killed because it ran out of out of memory"];
        e2 ← SetWorkerOOMStatus jobKey;
        e3 ← deleteJobRuntimeResources jobKey;
        mret (inl (FirstError [e1; e2; e3]))
      else
        let podStatus := GetPodStatus env pod in
        found ← investigateContainers jobKey podStatus reasonFound
                  (kcore.ContainerStatuses pod);
        investigatePods jobKey found rest
  end.

Definition investigateJobFailure (jobKey : spec.JobKey) : M (option error) :=
  pods ← ListPodsByLabel "jobID" (spec.ID jobKey);
  r ← investigatePods jobKey false pods;
  match r with
  | inl err => mret err
  | inr reasonFound =>
      err ← (if (reasonFound : bool) then mret None
             else writeToJobLogStream jobKey ["workers were killed for unknown reason"]);
      e2 ← SetWorkerErrorStatus jobKey;
      e3 ← deleteJobRuntimeResources jobKey;
      mret (FirstError [err; e2; e3])
  end.

(** *** checkIfJobCompleted *)

(** [k8sJob] is a pointer: [None] is nil, and reading a field through it
    panics. *)
Definition checkIfJobCompleted (jobKey : spec.JobKey) (queueURL : string)
    (k8sJob : option kbatch.Job) : M (option error) :=
  match k8sJob with
  | None => panic
  | Some k8sJob =>
      if 0 <? kbatch.Failed (kbatch.Status k8sJob)
      then investigateJobFailure jobKey
      else
        r ← getQueueMetricsFromURL queueURL;
        match r with
        | Err err => mret (Some err)
        | Ok queueMessages =>
            if negb (IsEmpty queueMessages)
            then
              (* Give time for queue metrics to reach consistency *)
              if kbatch.Active (kbatch.Status k8sJob) =? 0
              then
                has ← jobsToDelete_Has (spec.ID jobKey);
                if (has : bool)
                then
                  jobsToDelete_Remove (spec.ID jobKey);;
                  e1 ← writeToJobLogStream jobKey
                         ["unexpected job status because cluster state indicates job has completed but metrics indicate that job is still in progress"];
                  e2 ← SetUnexpectedErrorStatus jobKey;
                  e3 ← deleteJobRuntimeResources jobKey;
                  mret (FirstError [e1; e2; e3])
                else jobsToDelete_Add (spec.ID jobKey);; mret None
              else mret None
            else
              r ← getRealTimeBatchMetrics jobKey;
              match r with
              | Err err => mret (Some err)
              | Ok batchMetrics =>
                  r ← downloadJobSpec jobKey;
                  match r with
                  | Err err => mret (Some err)
                  | Ok jobSpec =>
                      (* the statements after the if/else of the source *)
                      let waitOneMoreCycle : M (option error) :=
                        jobsToDelete_Add (spec.ID jobKey);; mret None in
                      if spec.Workers jobSpec =? kbatch.Succeeded (kbatch.Status k8sJob)
                      then
                        if spec.TotalBatchCount jobSpec =? Succeeded batchMetrics
                        then
                          jobsToDelete_Remove (spec.ID jobKey);;
                          e1 ← SetSucceededStatus jobKey;
                          e2 ← deleteJobRuntimeResources jobKey;
                          mret (FirstError [e1; e2])
                        else
                          (* wait one more cycle for the success metrics to reach consistency *)
                          has ← jobsToDelete_Has (spec.ID jobKey);
                          if (has : bool)
                          then
                            jobsToDelete_Remove (spec.ID jobKey);;
                            e1 ← SetCompletedWithFailuresStatus jobKey;
                            e2 ← deleteJobRuntimeResources jobKey;
                            mret (FirstError [e1; e2])
                          else waitOneMoreCycle
                      else
                        has ← jobsToDelete_Has (spec.ID jobKey);
                        if (has : bool)
                        then
                          jobsToDelete_Remove (spec.ID jobKey);;
                          e1 ← writeToJobLogStream jobKey
                                 ["unexpected job state; queue is empty but cluster state still indicates that the job is still in progress"];
                          e2 ← SetUnexpectedErrorStatus jobKey;
                          e3 ← deleteJobRuntimeResources jobKey;
                          mret (FirstError [e1; e2; e3])
                        else waitOneMoreCycle
                  end
              end
        end
  end.

(** *** ManageJobResources *)

(** The queue world-view built by the loop over [queues]. *)
Record QueueView := {
  queueURLMap : gmap string string;
  queueJobIDSet : gset string
}.

Definition addQueue (q : QueueView) (queueURL : string) : QueueView :=
  let jobKey := jobKeyFromQueueURL env queueURL in
  {| queueJobIDSet := {[spec.ID jobKey]} ∪ queueJobIDSet q;
     queueURLMap := <[spec.ID jobKey := queueURL]> (queueURLMap q) |}.

Definition joinQueues (queues : list string) : QueueView :=
  foldl addQueue {| queueURLMap := ∅; queueJobIDSet := ∅ |} queues.

(** The batch world-view built by
    [for _, kJob := range jobs { k8sJobMap[kJob.Labels["jobID"]] = &kJob; ... }].
    The values of [k8sJobMap] are pointers, so the view carries the memory
    they point into.  In Go as of this code (before Go 1.22) a range
    statement declares its variable once for the whole loop: every
    iteration assigns the next element to the same [kJob], and [&kJob] is
    the same address each time. *)
Definition loc := nat.

Record BatchView := {
  heap : gmap loc kbatch.Job;
  k8sJobMap : gmap string loc;
  k8sJobIDSet : gset string
}.

(** One iteration, with the loop variable [kJob] stored at address [a]. *)
Definition joinJob (a : loc) (b : BatchView) (elem : kbatch.Job) : BatchView :=
  let h := <[a := elem]> (heap b) in               (* kJob = elem *)
  let jobID := index (kbatch.Labels elem) "jobID" in
  {| heap := h;
     k8sJobMap := <[jobID := a]> (k8sJobMap b);    (* k8sJobMap[jobID] = &kJob *)
     k8sJobIDSet := {[jobID]} ∪ k8sJobIDSet b |}.

Definition addr_kJob : loc := 0%nat.

Definition joinJobs (jobs : list kbatch.Job) : BatchView :=
  foldl (joinJob addr_kJob)
        {| heap := ∅; k8sJobMap := ∅; k8sJobIDSet := ∅ |} jobs.

(** [k8sJobMap[jobID]] as the pointer it is, seen with what it points to:
    [None] is the nil pointer of an absent key. *)
Definition lookupJob (b : BatchView) (jobID : string) : option kbatch.Job :=
  a ← k8sJobMap b !! jobID; heap b !! a.

Definition inProgressIDs (inProgressJobKeys : list spec.JobKey) : gset string :=
  foldl (fun ids jobKey => {[spec.ID jobKey]} ∪ ids) ∅ inProgressJobKeys.

(** Remove completed jobs from local cache *)
Definition evictCompleted (inProgressJobIDSet : gset string) : M unit :=
  cache ← getJobSpecMap;
  jobIDs ← rangeKeys (elements (dom cache));
  forM_ jobIDs (fun jobID =>
    if decide (jobID ∈ inProgressJobIDSet) then mret tt
    else cache ← getJobSpecMap; setJobSpecMap (delete jobID cache)).

(** The error branch shared by a failed [GetJobState] and a failed
    [downloadJobSpec] in the driver: delete the marker and the runtime
    resources, report the first error. *)
Definition terminateAndCleanUp (jobKey : spec.JobKey) (err : error) : M unit :=
  _ ← writeToJobLogStream jobKey [err; "terminating job and cleaning up job resources"];
  e1 ← DeleteInProgressFile jobKey;
  e2 ← deleteJobRuntimeResources jobKey;
  match FirstError [e1; e2] with
  | Some err => report err
  | None => mret tt
  end.

Definition reportIfError (err : option error) : M unit :=
  match err with
  | Some err => report err
  | None => mret tt
  end.

(** The in-process spec cache lookup of the driver: the cached spec, or
    the downloaded one after caching it; [None] when the download failed
    and the job was cleaned up. *)
Definition cachedJobSpec (jobKey : spec.JobKey) : M (option spec.BatchJob) :=
  cache ← getJobSpecMap;
  match cache !! spec.ID jobKey with
  | Some jobSpec => mret (Some jobSpec)
  | None =>
      r ← downloadJobSpec jobKey;
      match r with
      | Err err => terminateAndCleanUp jobKey err;; mret None
      | Ok jobSpec =>
          cache ← getJobSpecMap;
          setJobSpecMap (<[spec.ID jobKey := jobSpec]> cache);;
          mret (Some jobSpec)
      end
  end.

(** The body of [for _, jobKey := range inProgressJobKeys]; returning is
    the source's [continue]. *)
Definition reconcileJob (q : QueueView) (b : BatchView) (jobKey : spec.JobKey)
  : M unit :=
  let queueURL : option string :=
    if decide (spec.ID jobKey ∈ queueJobIDSet q)
    then Some (index (queueURLMap q) (spec.ID jobKey))
    else None in
  let k8sJob := lookupJob b (spec.ID jobKey) in
  r ← GetJobState jobKey;
  match r with
  | Err err => terminateAndCleanUp jobKey err
  | Ok jobState =>
      if negb (status.IsInProgress (job.Status jobState))
      then
        (* best effort cleanup *)
        _ ← DeleteInProgressFile jobKey;
        _ ← deleteJobRuntimeResources jobKey;
        mret tt
      else
        '(newStatusCode, msg, err) ← reconcileInProgressJob jobState queueURL k8sJob;
        match err with
        | Some err => report err
        | None =>
            err ← (if decide (newStatusCode ≠ job.Status jobState)
                   then e1 ← writeToJobLogStream jobKey [msg];
                        e2 ← SetStatusForJob jobKey newStatusCode;
                        mret (FirstError [e1; e2])
                   else mret None);
            match err with
            | Some err => report err
            | None =>
                match queueURL with
                | None => mret tt
                | Some queueURL =>
                    cached ← cachedJobSpec jobKey;
                    match cached with
                    | None => mret tt
                    | Some jobSpec =>
                        let whenNotTimedOut : M unit :=
                          if decide (job.Status jobState = status.JobRunning)
                          then
                            err ← checkIfJobCompleted jobKey queueURL k8sJob;
                            reportIfError err
                          else mret tt in
                        match spec.Timeout jobSpec with
                        | None => whenNotTimedOut
                        | Some timeout =>
                            d ← Since (spec.StartTime jobSpec);
                            if time.mul time.Second timeout <? d
                            then
                              e1 ← SetTimedOutStatus jobKey;
                              e2 ← deleteJobRuntimeResources jobKey;
                              e3 ← writeToJobLogStream jobKey
                                     ["terminating job after exceeding the specified timeout of "
                                        +:+ pretty timeout +:+ " seconds"];
                              reportIfError (FirstError [e1; e2; e3])
                            else whenNotTimedOut
                        end
                    end
                end
            end
        end
  end.

(** existing k8sjob but job is not in progress *)
Definition deleteOrphanBatch (b : BatchView) (jobID : string) : M unit :=
  match lookupJob b jobID with
  | None => panic
  | Some kJob =>
      let jobKey := {| spec.APIName := index (kbatch.Labels kJob) "apiName";
                       spec.ID := index (kbatch.Labels kJob) "jobID" |} in
      (* delete both k8sjob and queue *)
      err ← deleteJobRuntimeResources jobKey;
      reportIfError err
  end.

Definition queueCreatedTimestamp (attributes : gmap string string) : time.Time :=
  match ParseInt64 (index attributes "CreatedTimestamp") with
  | Some parsedSeconds => time.Unix parsedSeconds
  | None => time.zero
  end.

(** existing queue but no k8sjob and not in progress.  When the attribute
    fetch fails the error is reported and the loop body goes on with the
    nil map the failed call returned. *)
Definition deleteOrphanQueue (q : QueueView) (jobID : string) : M unit :=
  r ← GetAllQueueAttributes (index (queueURLMap q) jobID);
  attributes ← match r with
               | Err err => report err;; mret ∅
               | Ok attributes => mret attributes
               end;
  now ← Now;
  (* queue was created recently *)
  if time.Sub now (queueCreatedTimestamp attributes) <=? _doesQueueExistGracePeriod
  then mret tt
  else
    let jobKey := jobKeyFromQueueURL env (index (queueURLMap q) jobID) in
    (* delete both k8sjob and queue *)
    err ← deleteJobRuntimeResources jobKey;
    reportIfError err.

(** Clear old jobs to delete if they are no longer considered to in progress *)
Definition pruneJobsToDelete (inProgressJobIDSet : gset string) : M unit :=
  toDelete ← getJobsToDelete;
  jobIDs ← rangeKeys (elements toDelete);
  forM_ jobIDs (fun jobID =>
    if decide (jobID ∈ inProgressJobIDSet) then mret tt
    else jobsToDelete_Remove jobID).

Definition ManageJobResources : M (option error) :=
  r ← ListAllInProgressJobKeys;
  match r with
  | Err err => mret (Some err)
  | Ok inProgressJobKeys =>
      let inProgressJobIDSet := inProgressIDs inProgressJobKeys in
      evictCompleted inProgressJobIDSet;;
      r ← listQueueURLsForAllAPIs;
      match r with
      | Err err => mret (Some err)
      | Ok queues =>
          let q := joinQueues queues in
          r ← ListJobs;
          match r with
          | Err err => mret (Some err)
          | Ok jobs =>
              let b := joinJobs jobs in
              forM_ inProgressJobKeys (reconcileJob q b);;
              orphanBatches ← rangeKeys (elements (k8sJobIDSet b ∖ inProgressJobIDSet));
              forM_ orphanBatches (deleteOrphanBatch b);;
              orphanQueues ← rangeKeys
                (elements (queueJobIDSet q ∖ k8sJobIDSet b ∖ inProgressJobIDSet));
              forM_ orphanQueues (deleteOrphanQueue q);;
              pruneJobsToDelete inProgressJobIDSet;;
              mret None
          end
      end
  end.

End Reconciler.

(** * Notions used in the statements *)

(** [emitsAt P m w]: run from [w], the computation [m] only adds events to
    the trace, and each added event satisfies [P] (whether [m] returns or
    panics). *)
Definition emitsAt {A} (P : Event -> Prop) (m : M A) (w : World) : Prop :=
  exists evs, trace (world_of (m w)) = trace w ++ evs /\ Forall P evs.

Definition emits {A} (P : Event -> Prop) (m : M A) : Prop :=
  forall w, emitsAt P m w.

(** The event concerns the job [jobKey], or is an error report. *)
Definition about (jobKey : spec.JobKey) (e : Event) : Prop :=
  match e with
  | EvLog k _ | EvSetStatus k _ | EvDeleteInProgressFile k | EvDeleteRuntime k =>
      k = jobKey
  | EvReport _ => True
  end.

(** The events a run from [w] added to the trace. *)
Definition added {A} (w : World) (o : Outcome A) : list Event :=
  drop (List.length (trace w)) (trace (world_of o)).

(** The lines written to the log stream of [jobKey] by the events [evs]. *)
Definition logLines (jobKey : spec.JobKey) (evs : list Event) : list string :=
  flat_map (fun e => match e with
                     | EvLog k lines => if decide (k = jobKey) then lines else []
                     | _ => []
                     end) evs.

(** The three world-views a pass that starts in [w] loads: its first three
    external calls. *)
Definition loadedInProgress (env : Env) (w : World) : result (list spec.JobKey) :=
  ext_ListAllInProgressJobKeys env (calls w).
Definition loadedQueues (env : Env) (w : World) : result (list string) :=
  ext_listQueueURLsForAllAPIs env (S (calls w)).
Definition loadedBatches (env : Env) (w : World) : result (list kbatch.Job) :=
  ext_ListJobs env (S (S (calls w))).

(** The event is a runtime deletion for a job whose ID satisfies [S], or an
    error report: what the two garbage-collection loops may do. *)
Definition deletesOnly (S : string -> Prop) (e : Event) : Prop :=
  match e with
  | EvDeleteRuntime k => S (spec.ID k)
  | EvReport _ => True
  | _ => False
  end.

(** The event is not a status write for [jobKey]. *)
Definition keepsStatusOf (jobKey : spec.JobKey) (e : Event) : Prop :=
  forall code, e <> EvSetStatus jobKey code.

(** The event is not a runtime deletion for a job with the ID [jobID]. *)
Definition sparesRuntimeOf (jobID : string) (e : Event) : Prop :=
  forall jobKey, spec.ID jobKey = jobID -> e <> EvDeleteRuntime jobKey.

Definition isReport (e : Event) : Prop := exists err, e = EvReport err.

(** The event is the write of one line to the log stream of [jobKey]. *)
Definition isLine (jobKey : spec.JobKey) (e : Event) : Prop :=
  exists line, e = EvLog jobKey [line].

(** A [range] over a Go map visits every key exactly once, in some order. *)
Definition rangeFaithful (env : Env) : Prop :=
  forall n (keys : list string), ext_rangeOrder env n keys ≡ₚ keys.

(** The part of [ManageJobResources] that follows the three listings: the
    loop over the in-progress jobs, the two garbage-collection loops and
    the pruning of [_jobsToDelete]. *)
Definition passLoops (env : Env) (inProgressJobKeys : list spec.JobKey)
    (q : QueueView) (b : BatchView) : M (option error) :=
  forM_ inProgressJobKeys (reconcileJob env q b);;
  orphanBatches ← rangeKeys env
    (elements (k8sJobIDSet b ∖ inProgressIDs inProgressJobKeys));
  forM_ orphanBatches (deleteOrphanBatch env b);;
  orphanQueues ← rangeKeys env
    (elements (queueJobIDSet q ∖ k8sJobIDSet b ∖ inProgressIDs inProgressJobKeys));
  forM_ orphanQueues (deleteOrphanQueue env q);;
  pruneJobsToDelete env (inProgressIDs inProgressJobKeys);;
  mret None.

(** The attributes the orphan-queue loop works with after its fetch: the
    nil map when the fetch failed. *)
Definition attributesOf (r : result (gmap string string)) : gmap string string :=
  match r with
  | Ok attributes => attributes
  | Err _ => ∅
  end.

(** The fetch failed, or the CreatedTimestamp attribute is absent or not a
    parsable integer. *)
Definition creationUnreadable (r : result (gmap string string)) : Prop :=
  match r with
  | Err _ => True
  | Ok attributes =>
      attributes !! "CreatedTimestamp" = None \/
      ParseInt64 (index attributes "CreatedTimestamp") = None
  end.

(** The line the verifier produces for a missing queue. *)
Definition queueNotFoundLine (env : Env) (jobKey : spec.JobKey)
    (expectedQueueURL : string) : string :=
  "terminating job " +:+ UserString env jobKey
    +:+ "; sqs queue with url " +:+ expectedQueueURL +:+ " was not found".

(** The events [pre] end with the write of one line to the log stream of
    [jobKey]. *)
Definition endsWithLine (jobKey : spec.JobKey) (pre : list Event) : Prop :=
  exists pre' line, pre = pre' ++ [EvLog jobKey [line]].

(** What holds of every status write among the events [evs] of the
    handling of one job: EnqueueFailed, UnexpectedError, WorkerOOM and
    WorkerError come right after a line written for the job; Timed-Out is
    followed by the runtime deletion and then by its line; for Succeeded
    and CompletedWithFailures no line is written at all; an in-progress
    status is never written. *)
Definition transitionsExplained (evs : list Event) : Prop :=
  forall pre jobKey code post,
    evs = pre ++ EvSetStatus jobKey code :: post ->
    match code with
    | status.JobEnqueueFailed | status.JobUnexpectedError
    | status.JobWorkerOOM | status.JobWorkerError =>
        endsWithLine jobKey pre
    | status.JobTimedOut =>
        exists line post',
          post = EvDeleteRuntime jobKey :: EvLog jobKey [line] :: post'
    | status.JobSucceeded | status.JobCompletedWithFailures =>
        logLines jobKey evs = []
    | status.JobEnqueuing | status.JobRunning => False
    end.

(** [runs R m]: from any world [m] returns, having added to the trace
    events [evs] that, with the result [a], satisfy [R a evs]. *)
Definition runs {A} (R : A -> list Event -> Prop) (m : M A) : Prop :=
  forall w, exists a w' evs,
    m w = Ret a w' /\ trace w' = trace w ++ evs /\ R a evs.

(** [cont sofar Q m w]: if the events [sofar] are the last ones of the
    trace of [w], then after [m] has run from [w] (to a result or to a
    panic) the events from the first of [sofar] on satisfy [Q]. *)
Definition cont {A} (sofar : list Event) (Q : list Event -> Prop) (m : M A)
    (w : World) : Prop :=
  forall t, trace w = t ++ sofar ->
    exists evs, trace (world_of (m w)) = t ++ evs /\ Q evs.

(** * Scenarios

    Concrete outside worlds on which the program is run.  Their answers do
    not depend on the number of the call. *)

Record Scenario := {
  sc_keys : list spec.JobKey;
  sc_state : spec.JobKey -> result job.State;
  sc_queues : list string;
  sc_jobs : list kbatch.Job;
  sc_attributes : string -> result (gmap string string);
  sc_spec : spec.BatchJob;
  sc_queueEmpty : bool;
  sc_succeeded : Z;
  sc_pods : list kcore.Pod;
  sc_now : time.Time
}.

(** A pod counts as OOM-killed here when one of its containers last
    terminated for the reason "OOMKilled". *)
Definition oomKilled (pod : kcore.Pod) : bool :=
  existsb (fun cs => match kcore.LastTerminationState_Terminated cs with
                     | Some t => bool_decide (kcore.Reason t = "OOMKilled")
                     | None => false
                     end) (kcore.ContainerStatuses pod).

Definition scenarioEnv (sc : Scenario) : Env := {|
  ext_ListAllInProgressJobKeys := fun _ => Ok (sc_keys sc);
  ext_GetJobState := fun _ jobKey => sc_state sc jobKey;
  ext_SetStatus := fun _ _ _ => None;
  ext_DeleteInProgressFile := fun _ _ => None;
  ext_listQueueURLsForAllAPIs := fun _ => Ok (sc_queues sc);
  ext_GetAllQueueAttributes := fun _ queueURL => sc_attributes sc queueURL;
  ext_getJobQueueURL := fun _ jobKey => Ok ("sqs/" +:+ spec.ID jobKey);
  ext_getQueueMetricsFromURL := fun _ _ => Ok {| IsEmpty := sc_queueEmpty sc |};
  ext_ListJobs := fun _ => Ok (sc_jobs sc);
  ext_ListPodsByLabel := fun _ _ _ => sc_pods sc;
  ext_deleteJobRuntimeResources := fun _ _ => None;
  ext_getRealTimeBatchMetrics := fun _ _ => Ok {| Succeeded := sc_succeeded sc |};
  ext_downloadJobSpec := fun _ _ => Ok (sc_spec sc);
  ext_writeToJobLogStream := fun _ _ _ => None;
  ext_Now := fun _ => sc_now sc;
  ext_rangeOrder := fun _ keys => keys;
  jobKeyFromQueueURL := fun queueURL =>
    {| spec.APIName := "api"; spec.ID := String.substring 4 (String.length queueURL - 4)%nat queueURL |};
  UserString := fun jobKey => spec.ID jobKey;
  JobCode_String := fun code =>
    match code with
    | status.JobEnqueuing => "status_enqueuing"
    | status.JobRunning => "status_running"
    | _ => "status_other"
    end;
  LivenessFile := "liveness";
  _enqueuingLivenessPeriod := 20 * time.Second;
  WasPodOOMKilled := oomKilled;
  GetPodStatus := fun _ => "Failed";
  ToLower := fun reason => reason
|}.

(** A process that has just started: nothing deferred, nothing cached. *)
Definition freshWorld : World :=
  {| _jobsToDelete := ∅; _inProgressJobSpecMap := ∅; calls := 0; trace := [] |}.

(** The instant of the scenarios: 1 600 000 000 s after the Unix epoch. *)
Definition scenarioNow : time.Time := 1600000000 * time.Second.

Definition jobA : spec.JobKey := {| spec.APIName := "api"; spec.ID := "A" |}.

Definition jobQ : spec.JobKey := {| spec.APIName := "api"; spec.ID := "Q" |}.

(** Job A has been running for 100 s. *)
Definition runningA : job.State :=
  {| job.JobKey := jobA;
     job.Status := status.JobRunning;
     job.LastUpdatedMap :=
       {[ "status_enqueuing" := scenarioNow - 120 * time.Second;
          "status_running" := scenarioNow - 100 * time.Second ]} |}.

Definition specA : spec.BatchJob :=
  {| spec.Workers := 4; spec.TotalBatchCount := 1000;
     spec.Timeout := None; spec.StartTime := scenarioNow - 110 * time.Second |}.

Definition batchOf (jobID : string) (active succeeded failed : Z) : kbatch.Job :=
  {| kbatch.Labels := {[ "apiKind" := "BatchAPI"; "apiName" := "api"; "jobID" := jobID ]};
     kbatch.Status := {| kbatch.Active := active;
                         kbatch.Succeeded := succeeded;
                         kbatch.Failed := failed |} |}.

(** The happy path of the spec: job A in progress with its queue and its
    batch, all four workers succeeded, the queue empty and all 1000 work
    items counted as succeeded. *)
Definition happyPath : Scenario :=
  {| sc_keys := [jobA];
     sc_state := fun _ => Ok runningA;
     sc_queues := ["sqs/A"];
     sc_jobs := [batchOf "A" 0 4 0];
     sc_attributes := fun _ => Ok ∅;
     sc_spec := specA;
     sc_queueEmpty := true;
     sc_succeeded := 1000;
     sc_pods := [];
     sc_now := scenarioNow |}.

(** As the happy path, but only 995 of the 1000 work items are counted as
    succeeded so far. *)
Definition metricsLag : Scenario :=
  {| sc_keys := [jobA];
     sc_state := fun _ => Ok runningA;
     sc_queues := ["sqs/A"];
     sc_jobs := [batchOf "A" 0 4 0];
     sc_attributes := fun _ => Ok ∅;
     sc_spec := specA;
     sc_queueEmpty := true;
     sc_succeeded := 995;
     sc_pods := [];
     sc_now := scenarioNow |}.

(** A process in which job Z, no longer in progress, is still deferred. *)
Definition staleWorld : World :=
  {| _jobsToDelete := {["Z"]}; _inProgressJobSpecMap := ∅; calls := 0; trace := [] |}.

(** Job A has reached a terminal status, but its in-progress marker is
    still listed (a previous pass stopped short of the cleanup). *)
Definition succeededA : job.State :=
  {| job.JobKey := jobA;
     job.Status := status.JobSucceeded;
     job.LastUpdatedMap := {[ "status_succeeded" := scenarioNow - 70 * time.Second ]} |}.

Definition terminalLeftover : Scenario :=
  {| sc_keys := [jobA];
     sc_state := fun _ => Ok succeededA;
     sc_queues := ["sqs/A"];
     sc_jobs := [batchOf "A" 0 4 0];
     sc_attributes := fun _ => Ok ∅;
     sc_spec := specA;
     sc_queueEmpty := true;
     sc_succeeded := 1000;
     sc_pods := [];
     sc_now := scenarioNow |}.

(** A worker of job A was OOM-killed: the batch reports one failed worker
    and the only pod of the job last terminated for the reason "OOMKilled". *)
Definition oomPod : kcore.Pod :=
  {| kcore.Name := "worker-0";
     kcore.ContainerStatuses :=
       [{| kcore.State_Terminated := None;
           kcore.LastTerminationState_Terminated :=
             Some {| kcore.ExitCode := 137; kcore.Reason := "OOMKilled" |} |}] |}.

Definition oomScenario : Scenario :=
  {| sc_keys := [jobA];
     sc_state := fun _ => Ok runningA;
     sc_queues := ["sqs/A"];
     sc_jobs := [batchOf "A" 3 0 1];
     sc_attributes := fun _ => Ok ∅;
     sc_spec := specA;
     sc_queueEmpty := false;
     sc_succeeded := 10;
     sc_pods := [oomPod];
     sc_now := scenarioNow |}.

(** Job A became Running five seconds ago. *)
Definition justRunningA : job.State :=
  {| job.JobKey := jobA;
     job.Status := status.JobRunning;
     job.LastUpdatedMap :=
       {[ "status_enqueuing" := scenarioNow - 25 * time.Second;
          "status_running" := scenarioNow - 5 * time.Second ]} |}.

(** Job A is Running and its queue is listed, but the orchestrator lists no
    batch for it: within the batch-existence grace period in the first
    scenario, long after it in the second. *)
Definition batchNotListedYet : Scenario :=
  {| sc_keys := [jobA];
     sc_state := fun _ => Ok justRunningA;
     sc_queues := ["sqs/A"];
     sc_jobs := [];
     sc_attributes := fun _ => Ok ∅;
     sc_spec := specA;
     sc_queueEmpty := false;
     sc_succeeded := 0;
     sc_pods := [];
     sc_now := scenarioNow |}.

Definition batchGone : Scenario :=
  {| sc_keys := [jobA];
     sc_state := fun _ => Ok runningA;
     sc_queues := ["sqs/A"];
     sc_jobs := [];
     sc_attributes := fun _ => Ok ∅;
     sc_spec := specA;
     sc_queueEmpty := false;
     sc_succeeded := 0;
     sc_pods := [];
     sc_now := scenarioNow |}.

(** Two batches: the one of job A has a failed worker, the one of job B
    has two active workers and no failure. *)
Definition twoBatches : list kbatch.Job := [batchOf "A" 0 0 1; batchOf "B" 2 0 0].

(** An orphan queue: nothing is in progress, no batch is listed, and the
    queue of job Q exists.  Its CreatedTimestamp is 10 s before the instant
    of the scenario in [orphanQueueRecent], 45 s before it in
    [orphanQueueOld], and cannot be fetched in [orphanQueueUnreadable]. *)
Definition orphanQueue (attributes : result (gmap string string)) : Scenario :=
  {| sc_keys := [];
     sc_state := fun _ => Err "not found";
     sc_queues := ["sqs/Q"];
     sc_jobs := [];
     sc_attributes := fun _ => attributes;
     sc_spec := specA;
     sc_queueEmpty := true;
     sc_succeeded := 0;
     sc_pods := [];
     sc_now := scenarioNow |}.

Definition orphanQueueRecent : Scenario :=
  orphanQueue (Ok {[ "CreatedTimestamp" := "1599999990" ]}).
Definition orphanQueueOld : Scenario :=
  orphanQueue (Ok {[ "CreatedTimestamp" := "1599999955" ]}).
Definition orphanQueueUnreadable : Scenario :=
  orphanQueue (Err "AccessDenied").

(** Job A is Running, was enqueued 45 s ago, and its queue is not listed
    (the spec's "missing queue past grace"); its batch is listed. *)
Definition queuelessA : job.State :=
  {| job.JobKey := jobA;
     job.Status := status.JobRunning;
     job.LastUpdatedMap :=
       {[ "status_enqueuing" := scenarioNow - 45 * time.Second;
          "status_running" := scenarioNow - 40 * time.Second ]} |}.

Definition missingQueue : Scenario :=
  {| sc_keys := [jobA];
     sc_state := fun _ => Ok queuelessA;
     sc_queues := [];
     sc_jobs := [batchOf "A" 4 0 0];
     sc_attributes := fun _ => Ok ∅;
     sc_spec := specA;
     sc_queueEmpty := false;
     sc_succeeded := 0;
     sc_pods := [];
     sc_now := scenarioNow |}.

(** The job of the two-transition scenario: still Enqueuing after 300 s
    without a liveness update, and past its 60 s timeout. *)
Definition stuckEnqueuingA : job.State :=
  {| job.JobKey := jobA;
     job.Status := status.JobEnqueuing;
     job.LastUpdatedMap :=
       {[ "status_enqueuing" := scenarioNow - 300 * time.Second;
          "liveness" := scenarioNow - 300 * time.Second ]} |}.

Definition stuckEnqueuing : Scenario :=
  {| sc_keys := [jobA];
     sc_state := fun _ => Ok stuckEnqueuingA;
     sc_queues := ["sqs/A"];
     sc_jobs := [];
     sc_attributes := fun _ => Ok ∅;
     sc_spec := {| spec.Workers := 4; spec.TotalBatchCount := 1000;
                   spec.Timeout := Some 60;
                   spec.StartTime := scenarioNow - 300 * time.Second |};
     sc_queueEmpty := false;
     sc_succeeded := 0;
     sc_pods := [];
     sc_now := scenarioNow |}.

(** * Statements of the spec that the code is measured against *)

(** The happy path as the classifier sees it when it is invoked in [w]: no
    failed worker, the queue observed empty, the metrics and the spec
    fetched, as many succeeded workers as the spec has workers, and as
    many succeeded work items as the spec has in total. *)
Definition completedCleanly (env : Env) (w : World) (jobKey : spec.JobKey)
    (queueURL : string) (k8sJob : kbatch.Job) (jobSpec : spec.BatchJob)
    (batchMetrics : BatchMetrics) : Prop :=
  kbatch.Failed (kbatch.Status k8sJob) = 0 /\
  (exists queueMessages,
      ext_getQueueMetricsFromURL env (calls w) queueURL = Ok queueMessages /\
      IsEmpty queueMessages = true) /\
  ext_getRealTimeBatchMetrics env (S (calls w)) jobKey = Ok batchMetrics /\
  ext_downloadJobSpec env (S (S (calls w))) jobKey = Ok jobSpec /\
  spec.Workers jobSpec = kbatch.Succeeded (kbatch.Status k8sJob) /\
  spec.TotalBatchCount jobSpec = Succeeded batchMetrics.

(** "The first invocation adds the ID to DeferredDelete without persisting
    a status." *)
Definition firstInvocationDefers (env : Env) (w : World) (jobKey : spec.JobKey)
    (queueURL : string) (k8sJob : kbatch.Job) : Prop :=
  let o := checkIfJobCompleted env jobKey queueURL (Some k8sJob) w in
  spec.ID jobKey ∈ _jobsToDelete (world_of o) /\
  forall code, EvSetStatus jobKey code ∉ added w o.

(** The message the spec gives for the WorkerOOM transition. *)
Definition specifiedOOMLine : string :=
  "at least one worker was killed because it ran out of memory".

(** "For every orchestrator batch returned by ListJobs, k8sJobMap maps that
    batch's jobID label to that same batch." *)
Definition joinedByJobID (jobs : list kbatch.Job) : Prop :=
  forall kJob, kJob ∈ jobs ->
    lookupJob (joinJobs jobs) (index (kbatch.Labels kJob) "jobID") = Some kJob.

(** "A single reconciliation pass both persists UnexpectedError and deletes
    the job's runtime resources." *)
Definition persistsErrorAndDeletes (env : Env) (w : World) (jobKey : spec.JobKey)
  : Prop :=
  let o := ManageJobResources env w in
  EvSetStatus jobKey status.JobUnexpectedError ∈ added w o /\
  EvDeleteRuntime jobKey ∈ added w o.

(** "Every terminal transition is accompanied by exactly one explanatory
    line written to the job's log stream before the status is persisted":
    whenever the events [evs] persist a terminal status for a job, they
    hold exactly one line for the job, and it comes before the status. *)
Definition explainedOnceBefore (evs : list Event) : Prop :=
  forall pre jobKey code post,
    evs = pre ++ EvSetStatus jobKey code :: post ->
    status.IsInProgress code = false ->
    List.length (logLines jobKey evs) = 1%nat /\
    List.length (logLines jobKey pre) = 1%nat.

(** * Notions used in the further properties *)

(** The reconciler's own state is the same in [w'] as in [w]: the same
    deferred IDs and the same spec cache. *)
Definition sameState (w w' : World) : Prop :=
  _jobsToDelete w' = _jobsToDelete w /\
  _inProgressJobSpecMap w' = _inProgressJobSpecMap w.

(** The three verdicts of [reconcileInProgressJob] on a job state: the
    stored status with an empty message (an error can only come with it,
    and only when the queue is missing); UnexpectedError with a message,
    for a missing queue or for a Running job without batch; EnqueueFailed
    with a message, for an Enqueuing job whose queue is listed. *)
Definition verdict (env : Env) (jobState : job.State) (queueURL : option string)
    (k8sJob : option kbatch.Job) (r : status.JobCode * string * option error)
  : Prop :=
  let '(code, msg, err) := r in
  (code = job.Status jobState /\ msg = "" /\ (err <> None -> queueURL = None)) \/
  (code = status.JobUnexpectedError /\ err = None /\
   (exists rest, msg = "terminating job " +:+ UserString env (job.JobKey jobState)
                         +:+ rest) /\
   (queueURL = None \/
    (job.Status jobState = status.JobRunning /\ k8sJob = None))) \/
  (code = status.JobEnqueueFailed /\ err = None /\
   msg = "terminating job " +:+ UserString env (job.JobKey jobState)
           +:+ "; enqueuing liveness check failed" /\
   job.Status jobState = status.JobEnqueuing /\ queueURL <> None).

(** Job A was enqueued ten seconds ago and its queue is not listed yet. *)
Definition justEnqueuedA : job.State :=
  {| job.JobKey := jobA;
     job.Status := status.JobEnqueuing;
     job.LastUpdatedMap :=
       {[ "status_enqueuing" := scenarioNow - 10 * time.Second;
          "liveness" := scenarioNow - 2 * time.Second ]} |}.

Definition queueNotListedYet : Scenario :=
  {| sc_keys := [jobA];
     sc_state := fun _ => Ok justEnqueuedA;
     sc_queues := [];
     sc_jobs := [];
     sc_attributes := fun _ => Ok ∅;
     sc_spec := specA;
     sc_queueEmpty := false;
     sc_succeeded := 0;
     sc_pods := [];
     sc_now := scenarioNow |}.


(** The spec of job A with a timeout of 60 s; the job started 110 s ago. *)
Definition specWithTimeoutA : spec.BatchJob :=
  {| spec.Workers := 4; spec.TotalBatchCount := 1000;
     spec.Timeout := Some 60; spec.StartTime := scenarioNow - 110 * time.Second |}.

(** Job A is Running with its queue and batch listed, work is still going
    on, and the job is past its timeout. *)
Definition pastTimeout : Scenario :=
  {| sc_keys := [jobA];
     sc_state := fun _ => Ok runningA;
     sc_queues := ["sqs/A"];
     sc_jobs := [batchOf "A" 4 0 0];
     sc_attributes := fun _ => Ok ∅;
     sc_spec := specWithTimeoutA;
     sc_queueEmpty := false;
     sc_succeeded := 10;
     sc_pods := [];
     sc_now := scenarioNow |}.

(** A process that has the spec with the timeout cached for job A. *)
Definition cachedWorld : World :=
  {| _jobsToDelete := ∅;
     _inProgressJobSpecMap := {[ "A" := specWithTimeoutA ]};
     calls := 0;
     trace := [] |}.

(** The line written for a job that has timed out. *)
Definition timeoutLine (timeout : Z) : string :=
  "terminating job after exceeding the specified timeout of "
    +:+ pretty timeout +:+ " seconds".

(** The two lines of the classifier for a state that stays inconsistent
    over two invocations. *)
Definition stillInProgressLine : string :=
  "unexpected job status because cluster state indicates job has completed but metrics indicate that job is still in progress".

Definition stillRunningLine : string :=
  "unexpected job state; queue is empty but cluster state still indicates that the job is still in progress".

(** The queue of job A still holds messages although no worker is active. *)
Definition idleWithBacklog : Scenario :=
  {| sc_keys := [jobA];
     sc_state := fun _ => Ok runningA;
     sc_queues := ["sqs/A"];
     sc_jobs := [batchOf "A" 0 4 0];
     sc_attributes := fun _ => Ok ∅;
     sc_spec := specA;
     sc_queueEmpty := false;
     sc_succeeded := 900;
     sc_pods := [];
     sc_now := scenarioNow |}.

(** The queue of job A is empty but only three of its four workers have
    succeeded. *)
Definition workerMissing : Scenario :=
  {| sc_keys := [jobA];
     sc_state := fun _ => Ok runningA;
     sc_queues := ["sqs/A"];
     sc_jobs := [batchOf "A" 1 3 0];
     sc_attributes := fun _ => Ok ∅;
     sc_spec := specA;
     sc_queueEmpty := true;
     sc_succeeded := 1000;
     sc_pods := [];
     sc_now := scenarioNow |}.

(** Job A still has messages in its queue and two active workers. *)
Definition stillWorking : Scenario :=
  {| sc_keys := [jobA];
     sc_state := fun _ => Ok runningA;
     sc_queues := ["sqs/A"];
     sc_jobs := [batchOf "A" 2 2 0];
     sc_attributes := fun _ => Ok ∅;
     sc_spec := specA;
     sc_queueEmpty := false;
     sc_succeeded := 500;
     sc_pods := [];
     sc_now := scenarioNow |}.

(** One of the three reads of the classifier fails with [err] when the
    classifier is invoked in [w]: the queue metrics, or after an empty
    queue the batch metrics, or after both the job spec. *)
Definition classifierReadFails (env : Env) (w : World) (jobKey : spec.JobKey)
    (queueURL : string) (err : error) : Prop :=
  ext_getQueueMetricsFromURL env (calls w) queueURL = Err err \/
  (ext_getQueueMetricsFromURL env (calls w) queueURL = Ok {| IsEmpty := true |} /\
   (ext_getRealTimeBatchMetrics env (S (calls w)) jobKey = Err err \/
    ((exists batchMetrics,
         ext_getRealTimeBatchMetrics env (S (calls w)) jobKey = Ok batchMetrics) /\
     ext_downloadJobSpec env (S (S (calls w))) jobKey = Err err))).

(** An outside world in which the metrics backend is down; otherwise the
    happy path. *)
Definition metricsDown : Env :=
  {| ext_ListAllInProgressJobKeys := ext_ListAllInProgressJobKeys (scenarioEnv happyPath);
     ext_GetJobState := ext_GetJobState (scenarioEnv happyPath);
     ext_SetStatus := ext_SetStatus (scenarioEnv happyPath);
     ext_DeleteInProgressFile := ext_DeleteInProgressFile (scenarioEnv happyPath);
     ext_listQueueURLsForAllAPIs := ext_listQueueURLsForAllAPIs (scenarioEnv happyPath);
     ext_GetAllQueueAttributes := ext_GetAllQueueAttributes (scenarioEnv happyPath);
     ext_getJobQueueURL := ext_getJobQueueURL (scenarioEnv happyPath);
     ext_getQueueMetricsFromURL := ext_getQueueMetricsFromURL (scenarioEnv happyPath);
     ext_ListJobs := ext_ListJobs (scenarioEnv happyPath);
     ext_ListPodsByLabel := ext_ListPodsByLabel (scenarioEnv happyPath);
     ext_deleteJobRuntimeResources :=
       ext_deleteJobRuntimeResources (scenarioEnv happyPath);
     ext_getRealTimeBatchMetrics := fun _ _ => Err "metrics backend unavailable";
     ext_downloadJobSpec := ext_downloadJobSpec (scenarioEnv happyPath);
     ext_writeToJobLogStream := ext_writeToJobLogStream (scenarioEnv happyPath);
     ext_Now := ext_Now (scenarioEnv happyPath);
     ext_rangeOrder := ext_rangeOrder (scenarioEnv happyPath);
     jobKeyFromQueueURL := jobKeyFromQueueURL (scenarioEnv happyPath);
     UserString := UserString (scenarioEnv happyPath);
     JobCode_String := JobCode_String (scenarioEnv happyPath);
     LivenessFile := LivenessFile (scenarioEnv happyPath);
     _enqueuingLivenessPeriod := _enqueuingLivenessPeriod (scenarioEnv happyPath);
     WasPodOOMKilled := WasPodOOMKilled (scenarioEnv happyPath);
     GetPodStatus := GetPodStatus (scenarioEnv happyPath);
     ToLower := ToLower (scenarioEnv happyPath) |}.

(** The termination the investigator reports for a container: the last
    one where there is one, otherwise the current one. *)
Definition reportedTermination (containerStatus : kcore.ContainerStatus)
  : option kcore.ContainerStateTerminated :=
  match kcore.LastTerminationState_Terminated containerStatus with
  | Some t => Some t
  | None => kcore.State_Terminated containerStatus
  end.

Definition containerLines (env : Env) (podStatus : string)
    (statuses : list kcore.ContainerStatus) : list string :=
  omap (fun containerStatus =>
          terminationLine env podStatus <$> reportedTermination containerStatus)
       statuses.

(** The lines for the terminated containers of the pods, in the order of
    the pods and of their containers. *)
Definition workerLines (env : Env) (pods : list kcore.Pod) : list string :=
  pod ← pods; containerLines env (GetPodStatus env pod) (kcore.ContainerStatuses pod).

(** One call to the log stream per line. *)
Definition logged (jobKey : spec.JobKey) (lines : list string) : list Event :=
  (fun line => EvLog jobKey [line]) <$> lines.

Definition oomLine : string :=
  "at least one worker was killed because it ran out of out of memory".

Definition unknownReasonLine : string := "workers were killed for unknown reason".

Definition notOOMKilled (env : Env) (pod : kcore.Pod) : Prop :=
  WasPodOOMKilled env pod = false.

(** A pod whose container exited with code 1 and restarted once before. *)
Definition crashedPod : kcore.Pod :=
  {| kcore.Name := "worker-1";
     kcore.ContainerStatuses :=
       [{| kcore.State_Terminated :=
             Some {| kcore.ExitCode := 1; kcore.Reason := "Error" |};
           kcore.LastTerminationState_Terminated :=
             Some {| kcore.ExitCode := 2; kcore.Reason := "Error" |} |};
        {| kcore.State_Terminated :=
             Some {| kcore.ExitCode := 143; kcore.Reason := "Completed" |};
           kcore.LastTerminationState_Terminated := None |}] |}.

(** A pod that is still starting: no container has terminated. *)
Definition pendingPod : kcore.Pod :=
  {| kcore.Name := "worker-2";
     kcore.ContainerStatuses :=
       [{| kcore.State_Terminated := None;
           kcore.LastTerminationState_Terminated := None |}] |}.

Definition failedWith (pods : list kcore.Pod) : Scenario :=
  {| sc_keys := [jobA];
     sc_state := fun _ => Ok runningA;
     sc_queues := ["sqs/A"];
     sc_jobs := [batchOf "A" 1 0 1];
     sc_attributes := fun _ => Ok ∅;
     sc_spec := specA;
     sc_queueEmpty := false;
     sc_succeeded := 10;
     sc_pods := pods;
     sc_now := scenarioNow |}.

(** [keeps R m]: whatever [m] does from a world, return or panic, the world
    it leaves is related by [R] to the one it started from. *)
Definition keeps {A} (R : relation World) (m : M A) : Prop :=
  forall w, R w (world_of (m w)).

(** A preorder on worlds that looks at the reconciler's own state only. *)
Class StateOrder (R : relation World) : Prop := {
  stateOrder_refl w : R w w;
  stateOrder_trans w1 w2 w3 : R w1 w2 -> R w2 w3 -> R w1 w3;
  stateOrder_same w w' : sameState w w' -> R w w'
}.

(** Between [w] and [w'] nothing changed for the jobs other than
    [jobKey]: they are deferred or not as before and their cached specs are
    as before; and a spec cached for [jobKey] in [w] is still the cached
    one in [w']. *)
Definition touchesOnly (jobKey : spec.JobKey) (w w' : World) : Prop :=
  (forall id, id <> spec.ID jobKey ->
     (id ∈ _jobsToDelete w' <-> id ∈ _jobsToDelete w) /\
     _inProgressJobSpecMap w' !! id = _inProgressJobSpecMap w !! id) /\
  (forall jobSpec, _inProgressJobSpecMap w !! spec.ID jobKey = Some jobSpec ->
     _inProgressJobSpecMap w' !! spec.ID jobKey = Some jobSpec).

(** The specs cached in [w] for the jobs of [ids] are still cached in
    [w']. *)
Definition cacheKeptFor (ids : gset string) (w w' : World) : Prop :=
  forall id jobSpec, id ∈ ids ->
    _inProgressJobSpecMap w !! id = Some jobSpec ->
    _inProgressJobSpecMap w' !! id = Some jobSpec.

(** The cache of [w'] has no entries but those of [w] and entries for
    jobs of [ids]. *)
Definition cacheGrowsWithin (ids : gset string) (w w' : World) : Prop :=
  forall id, id ∈ dom (_inProgressJobSpecMap w') ->
    id ∈ dom (_inProgressJobSpecMap w) \/ id ∈ ids.

(** The cache is the same in [w'] as in [w]. *)
Definition cacheSame (w w' : World) : Prop :=
  _inProgressJobSpecMap w' = _inProgressJobSpecMap w.

(** One of the three listings of a pass that starts in [w] fails with
    [err], the ones before it having succeeded. *)
Definition listingFails (env : Env) (w : World) (err : error) : Prop :=
  loadedInProgress env w = Err err \/
  (exists keys, loadedInProgress env w = Ok keys) /\
  (loadedQueues env w = Err err \/
   (exists queues, loadedQueues env w = Ok queues) /\
   loadedBatches env w = Err err).

(** An outside world whose orchestrator cannot list the batches;
    otherwise the happy path. *)
Definition orchestratorDown : Env :=
  {| ext_ListAllInProgressJobKeys := ext_ListAllInProgressJobKeys (scenarioEnv happyPath);
     ext_GetJobState := ext_GetJobState (scenarioEnv happyPath);
     ext_SetStatus := ext_SetStatus (scenarioEnv happyPath);
     ext_DeleteInProgressFile := ext_DeleteInProgressFile (scenarioEnv happyPath);
     ext_listQueueURLsForAllAPIs := ext_listQueueURLsForAllAPIs (scenarioEnv happyPath);
     ext_GetAllQueueAttributes := ext_GetAllQueueAttributes (scenarioEnv happyPath);
     ext_getJobQueueURL := ext_getJobQueueURL (scenarioEnv happyPath);
     ext_getQueueMetricsFromURL := ext_getQueueMetricsFromURL (scenarioEnv happyPath);
     ext_ListJobs := fun _ => Err "orchestrator unavailable";
     ext_ListPodsByLabel := ext_ListPodsByLabel (scenarioEnv happyPath);
     ext_deleteJobRuntimeResources :=
       ext_deleteJobRuntimeResources (scenarioEnv happyPath);
     ext_getRealTimeBatchMetrics := ext_getRealTimeBatchMetrics (scenarioEnv happyPath);
     ext_downloadJobSpec := ext_downloadJobSpec (scenarioEnv happyPath);
     ext_writeToJobLogStream := ext_writeToJobLogStream (scenarioEnv happyPath);
     ext_Now := ext_Now (scenarioEnv happyPath);
     ext_rangeOrder := ext_rangeOrder (scenarioEnv happyPath);
     jobKeyFromQueueURL := jobKeyFromQueueURL (scenarioEnv happyPath);
     UserString := UserString (scenarioEnv happyPath);
     JobCode_String := JobCode_String (scenarioEnv happyPath);
     LivenessFile := LivenessFile (scenarioEnv happyPath);
     _enqueuingLivenessPeriod := _enqueuingLivenessPeriod (scenarioEnv happyPath);
     WasPodOOMKilled := WasPodOOMKilled (scenarioEnv happyPath);
     GetPodStatus := GetPodStatus (scenarioEnv happyPath);
     ToLower := ToLower (scenarioEnv happyPath) |}.

(** A process that has specs cached for job A and for job Z, which is no
    longer in progress. *)
Definition staleCacheWorld : World :=
  {| _jobsToDelete := ∅;
     _inProgressJobSpecMap := {[ "A" := specWithTimeoutA; "Z" := specA ]};
     calls := 0;
     trace := [] |}.

(** The event is for something the pass has listed: a log write, a status
    write or a marker deletion is for a key listed in progress, a runtime
    deletion is for such a key, for the ID of a listed batch, or for an ID
    of [orphanQueueIDs]. *)
Definition forListed (keys : list spec.JobKey) (batchIDs orphanQueueIDs : gset string)
    (e : Event) : Prop :=
  match e with
  | EvLog k _ | EvSetStatus k _ | EvDeleteInProgressFile k => k ∈ keys
  | EvDeleteRuntime k =>
      k ∈ keys \/ spec.ID k ∈ batchIDs \/ spec.ID k ∈ orphanQueueIDs
  | EvReport _ => True
  end.

(** The job key the orphan-batch loop builds from the labels of a batch. *)
Definition keyOfBatch (kJob : kbatch.Job) : spec.JobKey :=
  {| spec.APIName := index (kbatch.Labels kJob) "apiName";
     spec.ID := index (kbatch.Labels kJob) "jobID" |}.

(** Job A is in progress with its queue and batch; the batch of job B,
    which is not in progress, is listed before the batch of job A, and the
    queue of job Q is 45 s old without batch or marker. *)
Definition leftovers : Scenario :=
  {| sc_keys := [jobA];
     sc_state := fun _ => Ok runningA;
     sc_queues := ["sqs/A"; "sqs/Q"];
     sc_jobs := [batchOf "B" 0 4 0; batchOf "A" 4 0 0];
     sc_attributes := fun _ => Ok {[ "CreatedTimestamp" := "1599999955" ]};
     sc_spec := specA;
     sc_queueEmpty := false;
     sc_succeeded := 10;
     sc_pods := [];
     sc_now := scenarioNow |}.

(** [returns m]: from any world [m] returns; it does not panic. *)
Definition returns {A} (m : M A) : Prop :=
  forall w, exists a w', m w = Ret a w'.

(** Every job listed in progress whose queue is listed has its batch
    listed too. *)
Definition queuedJobsHaveBatches (keys : list spec.JobKey) (q : QueueView)
    (b : BatchView) : Prop :=
  forall jobKey, jobKey ∈ keys ->
    spec.ID jobKey ∈ queueJobIDSet q -> spec.ID jobKey ∈ k8sJobIDSet b.

(** An outside world whose object storage cannot deliver job specs;
    otherwise the happy path. *)
Definition specStoreDown : Env :=
  {| ext_ListAllInProgressJobKeys := ext_ListAllInProgressJobKeys (scenarioEnv happyPath);
     ext_GetJobState := ext_GetJobState (scenarioEnv happyPath);
     ext_SetStatus := ext_SetStatus (scenarioEnv happyPath);
     ext_DeleteInProgressFile := ext_DeleteInProgressFile (scenarioEnv happyPath);
     ext_listQueueURLsForAllAPIs := ext_listQueueURLsForAllAPIs (scenarioEnv happyPath);
     ext_GetAllQueueAttributes := ext_GetAllQueueAttributes (scenarioEnv happyPath);
     ext_getJobQueueURL := ext_getJobQueueURL (scenarioEnv happyPath);
     ext_getQueueMetricsFromURL := ext_getQueueMetricsFromURL (scenarioEnv happyPath);
     ext_ListJobs := ext_ListJobs (scenarioEnv happyPath);
     ext_ListPodsByLabel := ext_ListPodsByLabel (scenarioEnv happyPath);
     ext_deleteJobRuntimeResources :=
       ext_deleteJobRuntimeResources (scenarioEnv happyPath);
     ext_getRealTimeBatchMetrics := ext_getRealTimeBatchMetrics (scenarioEnv happyPath);
     ext_downloadJobSpec := fun _ _ => Err "NoSuchKey";
     ext_writeToJobLogStream := ext_writeToJobLogStream (scenarioEnv happyPath);
     ext_Now := ext_Now (scenarioEnv happyPath);
     ext_rangeOrder := ext_rangeOrder (scenarioEnv happyPath);
     jobKeyFromQueueURL := jobKeyFromQueueURL (scenarioEnv happyPath);
     UserString := UserString (scenarioEnv happyPath);
     JobCode_String := JobCode_String (scenarioEnv happyPath);
     LivenessFile := LivenessFile (scenarioEnv happyPath);
     _enqueuingLivenessPeriod := _enqueuingLivenessPeriod (scenarioEnv happyPath);
     WasPodOOMKilled := WasPodOOMKilled (scenarioEnv happyPath);
     GetPodStatus := GetPodStatus (scenarioEnv happyPath);
     ToLower := ToLower (scenarioEnv happyPath) |}.

Definition cleanUpNotice : string := "terminating job and cleaning up job resources".

(** A process in which the jobs A and Z are deferred. *)
Definition twoDeferred : World :=
  {| _jobsToDelete := {["A"; "Z"]}; _inProgressJobSpecMap := ∅; calls := 0; trace := [] |}.

(** Job A became Running five seconds ago, its queue is listed and the
    orchestrator does not list its batch yet; the queue of job Q, which has
    neither batch nor in-progress marker, was created 45 s ago. *)
Definition orphanBehindMissingBatch : Scenario :=
  {| sc_keys := [jobA];
     sc_state := fun _ => Ok justRunningA;
     sc_queues := ["sqs/A"; "sqs/Q"];
     sc_jobs := [];
     sc_attributes := fun _ => Ok {[ "CreatedTimestamp" := "1599999955" ]};
     sc_spec := specA;
     sc_queueEmpty := false;
     sc_succeeded := 0;
     sc_pods := [];
     sc_now := scenarioNow |}.

(** * Reasoning about runs *)

Lemma bind_unfold {A B} (m : M A) (f : A -> M B) (w : World) :
  (m ≫= f) w = match m w with Ret a w' => f a w' | Panic w' => Panic w' end.
Proof. reflexivity. Qed.

Lemma bind_Ret {A B} (m : M A) (f : A -> M B) w a w' :
  m w = Ret a w' -> (m ≫= f) w = f a w'.
Proof. intros H. rewrite bind_unfold, H. reflexivity. Qed.

Lemma bind_Panic {A B} (m : M A) (f : A -> M B) w w' :
  m w = Panic w' -> (m ≫= f) w = Panic w'.
Proof. intros H. rewrite bind_unfold, H. reflexivity. Qed.

(** Unfolds the calls to the collaborators down to [call] and [act]. *)
Ltac ops :=
  unfold writeToJobLogStream, SetSucceededStatus, SetCompletedWithFailuresStatus,
    SetTimedOutStatus, SetUnexpectedErrorStatus, SetWorkerOOMStatus,
    SetWorkerErrorStatus, SetStatusForJob, DeleteInProgressFile,
    deleteJobRuntimeResources, ListAllInProgressJobKeys, GetJobState,
    listQueueURLsForAllAPIs, GetAllQueueAttributes, getJobQueueURL,
    getQueueMetricsFromURL, ListJobs, ListPodsByLabel, getRealTimeBatchMetrics,
    downloadJobSpec, Since, Now, jobsToDelete_Has, jobsToDelete_Add,
    jobsToDelete_Remove, reportIfError in *.

(** Unfolds the monad altogether and computes. *)
Ltac run :=
  ops;
  unfold rangeKeys, getJobsToDelete, setJobsToDelete, getJobSpecMap,
    setJobSpecMap, report, call, act, panic, mbind, mret, M_bind, M_ret in *;
  cbn in *.

(** Case analysis on a scrutinee of the goal that is not itself blocked by
    another case analysis. *)
Ltac inner_case :=
  match goal with
  | |- context [match ?x with _ => _ end] =>
      lazymatch x with
      | context [match _ with _ => _ end] => fail
      | _ => destruct x eqn:?
      end
  end.

(** ** Events emitted by a computation *)

Lemma emitsAt_weaken {A} (P Q : Event -> Prop) (m : M A) w :
  (forall e, P e -> Q e) -> emitsAt P m w -> emitsAt Q m w.
Proof.
  intros HPQ (evs & Htr & Hall). exists evs. split; [done|].
  eapply Forall_impl; eauto.
Qed.

Lemma emits_weaken {A} (P Q : Event -> Prop) (m : M A) :
  (forall e, P e -> Q e) -> emits P m -> emits Q m.
Proof. intros HPQ Hm w. eapply emitsAt_weaken; eauto. Qed.

Lemma emitsAt_bind {A B} P (m : M A) (f : A -> M B) w :
  emitsAt P m w ->
  (forall a w', m w = Ret a w' -> emitsAt P (f a) w') ->
  emitsAt P (m ≫= f) w.
Proof.
  intros (evs1 & Htr1 & Hall1) Hf. unfold emitsAt. rewrite bind_unfold.
  destruct (m w) as [a w'|w'] eqn:Hm; cbn in *.
  - destruct (Hf a w' eq_refl) as (evs2 & Htr2 & Hall2).
    exists (evs1 ++ evs2). rewrite Htr2, Htr1, app_assoc. split; [done|].
    by apply Forall_app.
  - exists evs1. done.
Qed.

Lemma emits_bind {A B} P (m : M A) (f : A -> M B) :
  emits P m -> (forall a, emits P (f a)) -> emits P (m ≫= f).
Proof. intros Hm Hf w. apply emitsAt_bind; [apply Hm|]. intros a w' _. apply Hf. Qed.

Lemma emits_ret {A} P (a : A) : emits P (mret a : M A).
Proof. intros w. exists []. cbn. rewrite app_nil_r. done. Qed.

Lemma emits_panic {A} P : emits P (panic : M A).
Proof. intros w. exists []. cbn. rewrite app_nil_r. done. Qed.

Lemma emits_call {A} P (f : nat -> A) : emits P (call f).
Proof. intros w. exists []. cbn. rewrite app_nil_r. done. Qed.

Lemma emits_act {A} (P : Event -> Prop) e (f : nat -> A) : P e -> emits P (act e f).
Proof. intros He w. exists [e]. cbn. split; [done|]. by constructor. Qed.

Lemma emits_report (P : Event -> Prop) err : P (EvReport err) -> emits P (report err).
Proof. intros He w. exists [EvReport err]. cbn. split; [done|]. by constructor. Qed.

Lemma emits_getJobsToDelete P : emits P getJobsToDelete.
Proof. intros w. exists []. cbn. rewrite app_nil_r. done. Qed.

Lemma emits_setJobsToDelete P s : emits P (setJobsToDelete s).
Proof. intros w. exists []. cbn. rewrite app_nil_r. done. Qed.

Lemma emits_getJobSpecMap P : emits P getJobSpecMap.
Proof. intros w. exists []. cbn. rewrite app_nil_r. done. Qed.

Lemma emits_setJobSpecMap P m : emits P (setJobSpecMap m).
Proof. intros w. exists []. cbn. rewrite app_nil_r. done. Qed.

Lemma emits_rangeKeys env P l : emits P (rangeKeys env l).
Proof. intros w. exists []. cbn. rewrite app_nil_r. done. Qed.

Lemma emits_forM_ {A} P (l : list A) (body : A -> M unit) :
  (forall x, x ∈ l -> emits P (body x)) -> emits P (forM_ l body).
Proof.
  induction l as [|x l IH]; intros Hbody; cbn.
  - apply emits_ret.
  - apply emits_bind.
    + apply Hbody. by left.
    + intros _. apply IH. intros y Hy. apply Hbody. by right.
Qed.

Create HintDb emits.
#[global] Hint Resolve emits_ret emits_panic emits_call emits_getJobsToDelete
  emits_setJobsToDelete emits_getJobSpecMap emits_setJobSpecMap emits_rangeKeys
  : emits.

(** Breaks a goal [emits P m] down along the structure of [m]. *)
Ltac emits_step :=
  match goal with
  | |- emits _ (mbind _ _) => apply emits_bind; [|intros ?]
  | |- emits _ (_ ≫= _) => apply emits_bind; [|intros ?]
  | |- emits _ (act _ _) => apply emits_act
  | |- emits _ (report _) => apply emits_report
  | |- emits _ (match ?x with _ => _ end) => destruct x
  | |- emits _ (if ?x then _ else _) => destruct x
  | |- emits _ (let '(_, _) := ?x in _) => destruct x
  | |- emits _ _ => solve [auto with emits]
  end.

Ltac emits_auto := ops; repeat emits_step.

(** ** Events about one job *)

Section Footprints.
Context (env : Env).

Lemma reconcileInProgressJob_silent P jobState queueURL k8sJob :
  emits P (reconcileInProgressJob env jobState queueURL k8sJob).
Proof. unfold reconcileInProgressJob. emits_auto. Qed.

Lemma investigateContainers_about jobKey podStatus reasonFound statuses :
  emits (about jobKey)
    (investigateContainers env jobKey podStatus reasonFound statuses).
Proof.
  revert reasonFound.
  induction statuses as [|cs rest IH]; intros reasonFound; cbn.
  - apply emits_ret.
  - destruct (kcore.LastTerminationState_Terminated cs);
      [|destruct (kcore.State_Terminated cs)]; emits_auto; cbn; auto.
Qed.

Lemma investigatePods_about jobKey reasonFound pods :
  emits (about jobKey) (investigatePods env jobKey reasonFound pods).
Proof.
  revert reasonFound.
  induction pods as [|pod rest IH]; intros reasonFound; cbn.
  - apply emits_ret.
  - destruct (WasPodOOMKilled env pod).
    + emits_auto; cbn; auto.
    + apply emits_bind; [apply investigateContainers_about|]. intros a. apply IH.
Qed.

Lemma investigateJobFailure_about jobKey :
  emits (about jobKey) (investigateJobFailure env jobKey).
Proof.
  unfold investigateJobFailure.
  apply emits_bind; [ops; auto with emits|]. intros pods.
  apply emits_bind; [apply investigatePods_about|]. intros r.
  destruct r; emits_auto; cbn; auto.
Qed.

Lemma checkIfJobCompleted_about jobKey queueURL k8sJob :
  emits (about jobKey) (checkIfJobCompleted env jobKey queueURL k8sJob).
Proof.
  unfold checkIfJobCompleted.
  destruct k8sJob as [k8sJob|]; [|apply emits_panic].
  destruct (0 <? _); [apply investigateJobFailure_about|].
  emits_auto; cbn; auto.
Qed.

Lemma terminateAndCleanUp_about jobKey err :
  emits (about jobKey) (terminateAndCleanUp env jobKey err).
Proof. unfold terminateAndCleanUp. emits_auto; cbn; auto. Qed.

Lemma cachedJobSpec_about jobKey :
  emits (about jobKey) (cachedJobSpec env jobKey).
Proof.
  unfold cachedJobSpec.
  apply emits_bind; [auto with emits|]. intros cache.
  destruct (cache !! spec.ID jobKey); [apply emits_ret|].
  apply emits_bind; [ops; auto with emits|]. intros r.
  destruct r.
  - emits_auto.
  - apply emits_bind; [apply terminateAndCleanUp_about|]. intros _. apply emits_ret.
Qed.

Lemma reconcileJob_about q b jobKey :
  emits (about jobKey) (reconcileJob env q b jobKey).
Proof.
  unfold reconcileJob.
  apply emits_bind; [ops; auto with emits|]. intros r.
  destruct r as [jobState|err]; [|apply terminateAndCleanUp_about].
  destruct (negb _); [emits_auto; cbn; auto|].
  apply emits_bind; [apply reconcileInProgressJob_silent|].
  intros [[newStatusCode msg] err].
  destruct err; [emits_auto; cbn; auto|].
  apply emits_bind; [emits_auto; cbn; auto|]. intros err.
  destruct err; [emits_auto; cbn; auto|].
  destruct (decide _); [|apply emits_ret].
  apply emits_bind; [apply cachedJobSpec_about|]. intros cached.
  destruct cached as [jobSpec|]; [|apply emits_ret].
  assert (emits (about jobKey)
            (if decide (job.Status jobState = status.JobRunning)
             then err ← checkIfJobCompleted env jobKey
                          (index (queueURLMap q) (spec.ID jobKey))
                          (lookupJob b (spec.ID jobKey));
                  reportIfError err
             else mret tt)) as Hrest.
  { destruct (decide _); [|apply emits_ret].
    apply emits_bind; [apply checkIfJobCompleted_about|].
    intros err. emits_auto; cbn; auto. }
  destruct (spec.Timeout jobSpec); [|exact Hrest].
  apply emits_bind; [emits_auto|]. intros d.
  destruct (_ <? d); [emits_auto; cbn; auto|exact Hrest].
Qed.

End Footprints.

(** * The completion classifier on the happy path *)

(** The run of [checkIfJobCompleted] on a cleanly completed job. *)
Lemma checkIfJobCompleted_completedCleanly env w jobKey queueURL k8sJob jobSpec
    batchMetrics :
  completedCleanly env w jobKey queueURL k8sJob jobSpec batchMetrics ->
  checkIfJobCompleted env jobKey queueURL (Some k8sJob) w =
    Ret (FirstError
           [ext_SetStatus env (3 + calls w) jobKey status.JobSucceeded;
            ext_deleteJobRuntimeResources env (4 + calls w) jobKey])
        {| _jobsToDelete := _jobsToDelete w ∖ {[spec.ID jobKey]};
           _inProgressJobSpecMap := _inProgressJobSpecMap w;
           calls := 5 + calls w;
           trace := trace w ++ [EvSetStatus jobKey status.JobSucceeded;
                                EvDeleteRuntime jobKey] |}.
Proof.
  intros (Hfailed & (qm & Hqueue & Hempty) & Hmetrics & Hspec & Hworkers & Htotal).
  unfold checkIfJobCompleted. rewrite Hfailed. cbn [Z.ltb Z.compare].
  run. rewrite Hqueue, Hempty. cbn. rewrite Hmetrics. cbn. rewrite Hspec. cbn.
  rewrite Hworkers, Htotal, !Z.eqb_refl. cbn.
  rewrite <- app_assoc. reflexivity.
Qed.

(** C1, as amended: on a cleanly completed job the first invocation of the
    classifier already persists Succeeded and deletes the runtime
    resources (these two effects and no other), and leaves the job's ID
    out of DeferredDelete, whether or not the ID was deferred before; there
    is no deferral to a second invocation. *)
Theorem completed_job_succeeds_at_first_invocation env w jobKey queueURL k8sJob
    jobSpec batchMetrics :
  completedCleanly env w jobKey queueURL k8sJob jobSpec batchMetrics ->
  let o := checkIfJobCompleted env jobKey queueURL (Some k8sJob) w in
  (exists err w', o = Ret err w') /\
  added w o = [EvSetStatus jobKey status.JobSucceeded; EvDeleteRuntime jobKey] /\
  _jobsToDelete (world_of o) = _jobsToDelete w ∖ {[spec.ID jobKey]} /\
  (spec.ID jobKey ∉ _jobsToDelete (world_of o)).
Proof.
  intros H o. subst o.
  rewrite (checkIfJobCompleted_completedCleanly _ _ _ _ _ _ _ H).
  split; [eauto|]. split; [|split].
  - unfold added. cbn. by rewrite drop_app_length.
  - reflexivity.
  - cbn. rewrite elem_of_difference, elem_of_singleton. by intros [_ []].
Qed.

Lemma happyPath_completedCleanly :
  completedCleanly (scenarioEnv happyPath) freshWorld jobA "sqs/A"
    (batchOf "A" 0 4 0) specA {| Succeeded := 1000 |}.
Proof. unfold completedCleanly. cbn. repeat split; eauto. Qed.

Lemma completed_job_succeeds_at_first_invocation_witness :
  let o := checkIfJobCompleted (scenarioEnv happyPath) jobA "sqs/A"
             (Some (batchOf "A" 0 4 0)) freshWorld in
  (exists err w', o = Ret err w') /\
  added freshWorld o = [EvSetStatus jobA status.JobSucceeded; EvDeleteRuntime jobA] /\
  _jobsToDelete (world_of o) = _jobsToDelete freshWorld ∖ {[spec.ID jobA]} /\
  (spec.ID jobA ∉ _jobsToDelete (world_of o)).
Proof.
  apply (completed_job_succeeds_at_first_invocation (scenarioEnv happyPath)
           freshWorld jobA "sqs/A" (batchOf "A" 0 4 0) specA {| Succeeded := 1000 |}).
  unfold completedCleanly. cbn. repeat split; eauto.
Defined.

(** C1, as stated, fails on the happy path: the job is cleanly completed
    and not deferred, yet the first invocation does not defer it. *)
Lemma happy_path_first_invocation_counterexample :
  completedCleanly (scenarioEnv happyPath) freshWorld jobA "sqs/A"
    (batchOf "A" 0 4 0) specA {| Succeeded := 1000 |} /\
  (spec.ID jobA ∉ _jobsToDelete freshWorld) /\
  (~ firstInvocationDefers (scenarioEnv happyPath) freshWorld jobA "sqs/A"
       (batchOf "A" 0 4 0)).
Proof.
  split; [apply happyPath_completedCleanly|]. split; [compute_done|].
  unfold firstInvocationDefers.
  rewrite (checkIfJobCompleted_completedCleanly _ _ _ _ _ _ _
             happyPath_completedCleanly).
  cbn. intros [Hin _]. apply elem_of_difference in Hin as [Hin _].
  by apply elem_of_empty in Hin.
Qed.

(** * Evaluations of the code where it departs from the spec *)

(** C7: with one failed worker and an OOM-killed pod the investigator
    persists WorkerOOM and deletes the runtime resources, but the line it
    writes is not the specified one: it reads "ran out of out of memory". *)
Theorem oom_line_is_not_the_specified_one :
  let o := checkIfJobCompleted (scenarioEnv oomScenario) jobA "sqs/A"
             (Some (batchOf "A" 3 0 1)) freshWorld in
  WasPodOOMKilled (scenarioEnv oomScenario) oomPod = true /\
  added freshWorld o =
    [EvLog jobA ["at least one worker was killed because it ran out of out of memory"];
     EvSetStatus jobA status.JobWorkerOOM;
     EvDeleteRuntime jobA] /\
  logLines jobA (added freshWorld o) <> [specifiedOOMLine].
Proof. cbv zeta. split; [reflexivity|]. split; [reflexivity|]. vm_compute. discriminate. Qed.

(** C9: after the join, the entry of job A points to the batch of job B,
    the last one listed: job A's decisions read Failed = 0 although its own
    batch has a failed worker. *)
Theorem k8sJobMap_entries_alias_the_last_batch :
  lookupJob (joinJobs twoBatches) "A" = Some (batchOf "B" 2 0 0) /\
  lookupJob (joinJobs twoBatches) "B" = Some (batchOf "B" 2 0 0) /\
  (kbatch.Failed ∘ kbatch.Status <$> lookupJob (joinJobs twoBatches) "A") = Some 0 /\
  kbatch.Failed (kbatch.Status (batchOf "A" 0 0 1)) = 1 /\
  (~ joinedByJobID twoBatches).
Proof.
  assert (lookupJob (joinJobs twoBatches) "A" = Some (batchOf "B" 2 0 0)) as HA
    by (vm_compute; reflexivity).
  split; [exact HA|]. split; [vm_compute; reflexivity|].
  split; [rewrite HA; reflexivity|]. split; [reflexivity|].
  intros Hjoin. specialize (Hjoin (batchOf "A" 0 0 1)).
  assert (batchOf "A" 0 0 1 ∈ twoBatches) as Hin by (unfold twoBatches; set_solver).
  specialize (Hjoin Hin). change (index (kbatch.Labels (batchOf "A" 0 0 1)) "jobID") with "A" in Hjoin.
  rewrite HA in Hjoin. apply (f_equal (fmap (kbatch.Failed ∘ kbatch.Status))) in Hjoin.
  cbn in Hjoin. discriminate.
Qed.

(** After the join every listed jobID leads to the last batch listed. *)
Lemma k8sJobMap_aliases_last (jobs : list kbatch.Job) (jobID : string) :
  jobID ∈ k8sJobIDSet (joinJobs jobs) ->
  lookupJob (joinJobs jobs) jobID = list.last jobs.
Proof.
  unfold joinJobs, lookupJob.
  set (Inv := fun (prev : option kbatch.Job) (b : BatchView) =>
         heap b !! addr_kJob = prev /\
         forall id, id ∈ k8sJobIDSet b -> k8sJobMap b !! id = Some addr_kJob).
  assert (forall prev b, Inv prev b ->
            Inv (from_option Some prev (list.last jobs))
                (foldl (joinJob addr_kJob) b jobs)) as Hfold.
  { induction jobs as [|elem rest IH]; intros prev b Hb; [done|]. cbn [foldl].
    assert (Inv (Some elem) (joinJob addr_kJob b elem)) as Hstep.
    { destruct Hb as [_ Hmap]. split; cbn.
      - by rewrite lookup_insert_eq.
      - intros id. rewrite lookup_insert.
        destruct (decide (index (kbatch.Labels elem) "jobID" = id)); [done|].
        intros [Hin|Hin]%elem_of_union; [|by apply Hmap].
        apply elem_of_singleton in Hin. congruence. }
    specialize (IH _ _ Hstep). destruct rest as [|next rest']; [exact IH|].
    change (list.last (elem :: next :: rest')) with (list.last (next :: rest')).
    destruct (list.last (next :: rest')) eqn:Hlast; [exact IH|].
    by apply last_None in Hlast. }
  intros Hin.
  destruct (Hfold None {| heap := ∅; k8sJobMap := ∅; k8sJobIDSet := ∅ |})
    as [Hheap Hmap].
  { split; [apply lookup_empty|]. intros id Hid. by apply elem_of_empty in Hid. }
  rewrite (Hmap _ Hin). cbn. rewrite Hheap.
  destruct (list.last jobs) eqn:Hlast; [done|].
  apply last_None in Hlast. subst jobs. cbn in Hin. by apply elem_of_empty in Hin.
Qed.

(** C2: a pass over a Running job whose queue is listed and whose batch is
    not hands the classifier a nil batch and panics on its first read,
    both within the batch-existence grace period and after it (where the
    status UnexpectedError has just been written). *)
Theorem running_job_without_batch_panics :
  lookupJob (joinJobs (sc_jobs batchNotListedYet)) (spec.ID jobA) = None /\
  (exists w, ManageJobResources (scenarioEnv batchNotListedYet) freshWorld = Panic w /\
             trace w = []) /\
  (exists w, ManageJobResources (scenarioEnv batchGone) freshWorld = Panic w /\
             trace w = [EvLog jobA ["terminating job A; unable to find kubernetes job"];
                        EvSetStatus jobA status.JobUnexpectedError]).
Proof.
  split; [reflexivity|].
  split; eexists; (split; [vm_compute; reflexivity|reflexivity]).
Qed.

(** * Facts about whole passes *)

Lemma emitsAt_added {A} P (m : M A) w :
  emitsAt P m w -> Forall P (added w (m w)).
Proof.
  intros (evs & Htr & Hall). unfold added. rewrite Htr.
  by rewrite drop_app_length.
Qed.

Lemma bind_Ret_inv {A B} (m : M A) (f : A -> M B) w b w' :
  (m ≫= f) w = Ret b w' ->
  exists a w1, m w = Ret a w1 /\ f a w1 = Ret b w'.
Proof.
  rewrite bind_unfold. destruct (m w) as [a w1|w1]; [eauto|discriminate].
Qed.

Section Passes.
Context (env : Env).

Lemma deleteOrphanBatch_deletesOnly b jobID :
  emits (deletesOnly (fun _ => True)) (deleteOrphanBatch env b jobID).
Proof. unfold deleteOrphanBatch. emits_auto; cbn; auto. Qed.

Lemma deleteOrphanQueue_deletesOnly q jobID :
  emits (deletesOnly (fun id =>
           id = spec.ID (jobKeyFromQueueURL env (index (queueURLMap q) jobID))))
    (deleteOrphanQueue env q jobID).
Proof. unfold deleteOrphanQueue. emits_auto; cbn; auto. Qed.

Lemma evictCompleted_silent P inProgressJobIDSet :
  emits P (evictCompleted env inProgressJobIDSet).
Proof.
  unfold evictCompleted. emits_auto.
  apply emits_forM_. intros x _. emits_auto.
Qed.

Lemma pruneJobsToDelete_silent P inProgressJobIDSet :
  emits P (pruneJobsToDelete env inProgressJobIDSet).
Proof.
  unfold pruneJobsToDelete. emits_auto.
  apply emits_forM_. intros x _. emits_auto.
Qed.

(** The run of the driver's loop body on a job found terminal. *)
Lemma reconcileJob_terminal q b jobKey w jobState :
  ext_GetJobState env (calls w) jobKey = Ok jobState ->
  status.IsInProgress (job.Status jobState) = false ->
  reconcileJob env q b jobKey w =
    Ret tt {| _jobsToDelete := _jobsToDelete w;
              _inProgressJobSpecMap := _inProgressJobSpecMap w;
              calls := 3 + calls w;
              trace := trace w ++ [EvDeleteInProgressFile jobKey;
                                   EvDeleteRuntime jobKey] |}.
Proof.
  intros Hstate Hterminal. unfold reconcileJob. run.
  rewrite Hstate, Hterminal. cbn. by rewrite <- app_assoc.
Qed.

(** A pass writes a status for [jobKey] only while it handles [jobKey]. *)
Lemma pass_keepsStatusOf jobKey :
  (forall q b, emits (keepsStatusOf jobKey) (reconcileJob env q b jobKey)) ->
  emits (keepsStatusOf jobKey) (ManageJobResources env).
Proof.
  intros Hown. unfold ManageJobResources.
  apply emits_bind; [ops; auto with emits|]. intros [keys|err]; [|apply emits_ret].
  apply emits_bind; [apply evictCompleted_silent|]. intros _.
  apply emits_bind; [ops; auto with emits|]. intros [queues|err]; [|apply emits_ret].
  apply emits_bind; [ops; auto with emits|]. intros [jobs|err]; [|apply emits_ret].
  apply emits_bind.
  { apply emits_forM_. intros k _. destruct (decide (k = jobKey)) as [->|Hne].
    - apply Hown.
    - eapply emits_weaken; [|apply reconcileJob_about].
      intros e He code ->. cbn in He. congruence. }
  intros _. apply emits_bind; [auto with emits|]. intros orphanBatches.
  apply emits_bind.
  { apply emits_forM_. intros id _.
    eapply emits_weaken; [|apply deleteOrphanBatch_deletesOnly].
    intros e He code ->. exact He. }
  intros _. apply emits_bind; [auto with emits|]. intros orphanQueues.
  apply emits_bind.
  { apply emits_forM_. intros id _.
    eapply emits_weaken; [|apply deleteOrphanQueue_deletesOnly].
    intros e He code ->. exact He. }
  intros _. apply emits_bind; [apply pruneJobsToDelete_silent|]. intros _.
  apply emits_ret.
Qed.

End Passes.

(** C3: as long as the state store reports a terminal status for a job, a
    pass's handling of the job consists of the two deletions (in-progress
    marker, runtime resources), whose errors are dropped, and the whole
    pass writes no status for the job. *)
Theorem terminal_status_is_not_rewritten env jobKey :
  (forall n, exists jobState,
      ext_GetJobState env n jobKey = Ok jobState /\
      status.IsInProgress (job.Status jobState) = false) ->
  (forall q b w,
      (exists w', reconcileJob env q b jobKey w = Ret tt w') /\
      added w (reconcileJob env q b jobKey w) =
        [EvDeleteInProgressFile jobKey; EvDeleteRuntime jobKey]) /\
  (forall w code,
      EvSetStatus jobKey code ∉ added w (ManageJobResources env w)).
Proof.
  intros Hterminal.
  assert (forall q b w,
             reconcileJob env q b jobKey w =
               Ret tt {| _jobsToDelete := _jobsToDelete w;
                         _inProgressJobSpecMap := _inProgressJobSpecMap w;
                         calls := 3 + calls w;
                         trace := trace w ++ [EvDeleteInProgressFile jobKey;
                                              EvDeleteRuntime jobKey] |}) as Hrun.
  { intros q b w. destruct (Hterminal (calls w)) as (jobState & Hstate & Hterm).
    by eapply reconcileJob_terminal. }
  split.
  - intros q b w. rewrite Hrun. split; [eauto|].
    unfold added. cbn. by rewrite drop_app_length.
  - intros w code Hin.
    assert (emits (keepsStatusOf jobKey) (ManageJobResources env)) as Hpass.
    { apply pass_keepsStatusOf. intros q b w1. eexists. rewrite Hrun. cbn.
      split; [reflexivity|]. repeat constructor; intros c; discriminate. }
    specialize (Hpass w). apply emitsAt_added in Hpass.
    rewrite Forall_forall in Hpass.
    by apply (Hpass (EvSetStatus jobKey code)) with code.
Qed.

Lemma terminal_status_is_not_rewritten_witness :
  (forall q b w,
      (exists w', reconcileJob (scenarioEnv terminalLeftover) q b jobA w = Ret tt w') /\
      added w (reconcileJob (scenarioEnv terminalLeftover) q b jobA w) =
        [EvDeleteInProgressFile jobA; EvDeleteRuntime jobA]) /\
  (forall w code,
      EvSetStatus jobA code ∉ added w (ManageJobResources (scenarioEnv terminalLeftover) w)).
Proof.
  apply (terminal_status_is_not_rewritten (scenarioEnv terminalLeftover) jobA).
  intros n. exists succeededA. split; reflexivity.
Defined.

(** * The deferred-delete set after a pass *)

Lemma elem_of_inProgressIDs (keys : list spec.JobKey) (id : string) :
  id ∈ inProgressIDs keys <-> exists jobKey, jobKey ∈ keys /\ spec.ID jobKey = id.
Proof.
  unfold inProgressIDs.
  assert (forall (acc : gset string),
             id ∈ foldl (fun ids jobKey => {[spec.ID jobKey]} ∪ ids) acc keys <->
             id ∈ acc \/ exists jobKey, jobKey ∈ keys /\ spec.ID jobKey = id) as Hgen.
  { induction keys as [|k keys IH]; intros acc; cbn.
    - split; [auto|]. intros [H|(k & Hk & _)]; [done|]. by apply elem_of_nil in Hk.
    - rewrite IH, elem_of_union, elem_of_singleton. split.
      + intros [[->|H]|(k' & Hk' & Hid)]; [right|left|right].
        * exists k. split; [by left|done].
        * done.
        * exists k'. split; [by right|done].
      + intros [H|(k' & Hk' & Hid)]; [by left; right|].
        apply elem_of_cons in Hk' as [->|Hk']; [by left; left|].
        right. by exists k'. }
  rewrite Hgen. split; [|by right]. intros [H|H]; [|done].
  by apply elem_of_empty in H.
Qed.

Section Prune.
Context (env : Env).

Lemma prune_loop (inProgressJobIDSet : gset string) (jobIDs : list string) w w' :
  forM_ jobIDs (fun jobID =>
      if decide (jobID ∈ inProgressJobIDSet) then mret tt
      else jobsToDelete_Remove jobID) w = Ret tt w' ->
  forall id, id ∈ _jobsToDelete w' ->
    id ∈ _jobsToDelete w /\ (id ∈ jobIDs -> id ∈ inProgressJobIDSet).
Proof.
  revert w. induction jobIDs as [|jobID rest IH]; intros w Hrun id Hid; cbn in Hrun.
  - inversion Hrun; subst. split; [done|]. intros H. by apply elem_of_nil in H.
  - apply bind_Ret_inv in Hrun as ([] & w1 & Hbody & Hrest).
    destruct (IH _ Hrest id Hid) as [Hin1 Hrest_ok].
    destruct (decide (jobID ∈ inProgressJobIDSet)) as [Hhas|Hhas].
    + inversion Hbody; subst. split; [done|].
      intros [->|H]%elem_of_cons; auto.
    + run. inversion Hbody; subst; cbn in *.
      apply elem_of_difference in Hin1 as [Hin Hne].
      split; [done|]. intros [->|H]%elem_of_cons; [|auto].
      exfalso. apply Hne. by apply elem_of_singleton.
Qed.

Lemma pruneJobsToDelete_subset (inProgressJobIDSet : gset string) w w' :
  rangeFaithful env ->
  pruneJobsToDelete env inProgressJobIDSet w = Ret tt w' ->
  _jobsToDelete w' ⊆ inProgressJobIDSet.
Proof.
  intros Hrange Hrun. unfold pruneJobsToDelete in Hrun.
  apply bind_Ret_inv in Hrun as (toDelete & w1 & Hget & Hrun).
  apply bind_Ret_inv in Hrun as (jobIDs & w2 & Hkeys & Hrun).
  run. inversion Hget; subst. inversion Hkeys; subst. clear Hget Hkeys.
  intros id Hid.
  destruct (prune_loop _ _ _ _ Hrun id Hid) as [Hin Hok].
  apply Hok. rewrite (Hrange _ _). by apply elem_of_elements.
Qed.

Lemma ManageJobResources_ends_with_prune w w' keys :
  loadedInProgress env w = Ok keys ->
  ManageJobResources env w = Ret None w' ->
  exists w1, pruneJobsToDelete env (inProgressIDs keys) w1 = Ret tt w'.
Proof.
  intros Hkeys Hrun. unfold ManageJobResources in Hrun.
  apply bind_Ret_inv in Hrun as (r & w1 & Hcall & Hrun).
  assert (r = Ok keys) as -> by (run; inversion Hcall; subst; exact Hkeys).
  apply bind_Ret_inv in Hrun as (_ & w2 & _ & Hrun).
  apply bind_Ret_inv in Hrun as ([queues|err] & w3 & _ & Hrun); [|discriminate].
  apply bind_Ret_inv in Hrun as ([jobs|err] & w4 & _ & Hrun); [|discriminate].
  apply bind_Ret_inv in Hrun as (_ & w5 & _ & Hrun).
  apply bind_Ret_inv in Hrun as (orphanBatches & w6 & _ & Hrun).
  apply bind_Ret_inv in Hrun as (_ & w7 & _ & Hrun).
  apply bind_Ret_inv in Hrun as (orphanQueues & w8 & _ & Hrun).
  apply bind_Ret_inv in Hrun as (_ & w9 & _ & Hrun).
  apply bind_Ret_inv in Hrun as ([] & w10 & Hprune & Hret).
  inversion Hret; subst. eauto.
Qed.

End Prune.

(** C4: when a pass has run to its end, every ID left in DeferredDelete is
    the ID of a job key of the InProgress listing the pass loaded at its
    start. *)
Theorem deferred_delete_within_in_progress_after_pass env w w' keys :
  rangeFaithful env ->
  loadedInProgress env w = Ok keys ->
  ManageJobResources env w = Ret None w' ->
  _jobsToDelete w' ⊆ inProgressIDs keys /\
  forall id, id ∈ _jobsToDelete w' ->
    exists jobKey, jobKey ∈ keys /\ spec.ID jobKey = id.
Proof.
  intros Hrange Hkeys Hrun.
  destruct (ManageJobResources_ends_with_prune _ _ _ _ Hkeys Hrun) as (w1 & Hprune).
  pose proof (pruneJobsToDelete_subset _ _ _ _ Hrange Hprune) as Hsub.
  split; [exact Hsub|].
  intros id Hid. apply elem_of_inProgressIDs. by apply Hsub.
Qed.

Lemma scenarioEnv_rangeFaithful sc : rangeFaithful (scenarioEnv sc).
Proof. intros n keys. reflexivity. Qed.

Lemma deferred_delete_within_in_progress_after_pass_witness :
  let w' := world_of (ManageJobResources (scenarioEnv metricsLag) staleWorld) in
  (ManageJobResources (scenarioEnv metricsLag) staleWorld = Ret None w' /\
   elements (_jobsToDelete w') = ["A"]) /\
  (_jobsToDelete w' ⊆ inProgressIDs [jobA] /\
   forall id, id ∈ _jobsToDelete w' ->
     exists jobKey, jobKey ∈ [jobA] /\ spec.ID jobKey = id).
Proof.
  cbv zeta. split; [split; vm_compute; reflexivity|].
  apply (deferred_delete_within_in_progress_after_pass (scenarioEnv metricsLag)
           staleWorld _ [jobA]).
  - apply scenarioEnv_rangeFaithful.
  - reflexivity.
  - vm_compute. reflexivity.
Defined.

(** * The world-views and the loops of a pass *)

Lemma added_elem {A} (w w1 w2 : World) (o : Outcome A) e evs :
  trace w `prefix_of` trace w1 ->
  trace w2 = trace w1 ++ evs ->
  e ∈ evs ->
  trace w2 `prefix_of` trace (world_of o) ->
  e ∈ added w o.
Proof.
  intros [a Ha] Hevs He [c Hc]. unfold added.
  rewrite Hc, Hevs, Ha, <- !app_assoc, drop_app_length.
  rewrite !elem_of_app. auto.
Qed.

Lemma emitsAt_prefix {A} P (m : M A) w a w' :
  emitsAt P m w -> m w = Ret a w' -> trace w `prefix_of` trace w'.
Proof. intros (evs & Htr & _) Hm. rewrite Hm in Htr. cbn in Htr. by exists evs. Qed.

(** When a loop returns, its body has run, and returned, on every element. *)
Lemma forM__elem {A} (l : list A) (body : A -> M unit) w w' x :
  (forall y, emits (fun _ => True) (body y)) ->
  forM_ l body w = Ret tt w' ->
  x ∈ l ->
  exists w1 w2, body x w1 = Ret tt w2 /\
                trace w `prefix_of` trace w1 /\
                trace w2 `prefix_of` trace w'.
Proof.
  intros Hmono. revert w.
  induction l as [|y l IH]; intros w Hrun Hx; [by apply elem_of_nil in Hx|].
  cbn in Hrun. apply bind_Ret_inv in Hrun as ([] & wy & Hy & Hrest).
  apply elem_of_cons in Hx as [->|Hx].
  - exists w, wy. split; [done|]. split; [done|].
    eapply (emitsAt_prefix _ (forM_ l body)); [|exact Hrest].
    apply emits_forM_. intros z _. apply Hmono.
  - destruct (IH _ Hrest Hx) as (w1 & w2 & Hbody & Hpre & Hpost).
    exists w1, w2. split; [done|]. split; [|done].
    etrans; [|exact Hpre]. eapply emitsAt_prefix; [apply Hmono|exact Hy].
Qed.

Section Views.
Context (env : Env).

(** Every pointer stored by the join leads to a batch whose jobID label is
    in [k8sJobIDSet]. *)
Lemma joinJobs_lookup_listed jobs jobID kJob :
  lookupJob (joinJobs jobs) jobID = Some kJob ->
  index (kbatch.Labels kJob) "jobID" ∈ k8sJobIDSet (joinJobs jobs).
Proof.
  unfold joinJobs, lookupJob.
  set (Inv := fun b : BatchView => forall a j,
         heap b !! a = Some j -> index (kbatch.Labels j) "jobID" ∈ k8sJobIDSet b).
  assert (forall b, Inv b -> Inv (foldl (joinJob addr_kJob) b jobs)) as Hfold.
  { induction jobs as [|elem jobs IH]; intros b Hb; [done|]. cbn. apply IH.
    intros a j. unfold joinJob; cbn. rewrite lookup_insert.
    destruct (decide (addr_kJob = a)) as [_|_].
    - intros [= <-]. apply elem_of_union_l. by apply elem_of_singleton.
    - intros Hj. apply elem_of_union_r. by eapply Hb. }
  intros Hlook.
  destruct (k8sJobMap _ !! jobID) as [a|] eqn:Ha; [|discriminate]. cbn in Hlook.
  eapply Hfold; [|exact Hlook]. intros a' j. cbn. by rewrite lookup_empty.
Qed.

(** The queue join maps every ID of [queueJobIDSet] to a URL whose job key
    has that ID. *)
Lemma joinQueues_key_ID queues jobID :
  jobID ∈ queueJobIDSet (joinQueues env queues) ->
  spec.ID (jobKeyFromQueueURL env (index (queueURLMap (joinQueues env queues)) jobID))
    = jobID.
Proof.
  unfold joinQueues.
  set (Inv := fun q : QueueView => forall id, id ∈ queueJobIDSet q ->
         spec.ID (jobKeyFromQueueURL env (index (queueURLMap q) id)) = id).
  assert (forall q, Inv q -> Inv (foldl (addQueue env) q queues)) as Hfold.
  { induction queues as [|queueURL queues IH]; intros q Hq; [done|]. cbn. apply IH.
    intros id. unfold addQueue, index; cbn. rewrite lookup_insert.
    destruct (decide (spec.ID (jobKeyFromQueueURL env queueURL) = id)) as [Heq|Hne].
    - intros _. exact Heq.
    - intros [Hin|Hin]%elem_of_union; [|by apply Hq].
      apply elem_of_singleton in Hin. congruence. }
  apply Hfold. intros id Hid. by apply elem_of_empty in Hid.
Qed.

Lemma deleteOrphanBatch_listed jobs jobID :
  emits (deletesOnly (fun id => id ∈ k8sJobIDSet (joinJobs jobs)))
    (deleteOrphanBatch env (joinJobs jobs) jobID).
Proof.
  unfold deleteOrphanBatch.
  destruct (lookupJob (joinJobs jobs) jobID) as [kJob|] eqn:Hlook; [|apply emits_panic].
  emits_auto; cbn; auto. by eapply joinJobs_lookup_listed.
Qed.

(** The cache eviction makes no external call and has no outside effect. *)
Lemma evictCompleted_run inProgressJobIDSet w :
  exists cache,
    evictCompleted env inProgressJobIDSet w =
      Ret tt {| _jobsToDelete := _jobsToDelete w;
                _inProgressJobSpecMap := cache;
                calls := calls w;
                trace := trace w |}.
Proof.
  unfold evictCompleted. run.
  generalize (ext_rangeOrder env (calls w) (elements (dom (_inProgressJobSpecMap w)))).
  intros jobIDs. destruct w as [toDelete cache n tr]. cbn.
  revert cache. induction jobIDs as [|jobID rest IH]; intros cache; cbn.
  - eauto.
  - destruct (decide (jobID ∈ inProgressJobIDSet)); cbn; apply IH.
Qed.

(** After its three listings a pass runs [passLoops] on the views built
    from them, from a world with the same trace. *)
Lemma ManageJobResources_loaded w keys queues jobs :
  loadedInProgress env w = Ok keys ->
  loadedQueues env w = Ok queues ->
  loadedBatches env w = Ok jobs ->
  exists w0, trace w0 = trace w /\
    ManageJobResources env w =
      passLoops env keys (joinQueues env queues) (joinJobs jobs) w0.
Proof.
  unfold loadedInProgress, loadedQueues, loadedBatches. intros Hkeys Hqueues Hjobs.
  unfold ManageJobResources.
  erewrite bind_Ret; [|reflexivity]. cbn [calls]. rewrite Hkeys.
  destruct (evictCompleted_run (inProgressIDs keys)
              {| _jobsToDelete := _jobsToDelete w;
                 _inProgressJobSpecMap := _inProgressJobSpecMap w;
                 calls := S (calls w);
                 trace := trace w |}) as (cache & Hevict).
  erewrite bind_Ret; [|exact Hevict].
  erewrite bind_Ret; [|reflexivity]. cbn [calls]. rewrite Hqueues.
  erewrite bind_Ret; [|reflexivity]. cbn [calls]. rewrite Hjobs.
  eexists. split; [|reflexivity]. reflexivity.
Qed.

End Views.

(** * Garbage collection of orphan queues *)

Lemma added_same_trace {A} (w w0 : World) (o : Outcome A) :
  trace w0 = trace w -> added w o = added w0 o.
Proof. unfold added. by intros ->. Qed.

Lemma queueCreatedTimestamp_unreadable r :
  creationUnreadable r -> queueCreatedTimestamp (attributesOf r) = time.zero.
Proof.
  unfold queueCreatedTimestamp. destruct r as [attributes|err]; cbn.
  - intros [Habsent|Hparse].
    + unfold index. rewrite Habsent. reflexivity.
    + by rewrite Hparse.
  - intros _. reflexivity.
Qed.

(** Any instant from the Unix epoch on is out of the grace period of the
    zero instant: the difference saturates at the largest duration. *)
Lemma zero_time_is_old (now : time.Time) :
  time.Unix 0 <= now ->
  _doesQueueExistGracePeriod < time.Sub now time.zero.
Proof.
  intros Hnow.
  assert (time.Unix 0 = 0) as Hepoch by reflexivity.
  assert (time.zero = -62135596800000000000) as Hzero by reflexivity.
  assert (time.minDuration = -9223372036854775808) as Hmin by reflexivity.
  assert (time.maxDuration = 9223372036854775807) as Hmax by reflexivity.
  assert (_doesQueueExistGracePeriod = 30000000000) as Hgrace by reflexivity.
  unfold time.Sub. rewrite Hepoch in Hnow. rewrite Hzero, Hmin, Hmax, Hgrace.
  destruct (Z.ltb_spec (now - -62135596800000000000) (-9223372036854775808));
    [lia|].
  destruct (Z.ltb_spec 9223372036854775807 (now - -62135596800000000000)); lia.
Qed.

Section OrphanQueues.
Context (env : Env).

Lemma deleteOrphanQueue_old q jobID w :
  _doesQueueExistGracePeriod <
    time.Sub (ext_Now env (S (calls w)))
      (queueCreatedTimestamp
         (attributesOf (ext_GetAllQueueAttributes env (calls w)
                          (index (queueURLMap q) jobID)))) ->
  exists w' evs,
    deleteOrphanQueue env q jobID w = Ret tt w' /\
    trace w' = trace w ++ evs /\
    EvDeleteRuntime (jobKeyFromQueueURL env (index (queueURLMap q) jobID)) ∈ evs.
Proof.
  intros Hold. unfold deleteOrphanQueue. run.
  destruct (ext_GetAllQueueAttributes env (calls w) _) as [attributes|err];
    cbn in *.
  - destruct (_ <=? _) eqn:Hle; [apply Z.leb_le in Hle; lia|].
    destruct (ext_deleteJobRuntimeResources env _ _); cbn;
      do 2 eexists; (split; [reflexivity|]); cbn;
      rewrite <- ?app_assoc; (split; [reflexivity|]); set_solver.
  - destruct (_ <=? _) eqn:Hle; [apply Z.leb_le in Hle; lia|].
    destruct (ext_deleteJobRuntimeResources env _ _); cbn;
      do 2 eexists; (split; [reflexivity|]); cbn;
      rewrite <- ?app_assoc; (split; [reflexivity|]); set_solver.
Qed.

Lemma deleteOrphanQueue_recent q jobID w attributes :
  ext_GetAllQueueAttributes env (calls w) (index (queueURLMap q) jobID)
    = Ok attributes ->
  time.Sub (ext_Now env (S (calls w))) (queueCreatedTimestamp attributes)
    <= _doesQueueExistGracePeriod ->
  deleteOrphanQueue env q jobID w =
    Ret tt {| _jobsToDelete := _jobsToDelete w;
              _inProgressJobSpecMap := _inProgressJobSpecMap w;
              calls := 2 + calls w;
              trace := trace w |}.
Proof.
  intros Hattr Hrecent. unfold deleteOrphanQueue. run. rewrite Hattr. cbn.
  apply Z.leb_le in Hrecent. by rewrite Hrecent.
Qed.

Lemma reconcileJob_monotone q b jobKey :
  emits (fun _ => True) (reconcileJob env q b jobKey).
Proof. eapply emits_weaken; [|apply reconcileJob_about]. done. Qed.

Lemma deleteOrphanBatch_monotone b jobID :
  emits (fun _ => True) (deleteOrphanBatch env b jobID).
Proof. eapply emits_weaken; [|apply deleteOrphanBatch_deletesOnly]. done. Qed.

Lemma deleteOrphanQueue_monotone q jobID :
  emits (fun _ => True) (deleteOrphanQueue env q jobID).
Proof. eapply emits_weaken; [|apply deleteOrphanQueue_deletesOnly]. done. Qed.

Context (w : World) (keys : list spec.JobKey) (queues : list string)
  (jobs : list kbatch.Job) (jobID : string).
Context (Hrange : rangeFaithful env).
Context (Hkeys : loadedInProgress env w = Ok keys).
Context (Hqueues : loadedQueues env w = Ok queues).
Context (Hjobs : loadedBatches env w = Ok jobs).
Context (Hqueue : jobID ∈ queueJobIDSet (joinQueues env queues)).
Context (Hnobatch : jobID ∉ k8sJobIDSet (joinJobs jobs)).
Context (Hidle : jobID ∉ inProgressIDs keys).

Let queueURL := index (queueURLMap (joinQueues env queues)) jobID.

(** A completed pass deletes the runtime resources of an orphan queue that
    is out of its grace period at every reading of the clock. *)
Lemma orphan_queue_old_deleted w' :
  (forall n m, _doesQueueExistGracePeriod <
     time.Sub (ext_Now env m)
       (queueCreatedTimestamp (attributesOf (ext_GetAllQueueAttributes env n queueURL)))) ->
  ManageJobResources env w = Ret None w' ->
  EvDeleteRuntime (jobKeyFromQueueURL env queueURL) ∈ added w (ManageJobResources env w).
Proof.
  intros Hold Hrun.
  destruct (ManageJobResources_loaded env w keys queues jobs Hkeys Hqueues Hjobs)
    as (w0 & Htrace & Hpass).
  rewrite Hpass in Hrun |- *. unfold passLoops in Hrun.
  apply bind_Ret_inv in Hrun as ([] & w1 & H1 & Hrun).
  apply bind_Ret_inv in Hrun as (orphanBatches & w2 & H2 & Hrun).
  apply bind_Ret_inv in Hrun as ([] & w3 & H3 & Hrun).
  apply bind_Ret_inv in Hrun as (orphanQueues & w4 & H4 & Hrun).
  apply bind_Ret_inv in Hrun as ([] & w5 & H5 & Hrun).
  apply bind_Ret_inv in Hrun as ([] & w6 & H6 & Hrun).
  inversion Hrun; subst w6. clear Hrun.
  assert (jobID ∈ orphanQueues) as Hin.
  { unfold rangeKeys in H4. inversion H4.
    rewrite (Hrange _ _). apply elem_of_elements. set_solver. }
  assert (w2 = w1) as -> by (unfold rangeKeys in H2; by inversion H2).
  assert (w4 = w3) as -> by (unfold rangeKeys in H4; by inversion H4).
  destruct (forM__elem _ _ _ _ _ (deleteOrphanQueue_monotone _) H5 Hin)
    as (wa & wb & Hbody & Hpre & Hpost).
  destruct (deleteOrphanQueue_old (joinQueues env queues) jobID wa (Hold _ _))
    as (wb' & evs & Hbody' & Hevs & Hdel).
  rewrite Hbody in Hbody'. inversion Hbody'; subst wb'.
  eapply (added_elem w wa wb); [|exact Hevs|exact Hdel|].
  - rewrite <- Htrace. etrans; [|exact Hpre].
    etrans; [eapply emitsAt_prefix; [|exact H1]|
             eapply emitsAt_prefix; [|exact H3]].
    + apply emits_forM_. intros. apply reconcileJob_monotone.
    + apply emits_forM_. intros. apply deleteOrphanBatch_monotone.
  - etrans; [exact Hpost|].
    assert (passLoops env keys (joinQueues env queues) (joinJobs jobs) w0 = Ret None w')
      as Hall.
    { unfold passLoops. erewrite bind_Ret; [|exact H1].
      erewrite bind_Ret; [|exact H2]. erewrite bind_Ret; [|exact H3].
      erewrite bind_Ret; [|exact H4]. erewrite bind_Ret; [|exact H5].
      erewrite bind_Ret; [|exact H6]. reflexivity. }
    rewrite Hall. cbn.
    eapply emitsAt_prefix; [|exact H6].
    apply (pruneJobsToDelete_silent env (fun _ => True)).
Qed.

(** No pass, completed or not, deletes the runtime resources of an orphan
    queue that is within its grace period at every reading of the clock. *)
Lemma orphan_queue_recent_spared attributes :
  (forall n, ext_GetAllQueueAttributes env n queueURL = Ok attributes) ->
  (forall n, time.Sub (ext_Now env n) (queueCreatedTimestamp attributes)
               <= _doesQueueExistGracePeriod) ->
  Forall (sparesRuntimeOf jobID) (added w (ManageJobResources env w)).
Proof.
  intros Hattr Hrecent.
  destruct (ManageJobResources_loaded env w keys queues jobs Hkeys Hqueues Hjobs)
    as (w0 & Htrace & Hpass).
  rewrite Hpass, (added_same_trace w w0) by done.
  apply emitsAt_added. unfold passLoops.
  apply emitsAt_bind.
  { apply emits_forM_. intros k Hk.
    eapply emits_weaken; [|apply reconcileJob_about].
    intros e He jobKey Hid ->. cbn in He. subst k.
    apply Hidle, elem_of_inProgressIDs. eauto. }
  intros [] w1 _. apply emitsAt_bind; [apply emits_rangeKeys|].
  intros orphanBatches w2 _. apply emitsAt_bind.
  { apply emits_forM_. intros id _.
    eapply emits_weaken; [|apply deleteOrphanBatch_listed].
    intros e He jobKey Hid ->. cbn in He. congruence. }
  intros [] w3 _. apply emitsAt_bind; [apply emits_rangeKeys|].
  intros orphanQueues w4 Hkeys4. inversion Hkeys4; subst. clear Hkeys4.
  apply emitsAt_bind.
  { apply emits_forM_. intros id Hid.
    rewrite (Hrange _ _) in Hid. apply elem_of_elements in Hid.
    assert (id ∈ queueJobIDSet (joinQueues env queues)) as Hlisted.
    { apply elem_of_difference in Hid as [Hid _].
      by apply elem_of_difference in Hid as [Hid _]. }
    destruct (decide (id = jobID)) as [->|Hne].
    - intros wa. exists []. rewrite (deleteOrphanQueue_recent _ _ _ attributes);
        [|apply Hattr|apply Hrecent]. cbn. by rewrite app_nil_r.
    - eapply emits_weaken; [|apply deleteOrphanQueue_deletesOnly].
      intros e He jobKey Hid' ->. cbn in He.
      rewrite joinQueues_key_ID in He by done. congruence. }
  intros [] w5 _. apply emitsAt_bind; [apply pruneJobsToDelete_silent|].
  intros [] w6 _. apply emits_ret.
Qed.

End OrphanQueues.

(** X25: let a queue ID be in Queues and in neither Batches nor
    InProgress, the three views being those the pass loads, and let the
    queue's CreatedTimestamp attribute parse to [seconds].  If the queue is
    older than the grace period at every reading of the clock, a pass that
    runs to its end deletes the runtime resources of the queue's job key,
    whose ID is the queue ID; if it is within the grace period at every
    reading of the clock, the pass, however it ends, deletes the runtime
    resources of no job with that ID. *)
Theorem orphan_queue_deleted_only_past_grace_period env w keys queues jobs jobID
    attributes seconds :
  rangeFaithful env ->
  loadedInProgress env w = Ok keys ->
  loadedQueues env w = Ok queues ->
  loadedBatches env w = Ok jobs ->
  jobID ∈ queueJobIDSet (joinQueues env queues) ->
  jobID ∉ k8sJobIDSet (joinJobs jobs) ->
  jobID ∉ inProgressIDs keys ->
  let queueURL := index (queueURLMap (joinQueues env queues)) jobID in
  (forall n, ext_GetAllQueueAttributes env n queueURL = Ok attributes) ->
  ParseInt64 (index attributes "CreatedTimestamp") = Some seconds ->
  spec.ID (jobKeyFromQueueURL env queueURL) = jobID /\
  ((forall n, _doesQueueExistGracePeriod
                < time.Sub (ext_Now env n) (time.Unix seconds)) ->
   forall w', ManageJobResources env w = Ret None w' ->
     EvDeleteRuntime (jobKeyFromQueueURL env queueURL)
       ∈ added w (ManageJobResources env w)) /\
  ((forall n, time.Sub (ext_Now env n) (time.Unix seconds)
                <= _doesQueueExistGracePeriod) ->
   Forall (sparesRuntimeOf jobID) (added w (ManageJobResources env w))).
Proof.
  intros Hrange Hkeys Hqueues Hjobs Hqueue Hnobatch Hidle queueURL Hattr Hparse.
  assert (queueCreatedTimestamp attributes = time.Unix seconds) as Hcreated
    by (unfold queueCreatedTimestamp; by rewrite Hparse).
  split; [by apply joinQueues_key_ID|]. split.
  - intros Hold w' Hrun.
    eapply orphan_queue_old_deleted; eauto.
    intros n m. rewrite Hattr. cbn. rewrite Hcreated. apply Hold.
  - intros Hrecent.
    eapply orphan_queue_recent_spared; eauto.
    intros n. rewrite Hcreated. apply Hrecent.
Qed.

Lemma orphan_queue_deleted_only_past_grace_period_witness :
  (ManageJobResources (scenarioEnv orphanQueueOld) freshWorld
     = Ret None (world_of (ManageJobResources (scenarioEnv orphanQueueOld) freshWorld)) /\
   EvDeleteRuntime jobQ
     ∈ added freshWorld (ManageJobResources (scenarioEnv orphanQueueOld) freshWorld)) /\
  Forall (sparesRuntimeOf "Q")
    (added freshWorld (ManageJobResources (scenarioEnv orphanQueueRecent) freshWorld)).
Proof.
  assert ("Q" ∈ queueJobIDSet (joinQueues (scenarioEnv orphanQueueOld) ["sqs/Q"]))
    as Hqueue by compute_done.
  assert ("Q" ∉ k8sJobIDSet (joinJobs [])) as Hnobatch by compute_done.
  assert ("Q" ∉ inProgressIDs []) as Hidle by compute_done.
  split; [split; [vm_compute; reflexivity|]|].
  - refine (proj1 (proj2 (orphan_queue_deleted_only_past_grace_period
        (scenarioEnv orphanQueueOld) freshWorld [] ["sqs/Q"] [] "Q"
        {[ "CreatedTimestamp" := "1599999955" ]} 1599999955
        (scenarioEnv_rangeFaithful _) eq_refl eq_refl eq_refl
        Hqueue Hnobatch Hidle (fun _ => eq_refl) eq_refl)) _ _ _).
    + intros n. vm_compute. reflexivity.
    + vm_compute. reflexivity.
  - refine (proj2 (proj2 (orphan_queue_deleted_only_past_grace_period
        (scenarioEnv orphanQueueRecent) freshWorld [] ["sqs/Q"] [] "Q"
        {[ "CreatedTimestamp" := "1599999990" ]} 1599999990
        (scenarioEnv_rangeFaithful _) eq_refl eq_refl eq_refl
        Hqueue Hnobatch Hidle (fun _ => eq_refl) eq_refl)) _).
    intros n. vm_compute. discriminate.
Defined.

(** C8: the pass over job A, Running for five seconds with its queue
    listed and its batch not listed yet, and over the queue of job Q, which
    is in Queues and in neither Batches nor InProgress and is older than
    the grace period at every reading of the clock: the pass panics in the
    handling of job A, before its garbage collection, without any outside
    effect; the runtime resources of job Q are not deleted. *)
Theorem old_orphan_queue_outlives_a_panicking_pass :
  let env := scenarioEnv orphanBehindMissingBatch in
  let q := joinQueues env (sc_queues orphanBehindMissingBatch) in
  let b := joinJobs (sc_jobs orphanBehindMissingBatch) in
  loadedInProgress env freshWorld = Ok (sc_keys orphanBehindMissingBatch) /\
  loadedQueues env freshWorld = Ok (sc_queues orphanBehindMissingBatch) /\
  loadedBatches env freshWorld = Ok (sc_jobs orphanBehindMissingBatch) /\
  "Q" ∈ queueJobIDSet q ∖ k8sJobIDSet b
          ∖ inProgressIDs (sc_keys orphanBehindMissingBatch) /\
  jobKeyFromQueueURL env (index (queueURLMap q) "Q") = jobQ /\
  (forall n,
      _doesQueueExistGracePeriod
        < time.Sub (ext_Now env n)
            (queueCreatedTimestamp
               (attributesOf
                  (ext_GetAllQueueAttributes env n (index (queueURLMap q) "Q"))))) /\
  lookupJob b (spec.ID jobA) = None /\
  exists w, ManageJobResources env freshWorld = Panic w /\
            trace w = [] /\
            EvDeleteRuntime jobQ ∉ added freshWorld (ManageJobResources env freshWorld).
Proof.
  cbv zeta. split; [reflexivity|]. split; [reflexivity|]. split; [reflexivity|].
  split; [compute_done|]. split; [vm_compute; reflexivity|].
  split; [intros n; vm_compute; reflexivity|]. split; [vm_compute; reflexivity|].
  eexists. split; [vm_compute; reflexivity|]. split; [reflexivity|].
  intros Hin. vm_compute in Hin. by apply elem_of_nil in Hin.
Qed.

(** C10: let a queue ID be in Queues and in neither Batches nor
    InProgress.  If the fetch of the queue's attributes fails, or the
    CreatedTimestamp attribute is absent or does not parse, the creation
    time the loop works with is the zero instant; with a clock that never
    reads before the Unix epoch the queue is then older than the grace
    period, and a pass that runs to its end deletes the runtime resources
    of the queue's job key. *)
Theorem unreadable_creation_time_counts_as_old env w keys queues jobs jobID r :
  rangeFaithful env ->
  loadedInProgress env w = Ok keys ->
  loadedQueues env w = Ok queues ->
  loadedBatches env w = Ok jobs ->
  jobID ∈ queueJobIDSet (joinQueues env queues) ->
  jobID ∉ k8sJobIDSet (joinJobs jobs) ->
  jobID ∉ inProgressIDs keys ->
  let queueURL := index (queueURLMap (joinQueues env queues)) jobID in
  (forall n, ext_GetAllQueueAttributes env n queueURL = r) ->
  creationUnreadable r ->
  (forall n, time.Unix 0 <= ext_Now env n) ->
  queueCreatedTimestamp (attributesOf r) = time.zero /\
  (forall n, _doesQueueExistGracePeriod < time.Sub (ext_Now env n) time.zero) /\
  (forall w', ManageJobResources env w = Ret None w' ->
     EvDeleteRuntime (jobKeyFromQueueURL env queueURL)
       ∈ added w (ManageJobResources env w)).
Proof.
  intros Hrange Hkeys Hqueues Hjobs Hqueue Hnobatch Hidle queueURL Hattr Hbad Hclock.
  pose proof (queueCreatedTimestamp_unreadable r Hbad) as Hzero.
  split; [exact Hzero|]. split.
  - intros n. by apply zero_time_is_old.
  - intros w' Hrun. eapply orphan_queue_old_deleted; eauto.
    intros n m. rewrite Hattr, Hzero. by apply zero_time_is_old.
Qed.

Lemma unreadable_creation_time_counts_as_old_witness :
  (creationUnreadable (Err "AccessDenied") /\
   ManageJobResources (scenarioEnv orphanQueueUnreadable) freshWorld
     = Ret None (world_of (ManageJobResources (scenarioEnv orphanQueueUnreadable)
                             freshWorld))) /\
  (queueCreatedTimestamp (attributesOf (Err "AccessDenied")) = time.zero /\
   (forall n, _doesQueueExistGracePeriod
                < time.Sub (ext_Now (scenarioEnv orphanQueueUnreadable) n) time.zero) /\
   (forall w', ManageJobResources (scenarioEnv orphanQueueUnreadable) freshWorld
                 = Ret None w' ->
      EvDeleteRuntime jobQ
        ∈ added freshWorld
            (ManageJobResources (scenarioEnv orphanQueueUnreadable) freshWorld))).
Proof.
  split; [split; [exact I|vm_compute; reflexivity]|].
  apply (unreadable_creation_time_counts_as_old
           (scenarioEnv orphanQueueUnreadable) freshWorld [] ["sqs/Q"] [] "Q"
           (Err "AccessDenied") (scenarioEnv_rangeFaithful _) eq_refl eq_refl eq_refl).
  - compute_done.
  - compute_done.
  - compute_done.
  - intros n. reflexivity.
  - exact I.
  - intros n. vm_compute. discriminate.
Defined.

(** * A missing queue past the grace period *)

(** C6, as amended: for a Running job whose queue is not listed, with more
    than the grace period elapsed since it was enqueued and an expected
    queue URL at hand, the pass's handling of the job writes the "queue
    not found" line and then persists UnexpectedError (reporting a failure
    of either write), and deletes nothing: the runtime resources are
    deleted, with the in-progress marker, by the handling of a later pass
    that finds the job with its terminal status. *)
Theorem missing_queue_sets_error_and_defers_cleanup env q b jobKey w jobState
    expectedQueueURL :
  ext_GetJobState env (calls w) jobKey = Ok jobState ->
  job.Status jobState = status.JobRunning ->
  spec.ID jobKey ∉ queueJobIDSet q ->
  _doesQueueExistGracePeriod <
    time.Sub (ext_Now env (S (calls w)))
      (time.index (job.LastUpdatedMap jobState)
         (JobCode_String env status.JobEnqueuing)) ->
  ext_getJobQueueURL env (S (S (calls w))) (job.JobKey jobState)
    = Ok expectedQueueURL ->
  let o := reconcileJob env q b jobKey w in
  (exists w', o = Ret tt w') /\
  (exists reports,
      added w o =
        [EvLog jobKey [queueNotFoundLine env (job.JobKey jobState) expectedQueueURL];
         EvSetStatus jobKey status.JobUnexpectedError] ++ reports /\
      Forall isReport reports) /\
  (EvDeleteRuntime jobKey ∉ added w o) /\
  (forall w2 later,
      ext_GetJobState env (calls w2) jobKey = Ok later ->
      job.Status later = status.JobUnexpectedError ->
      added w2 (reconcileJob env q b jobKey w2) =
        [EvDeleteInProgressFile jobKey; EvDeleteRuntime jobKey]).
Proof.
  intros Hstate Hrunning Hqueue Hold Hurl o.
  assert (exists w' reports,
             o = Ret tt w' /\
             trace w' = trace w ++
               [EvLog jobKey [queueNotFoundLine env (job.JobKey jobState) expectedQueueURL];
                EvSetStatus jobKey status.JobUnexpectedError] ++ reports /\
             Forall isReport reports) as (w' & reports & Ho & Htrace & Hreports).
  { subst o. unfold reconcileJob, reconcileInProgressJob. run.
    rewrite Hstate. cbn. rewrite Hrunning. cbn.
    destruct (decide (spec.ID jobKey ∈ queueJobIDSet q)) as [|_]; [done|]. cbn.
    destruct (_ <=? _) eqn:Hle; [apply Z.leb_le in Hle; lia|]. cbn.
    rewrite Hurl. cbn.
    destruct (decide (status.JobUnexpectedError ≠ status.JobRunning)) as [_|Hne];
      [|by destruct Hne]. cbn.
    repeat (inner_case; cbn);
      do 2 eexists; (split; [reflexivity|]); cbn; rewrite <- ?app_assoc; cbn;
      (split; [reflexivity|]); repeat constructor; by eexists. }
  assert (added w o = [EvLog jobKey
                         [queueNotFoundLine env (job.JobKey jobState) expectedQueueURL];
                       EvSetStatus jobKey status.JobUnexpectedError] ++ reports)
    as Hadded.
  { unfold added. rewrite Ho. cbn. rewrite Htrace. by rewrite drop_app_length. }
  split; [eauto|]. split; [eauto|]. split.
  - rewrite Hadded. intros Hin. apply elem_of_app in Hin as [Hin|Hin].
    + apply elem_of_cons in Hin as [?|Hin]; [discriminate|].
      apply elem_of_cons in Hin as [?|Hin]; [discriminate|].
      by apply elem_of_nil in Hin.
    + rewrite Forall_forall in Hreports.
      destruct (Hreports _ Hin) as [err ?]. discriminate.
  - intros w2 later Hlater Hterminal.
    rewrite (reconcileJob_terminal env q b jobKey w2 later Hlater)
      by (by rewrite Hterminal).
    unfold added. cbn. by rewrite drop_app_length.
Qed.

Lemma missing_queue_sets_error_and_defers_cleanup_witness :
  let env := scenarioEnv missingQueue in
  let q := joinQueues env [] in
  let b := joinJobs [batchOf "A" 4 0 0] in
  let o := reconcileJob env q b jobA freshWorld in
  (exists w', o = Ret tt w') /\
  (exists reports,
      added freshWorld o =
        [EvLog jobA [queueNotFoundLine env jobA "sqs/A"];
         EvSetStatus jobA status.JobUnexpectedError] ++ reports /\
      Forall isReport reports) /\
  (EvDeleteRuntime jobA ∉ added freshWorld o) /\
  (forall w2 later,
      ext_GetJobState env (calls w2) jobA = Ok later ->
      job.Status later = status.JobUnexpectedError ->
      added w2 (reconcileJob env q b jobA w2) =
        [EvDeleteInProgressFile jobA; EvDeleteRuntime jobA]).
Proof.
  cbv zeta.
  apply (missing_queue_sets_error_and_defers_cleanup (scenarioEnv missingQueue)
           (joinQueues (scenarioEnv missingQueue) []) (joinJobs [batchOf "A" 4 0 0])
           jobA freshWorld queuelessA "sqs/A").
  - reflexivity.
  - reflexivity.
  - compute_done.
  - vm_compute. reflexivity.
  - reflexivity.
Defined.

(** C6, as stated, fails at the spec's own scenario: the pass writes the
    line and the status and stops there; the listed batch of the job is not
    deleted. *)
Lemma missing_queue_pass_counterexample :
  added freshWorld (ManageJobResources (scenarioEnv missingQueue) freshWorld) =
    [EvLog jobA ["terminating job A; sqs queue with url sqs/A was not found"];
     EvSetStatus jobA status.JobUnexpectedError] /\
  ~ persistsErrorAndDeletes (scenarioEnv missingQueue) freshWorld jobA.
Proof.
  assert (added freshWorld (ManageJobResources (scenarioEnv missingQueue) freshWorld) =
            [EvLog jobA ["terminating job A; sqs queue with url sqs/A was not found"];
             EvSetStatus jobA status.JobUnexpectedError]) as Hadded
    by (vm_compute; reflexivity).
  split; [exact Hadded|].
  unfold persistsErrorAndDeletes. cbv zeta. rewrite Hadded. intros [_ Hin].
  apply elem_of_cons in Hin as [?|Hin]; [discriminate|].
  apply elem_of_cons in Hin as [?|Hin]; [discriminate|].
  by apply elem_of_nil in Hin.
Qed.

(** * Log lines and status writes *)

(** ** Running a computation step by step *)

Section Cont.
Context {A B : Type}.

Lemma cont_ret sofar (Q : list Event -> Prop) (a : A) w :
  Q sofar -> cont sofar Q (mret a : M A) w.
Proof. intros HQ t Ht. exists sofar. done. Qed.

Lemma cont_panic sofar (Q : list Event -> Prop) w :
  Q sofar -> cont sofar Q (panic : M A) w.
Proof. intros HQ t Ht. exists sofar. done. Qed.

Lemma cont_bind sofar Q R (m : M A) (f : A -> M B) w :
  runs R m ->
  (forall a evs w', R a evs -> cont (sofar ++ evs) Q (f a) w') ->
  cont sofar Q (m ≫= f) w.
Proof.
  intros Hm Hf t Ht. destruct (Hm w) as (a & w' & evs & Hrun & Htr & HR).
  rewrite (bind_Ret _ _ _ _ _ Hrun).
  apply (Hf a evs w' HR t). by rewrite Htr, Ht, app_assoc.
Qed.

Lemma cont_runs sofar (Q : list Event -> Prop) R (m : M A) w :
  runs R m ->
  (forall a evs, R a evs -> Q (sofar ++ evs)) ->
  cont sofar Q m w.
Proof.
  intros Hm HQ t Ht. destruct (Hm w) as (a & w' & evs & Hrun & Htr & HR).
  exists (sofar ++ evs). rewrite Hrun. cbn. rewrite Htr, Ht, app_assoc. eauto.
Qed.

Lemma cont_ret_bind sofar Q (a : A) (f : A -> M B) w :
  cont sofar Q (f a) w -> cont sofar Q (mret a ≫= f) w.
Proof. done. Qed.

Lemma cont_panic_bind sofar (Q : list Event -> Prop) (f : A -> M B) w :
  Q sofar -> cont sofar Q (panic ≫= f) w.
Proof. intros HQ t Ht. exists sofar. done. Qed.

Lemma cont_assoc {C} sofar Q (m : M A) (f : A -> M B) (g : B -> M C) w :
  cont sofar Q (m ≫= (fun a => f a ≫= g)) w ->
  cont sofar Q ((m ≫= f) ≫= g) w.
Proof.
  intros H t Ht. destruct (H t Ht) as (evs & Htr & HQ). exists evs.
  split; [|done]. rewrite <- Htr. rewrite !bind_unfold.
  by destruct (m w).
Qed.

Lemma runs_bind R1 (R2 : A -> B -> list Event -> Prop) (R : B -> list Event -> Prop)
    (m : M A) (f : A -> M B) :
  runs R1 m ->
  (forall a, runs (R2 a) (f a)) ->
  (forall a e1 b e2, R1 a e1 -> R2 a b e2 -> R b (e1 ++ e2)) ->
  runs R (m ≫= f).
Proof.
  intros Hm Hf HR w. destruct (Hm w) as (a & w1 & e1 & Hrun1 & Htr1 & H1).
  destruct (Hf a w1) as (b & w2 & e2 & Hrun2 & Htr2 & H2).
  exists b, w2, (e1 ++ e2). rewrite (bind_Ret _ _ _ _ _ Hrun1).
  split; [done|]. split; [by rewrite Htr2, Htr1, app_assoc|eauto].
Qed.

Lemma runs_ret (a : A) : runs (fun a' evs => a' = a /\ evs = []) (mret a : M A).
Proof. intros w. exists a, w, []. cbn. by rewrite app_nil_r. Qed.

Lemma runs_call (g : nat -> A) : runs (fun _ evs => evs = []) (call g).
Proof. intros w. eexists _, _, []. cbn. by rewrite app_nil_r. Qed.

Lemma runs_act e (g : nat -> A) : runs (fun _ evs => evs = [e]) (act e g).
Proof. intros w. eexists _, _, [e]. cbn. done. Qed.

End Cont.

Lemma runs_report err : runs (fun _ evs => evs = [EvReport err]) (report err).
Proof. intros w. eexists _, _, [EvReport err]. cbn. done. Qed.

Lemma runs_getJobsToDelete : runs (fun _ evs => evs = []) getJobsToDelete.
Proof. intros w. eexists _, _, []. cbn. by rewrite app_nil_r. Qed.

Lemma runs_setJobsToDelete s : runs (fun _ evs => evs = []) (setJobsToDelete s).
Proof. intros w. eexists _, _, []. cbn. by rewrite app_nil_r. Qed.

Lemma runs_getJobSpecMap : runs (fun _ evs => evs = []) getJobSpecMap.
Proof. intros w. eexists _, _, []. cbn. by rewrite app_nil_r. Qed.

Lemma runs_setJobSpecMap m : runs (fun _ evs => evs = []) (setJobSpecMap m).
Proof. intros w. eexists _, _, []. cbn. by rewrite app_nil_r. Qed.

Lemma cont_added {A} (Q : list Event -> Prop) (m : M A) w :
  cont [] Q m w -> Q (added w (m w)).
Proof.
  intros H. destruct (H (trace w)) as (evs & Htr & HQ); [by rewrite app_nil_r|].
  unfold added. by rewrite Htr, drop_app_length.
Qed.

(** One step of a run: the first computation of the goal is executed, its
    result standing for whatever the outside world answers. *)
Ltac cont_silent lem :=
  eapply cont_bind; [apply lem|];
  let r := fresh "r" in let evs := fresh "evs" in let w' := fresh "w" in
  intros r evs w' ->; rewrite ?app_nil_r.

Ltac cont_last lem :=
  eapply cont_runs; [apply lem|];
  let r := fresh "r" in let evs := fresh "evs" in
  intros r evs ->; rewrite ?app_nil_r.

Ltac absurd_case :=
  solve [ congruence
        | exfalso; match goal with H : ¬ (_ ≠ _) |- _ => apply H; congruence end ].

Ltac cont_step :=
  lazymatch goal with
  | |- cont _ _ (mret _) _ => apply cont_ret
  | |- cont _ _ panic _ => apply cont_panic
  | |- cont _ _ (mbind _ (mbind _ _)) _ => apply cont_assoc
  | |- cont _ _ (mbind _ (mret _)) _ => apply cont_ret_bind
  | |- cont _ _ (mbind _ panic) _ => apply cont_panic_bind
  | |- cont _ _ (mbind _ (call _)) _ => cont_silent @runs_call
  | |- cont _ _ (mbind _ (act _ _)) _ => cont_silent @runs_act
  | |- cont _ _ (mbind _ (report _)) _ => cont_silent runs_report
  | |- cont _ _ (mbind _ getJobsToDelete) _ => cont_silent runs_getJobsToDelete
  | |- cont _ _ (mbind _ (setJobsToDelete _)) _ => cont_silent runs_setJobsToDelete
  | |- cont _ _ (mbind _ getJobSpecMap) _ => cont_silent runs_getJobSpecMap
  | |- cont _ _ (mbind _ (setJobSpecMap _)) _ => cont_silent runs_setJobSpecMap
  | |- cont _ _ (call _) _ => cont_last @runs_call
  | |- cont _ _ (act _ _) _ => cont_last @runs_act
  | |- cont _ _ (report _) _ => cont_last runs_report
  | |- cont _ _ (setJobsToDelete _) _ => cont_last runs_setJobsToDelete
  | |- cont _ _ (setJobSpecMap _) _ => cont_last runs_setJobSpecMap
  | |- cont _ _ ?m _ =>
      match m with
      | context [match ?x with _ => _ end] =>
          lazymatch x with
          | context [match _ with _ => _ end] => fail
          | _ => destruct x eqn:?; try absurd_case
          end
      end
  end.

Ltac cont_run := repeat (cbv beta iota zeta; cont_step).

(** ** Where a status write can sit in a list of events *)

Lemma split_nil (x : Event) pre post : [] = pre ++ x :: post -> False.
Proof. by destruct pre. Qed.

Lemma split_cons (e x : Event) l pre post :
  e :: l = pre ++ x :: post ->
  (pre = [] /\ e = x /\ l = post) \/
  (exists pre', pre = e :: pre' /\ l = pre' ++ x :: post).
Proof.
  destruct pre as [|e' pre']; cbn; intros [= -> ->]; [by left|].
  right. by exists pre'.
Qed.

Lemma split_after_lines k (L : list Event) tl pre k' code post :
  Forall (isLine k) L ->
  L ++ tl = pre ++ EvSetStatus k' code :: post ->
  exists pre2, pre = L ++ pre2 /\ tl = pre2 ++ EvSetStatus k' code :: post.
Proof.
  intros HL. revert pre. induction HL as [|e L [line ->] HL IH]; intros pre Heq.
  - by exists pre.
  - cbn in Heq. apply split_cons in Heq as [(_ & [=] & _)|(pre' & -> & Heq)].
    destruct (IH _ Heq) as (pre2 & -> & Htl). by exists pre2.
Qed.

Lemma endsWithLine_one k line : endsWithLine k [EvLog k [line]].
Proof. by exists [], line. Qed.

Lemma endsWithLine_cons k e pre : endsWithLine k pre -> endsWithLine k (e :: pre).
Proof. intros (pre' & line & ->). by exists (e :: pre'), line. Qed.

Lemma endsWithLine_app_r k A pre : endsWithLine k pre -> endsWithLine k (A ++ pre).
Proof. intros (pre' & line & ->). exists (A ++ pre'), line. by rewrite app_assoc. Qed.

Lemma lines_end_with_line k (L : list Event) :
  Forall (isLine k) L -> L <> [] -> endsWithLine k L.
Proof.
  induction 1 as [|e L [line ->] HL IH]; [done|]. intros _.
  destruct L as [|e' L']; [apply endsWithLine_one|].
  apply endsWithLine_cons, IH. done.
Qed.

Lemma logLines_lines_other k (evs : list Event) :
  Forall (fun e => forall k' lines, e <> EvLog k' lines) evs -> logLines k evs = [].
Proof.
  induction 1 as [|e evs He _ IH]; [done|]. unfold logLines in *. cbn. rewrite IH.
  destruct e; try done. by destruct (He jobKey lines).
Qed.

(** Decides, for events given one by one, that they are explained. *)
Ltac split_events Heq :=
  repeat
    (first
       [ apply split_nil in Heq; destruct Heq
       | let He := fresh "He" in
         let pre' := fresh "pre" in
         apply split_cons in Heq as [(-> & He & <-)|(pre' & -> & Heq)];
         [ first [ discriminate He
                 | injection He as <- <-; cbn;
                   first [ reflexivity
                         | by eexists _, _
                         | repeat first [ apply endsWithLine_one
                                        | apply endsWithLine_cons
                                        | apply endsWithLine_app_r ] ] ]
         | ] ]).

Ltac explained :=
  let pre := fresh "pre" in let k := fresh "k" in
  let code := fresh "code" in let post := fresh "post" in
  let Heq := fresh "Heq" in
  intros pre k code post Heq; split_events Heq.

(** ** The lines of the failure investigator *)

Section Investigator.
Context (env : Env).

Lemma investigateContainers_runs k podStatus reasonFound statuses :
  runs (fun found evs =>
          Forall (isLine k) evs /\
          (found = true -> reasonFound = true \/ evs <> []))
    (investigateContainers env k podStatus reasonFound statuses).
Proof.
  revert reasonFound.
  induction statuses as [|cs rest IH]; intros reasonFound; cbn.
  - intros w. exists reasonFound, w, []. cbn. rewrite app_nil_r. auto.
  - assert (forall t,
               runs (fun found evs =>
                       Forall (isLine k) evs /\
                       (found = true -> reasonFound = true \/ evs <> []))
                 (_ ← writeToJobLogStream env k [terminationLine env podStatus t];
                  investigateContainers env k podStatus true rest)) as Hline.
    { intros t. eapply runs_bind; [apply runs_act|intros; apply IH|].
      intros a e1 b e2 -> [Hlines _]. cbn. split.
      - constructor; [by eexists|done].
      - intros _. by right. }
    destruct (kcore.LastTerminationState_Terminated cs); [apply Hline|].
    destruct (kcore.State_Terminated cs); [apply Hline|apply IH].
Qed.

Lemma investigatePods_runs k reasonFound pods :
  runs (fun r evs =>
          match r with
          | inl _ =>
              exists L line,
                Forall (isLine k) L /\
                evs = L ++ [EvLog k [line];
                            EvSetStatus k status.JobWorkerOOM;
                            EvDeleteRuntime k]
          | inr found =>
              Forall (isLine k) evs /\
              (found = true -> reasonFound = true \/ evs <> [])
          end)
    (investigatePods env k reasonFound pods).
Proof.
  revert reasonFound.
  induction pods as [|pod rest IH]; intros reasonFound; cbn.
  - intros w. exists (inr reasonFound), w, []. cbn. rewrite app_nil_r. auto.
  - destruct (WasPodOOMKilled env pod).
    + intros w. run. eexists _, _, _. split; [reflexivity|]. cbn.
      rewrite <- !app_assoc. split; [reflexivity|]. by eexists [], _.
    + eapply runs_bind; [apply investigateContainers_runs|intros; apply IH|].
      intros found e1 r e2 [Hl1 Hf1] Hr. cbn in Hr. destruct r as [err|found'].
      * destruct Hr as (L & line & HL & ->). exists (e1 ++ L), line.
        split; [by apply Forall_app|by rewrite app_assoc].
      * destruct Hr as [Hl2 Hf2]. split; [by apply Forall_app|].
        intros Hfound. destruct (Hf2 Hfound) as [Hprev|Hne].
        -- destruct (Hf1 Hprev) as [?|Hne1]; [by left|]. right.
           by destruct e1.
        -- right. destruct e1; [done|done].
Qed.

(** The classifier, with the report of its error, explains what it
    persists. *)
Lemma checkIfJobCompleted_explained jobKey queueURL k8sJob w :
  cont [] transitionsExplained
    (checkIfJobCompleted env jobKey queueURL k8sJob ≫= reportIfError) w.
Proof.
  unfold checkIfJobCompleted, investigateJobFailure.
  destruct k8sJob as [k8sJob|]; [|apply cont_panic_bind; explained].
  destruct (0 <? _).
  - ops. apply cont_assoc. cont_silent @runs_call. apply cont_assoc.
    eapply cont_bind; [apply (investigatePods_runs jobKey false)|].
    intros res evs w1 HR. cbn [app]. destruct res as [err|found].
    + destruct HR as (L & line & HL & ->).
      cont_run; intros pre k code post Heq; rewrite <- ?app_assoc in Heq;
        destruct (split_after_lines jobKey _ _ _ _ _ _ HL Heq) as (pre2 & -> & Heq2);
        cbn in Heq2; split_events Heq2.
    + destruct HR as [HL Hfound]. destruct found.
      * assert (endsWithLine jobKey evs) as Hends.
        { apply lines_end_with_line; [done|]. by destruct (Hfound eq_refl). }
        cont_run; intros pre k code post Heq; rewrite <- ?app_assoc in Heq;
          destruct (split_after_lines jobKey _ _ _ _ _ _ HL Heq) as (pre2 & -> & Heq2);
          cbn in Heq2;
          apply split_cons in Heq2 as [(-> & He & <-)|(pre' & -> & Heq2)];
          try (injection He as <- <-; cbn; by rewrite app_nil_r);
          split_events Heq2.
      * cont_run; intros pre k code post Heq; rewrite <- ?app_assoc in Heq;
          destruct (split_after_lines jobKey _ _ _ _ _ _ HL Heq) as (pre2 & -> & Heq2);
          cbn in Heq2; split_events Heq2.
  - ops. cont_run; cbn [app]; explained.
Qed.

End Investigator.

(** C5, as amended: in a pass's handling of one job, whatever the outside
    world answers, a status EnqueueFailed, UnexpectedError, WorkerOOM or
    WorkerError is persisted right after the write of one line to the job's
    log stream; Timed-Out is persisted first, then the runtime resources are
    deleted, and only then is its one line written; Succeeded and
    CompletedWithFailures are persisted without any line being written; and
    no in-progress status is ever persisted. *)
Theorem status_writes_are_explained env q b jobKey w :
  transitionsExplained (added w (reconcileJob env q b jobKey w)).
Proof.
  apply cont_added.
  unfold reconcileJob, reconcileInProgressJob, cachedJobSpec, terminateAndCleanUp.
  ops. cont_run; cbn [app];
    first [ apply checkIfJobCompleted_explained
          | unfold checkIfJobCompleted; apply cont_panic_bind; explained
          | explained ].
Qed.

(** A job stuck in Enqueuing past its timeout: one handling persists
    EnqueueFailed after its line, then Timed-Out before its line. *)
Lemma status_writes_are_explained_witness :
  let env := scenarioEnv stuckEnqueuing in
  let o := reconcileJob env (joinQueues env ["sqs/A"]) (joinJobs []) jobA freshWorld in
  added freshWorld o =
    [EvLog jobA ["terminating job A; enqueuing liveness check failed"];
     EvSetStatus jobA status.JobEnqueueFailed;
     EvSetStatus jobA status.JobTimedOut;
     EvDeleteRuntime jobA;
     EvLog jobA ["terminating job after exceeding the specified timeout of 60 seconds"]] /\
  transitionsExplained (added freshWorld o).
Proof.
  cbv zeta. split; [vm_compute; reflexivity|].
  apply (status_writes_are_explained (scenarioEnv stuckEnqueuing)).
Defined.

(** C5, as stated, fails on the happy path: the pass persists Succeeded
    for job A and writes no line at all. *)
Lemma succeeded_without_a_line_counterexample :
  added freshWorld (ManageJobResources (scenarioEnv happyPath) freshWorld) =
    [EvSetStatus jobA status.JobSucceeded; EvDeleteRuntime jobA] /\
  ~ explainedOnceBefore
      (added freshWorld (ManageJobResources (scenarioEnv happyPath) freshWorld)).
Proof.
  assert (added freshWorld (ManageJobResources (scenarioEnv happyPath) freshWorld) =
            [EvSetStatus jobA status.JobSucceeded; EvDeleteRuntime jobA]) as Hadded
    by (vm_compute; reflexivity).
  split; [exact Hadded|]. rewrite Hadded. intros Hclaim.
  destruct (Hclaim [] jobA status.JobSucceeded [EvDeleteRuntime jobA] eq_refl eq_refl)
    as [Hone _].
  cbn in Hone. discriminate.
Qed.

(** * Further properties of the code *)

(** ** The state-consistency verifier *)

(** X1: [reconcileInProgressJob] always returns, has no outside effect and
    leaves the reconciler's state alone, and what it returns is one of the
    three verdicts: unchanged, UnexpectedError or EnqueueFailed; a new
    status never comes with an error. *)
Theorem reconcileInProgressJob_verdicts env jobState queueURL k8sJob w :
  exists r w',
    reconcileInProgressJob env jobState queueURL k8sJob w = Ret r w' /\
    trace w' = trace w /\
    sameState w w' /\
    verdict env jobState queueURL k8sJob r.
Proof.
  unfold reconcileInProgressJob, verdict, sameState. run.
  destruct queueURL as [queueURL|]; cbn;
    repeat (inner_case; cbn);
    eexists (_, _, _), _; (split; [reflexivity|]); cbn;
    (split; [reflexivity|]); (split; [done|]);
    first [ by left
          | solve [right; left; repeat split; eauto]
          | solve [right; right; repeat split; eauto; done] ].
Qed.

(** Runs the goal's computation: [tac] uses what is known of the outside
    world, everything else is decided by cases. *)
Ltac exec_with tac :=
  repeat (cbn; first [ tac | inner_case; try absurd_case ]).

(** ** The driver's handling of one job *)

(** X2: while the queue of an in-progress job is not listed and the job
    was enqueued within the grace period, the handling of the job has no
    outside effect and changes nothing in the reconciler's state. *)
Theorem handling_waits_for_queue_within_grace env q b jobKey w jobState :
  ext_GetJobState env (calls w) jobKey = Ok jobState ->
  status.IsInProgress (job.Status jobState) = true ->
  spec.ID jobKey ∉ queueJobIDSet q ->
  time.Sub (ext_Now env (S (calls w)))
    (time.index (job.LastUpdatedMap jobState)
       (JobCode_String env status.JobEnqueuing))
    <= _doesQueueExistGracePeriod ->
  exists w', reconcileJob env q b jobKey w = Ret tt w' /\
             trace w' = trace w /\ sameState w w'.
Proof.
  intros Hstate Hprogress Hqueue Hrecent.
  unfold reconcileJob, reconcileInProgressJob, sameState. run.
  rewrite Hstate. cbn. rewrite Hprogress. cbn.
  destruct (decide (spec.ID jobKey ∈ queueJobIDSet q)) as [|_]; [done|]. cbn.
  apply Z.leb_le in Hrecent. rewrite Hrecent. cbn.
  destruct (decide (job.Status jobState ≠ job.Status jobState)) as [Hne|_];
    [done|]. cbn.
  eexists. split; [reflexivity|]. done.
Qed.

Lemma handling_waits_for_queue_within_grace_witness :
  let env := scenarioEnv queueNotListedYet in
  (spec.ID jobA ∉ queueJobIDSet (joinQueues env [])) /\
  exists w', reconcileJob env (joinQueues env []) (joinJobs []) jobA freshWorld
               = Ret tt w' /\
             trace w' = trace freshWorld /\ sameState freshWorld w'.
Proof.
  cbv zeta. split; [compute_done|].
  apply (handling_waits_for_queue_within_grace (scenarioEnv queueNotListedYet)
           _ _ jobA freshWorld justEnqueuedA).
  - reflexivity.
  - reflexivity.
  - compute_done.
  - vm_compute. discriminate.
Defined.



(** X4: a Running job with its queue and batch listed and its spec cached,
    whose timeout has run out at every reading of the clock, is handled
    by persisting Timed-Out, deleting the runtime resources and then
    writing the timeout line, all three attempted whatever the others
    return; the completion classifier is not run (nothing else happens,
    the deferred IDs and the cache stay as they are). *)
Theorem timed_out_job_is_terminated env q b jobKey w jobState kJob jobSpec timeout :
  (forall n, ext_GetJobState env n jobKey = Ok jobState) ->
  job.Status jobState = status.JobRunning ->
  spec.ID jobKey ∈ queueJobIDSet q ->
  lookupJob b (spec.ID jobKey) = Some kJob ->
  _inProgressJobSpecMap w !! spec.ID jobKey = Some jobSpec ->
  spec.Timeout jobSpec = Some timeout ->
  (forall n, time.mul time.Second timeout
               < time.Sub (ext_Now env n) (spec.StartTime jobSpec)) ->
  exists w' reports,
    reconcileJob env q b jobKey w = Ret tt w' /\
    trace w' = trace w ++
      [EvSetStatus jobKey status.JobTimedOut;
       EvDeleteRuntime jobKey;
       EvLog jobKey [timeoutLine timeout]] ++ reports /\
    Forall isReport reports /\
    sameState w w'.
Proof.
  intros Hstate Hrunning Hqueue Hbatch Hcached Htimeout Hlate.
  assert (forall n, (time.mul time.Second timeout
                       <? time.Sub (ext_Now env n) (spec.StartTime jobSpec)) = true)
    as Hlt by (intros n; apply Z.ltb_lt, Hlate).
  unfold reconcileJob, reconcileInProgressJob, cachedJobSpec, sameState, timeoutLine.
  run. rewrite Hstate. cbn. rewrite Hrunning. cbn.
  destruct (decide (spec.ID jobKey ∈ queueJobIDSet q)) as [_|]; [|done]. cbn.
  rewrite Hbatch.
  exec_with ltac:(first [rewrite Hcached | rewrite Htimeout | rewrite Hlt]);
    do 2 eexists; (split; [reflexivity|]); cbn; rewrite <- ?app_assoc; cbn;
    (split; [reflexivity|]); (split; [|done]); repeat constructor; by eexists.
Qed.

Lemma timed_out_job_is_terminated_witness :
  let env := scenarioEnv pastTimeout in
  exists w' reports,
    reconcileJob env (joinQueues env ["sqs/A"]) (joinJobs [batchOf "A" 4 0 0])
      jobA cachedWorld = Ret tt w' /\
    trace w' = trace cachedWorld ++
      [EvSetStatus jobA status.JobTimedOut;
       EvDeleteRuntime jobA;
       EvLog jobA [timeoutLine 60]] ++ reports /\
    Forall isReport reports /\
    sameState cachedWorld w'.
Proof.
  cbv zeta.
  apply (timed_out_job_is_terminated (scenarioEnv pastTimeout) _ _ jobA cachedWorld
           runningA (batchOf "A" 4 0 0) specWithTimeoutA 60).
  - intros n. reflexivity.
  - reflexivity.
  - compute_done.
  - vm_compute. reflexivity.
  - vm_compute. reflexivity.
  - reflexivity.
  - intros n. vm_compute. reflexivity.
Defined.

(** ** The completion classifier, invocation after invocation *)

Section Classifier.
Context (env : Env) (jobKey : spec.JobKey) (queueURL : string) (kJob : kbatch.Job).
Context (Hfailed : kbatch.Failed (kbatch.Status kJob) = 0).

(** The queue is empty, the metrics and the spec can be fetched. *)
Context (jobSpec : spec.BatchJob) (batchMetrics : BatchMetrics).
Context (Hempty : forall n,
            ext_getQueueMetricsFromURL env n queueURL = Ok {| IsEmpty := true |}).
Context (Hmetrics : forall n, ext_getRealTimeBatchMetrics env n jobKey = Ok batchMetrics).
Context (Hspec : forall n, ext_downloadJobSpec env n jobKey = Ok jobSpec).

Lemma empty_queue_partial_first w :
  spec.Workers jobSpec = kbatch.Succeeded (kbatch.Status kJob) ->
  spec.TotalBatchCount jobSpec <> Succeeded batchMetrics ->
  spec.ID jobKey ∉ _jobsToDelete w ->
  checkIfJobCompleted env jobKey queueURL (Some kJob) w =
    Ret None {| _jobsToDelete := {[spec.ID jobKey]} ∪ _jobsToDelete w;
                _inProgressJobSpecMap := _inProgressJobSpecMap w;
                calls := 3 + calls w;
                trace := trace w |}.
Proof.
  intros Hworkers Htotal Hfresh. apply Z.eqb_neq in Htotal.
  unfold checkIfJobCompleted. rewrite Hfailed. run.
  rewrite Hempty. cbn. rewrite Hmetrics. cbn. rewrite Hspec. cbn.
  rewrite Hworkers, Z.eqb_refl, Htotal, bool_decide_eq_false_2 by done.
  reflexivity.
Qed.

Lemma empty_queue_partial_second w :
  spec.Workers jobSpec = kbatch.Succeeded (kbatch.Status kJob) ->
  spec.TotalBatchCount jobSpec <> Succeeded batchMetrics ->
  spec.ID jobKey ∈ _jobsToDelete w ->
  checkIfJobCompleted env jobKey queueURL (Some kJob) w =
    Ret (FirstError
           [ext_SetStatus env (3 + calls w) jobKey status.JobCompletedWithFailures;
            ext_deleteJobRuntimeResources env (4 + calls w) jobKey])
        {| _jobsToDelete := _jobsToDelete w ∖ {[spec.ID jobKey]};
           _inProgressJobSpecMap := _inProgressJobSpecMap w;
           calls := 5 + calls w;
           trace := trace w ++ [EvSetStatus jobKey status.JobCompletedWithFailures;
                                EvDeleteRuntime jobKey] |}.
Proof.
  intros Hworkers Htotal Hdeferred. apply Z.eqb_neq in Htotal.
  unfold checkIfJobCompleted. rewrite Hfailed. run.
  rewrite Hempty. cbn. rewrite Hmetrics. cbn. rewrite Hspec. cbn.
  rewrite Hworkers, Z.eqb_refl, Htotal, bool_decide_eq_true_2 by done.
  cbn. by rewrite <- app_assoc.
Qed.

Lemma empty_queue_mismatch_first w :
  spec.Workers jobSpec <> kbatch.Succeeded (kbatch.Status kJob) ->
  spec.ID jobKey ∉ _jobsToDelete w ->
  checkIfJobCompleted env jobKey queueURL (Some kJob) w =
    Ret None {| _jobsToDelete := {[spec.ID jobKey]} ∪ _jobsToDelete w;
                _inProgressJobSpecMap := _inProgressJobSpecMap w;
                calls := 3 + calls w;
                trace := trace w |}.
Proof.
  intros Hworkers Hfresh. apply Z.eqb_neq in Hworkers.
  unfold checkIfJobCompleted. rewrite Hfailed. run.
  rewrite Hempty. cbn. rewrite Hmetrics. cbn. rewrite Hspec. cbn.
  rewrite Hworkers, bool_decide_eq_false_2 by done.
  reflexivity.
Qed.

Lemma empty_queue_mismatch_second w :
  spec.Workers jobSpec <> kbatch.Succeeded (kbatch.Status kJob) ->
  spec.ID jobKey ∈ _jobsToDelete w ->
  checkIfJobCompleted env jobKey queueURL (Some kJob) w =
    Ret (FirstError
           [ext_writeToJobLogStream env (3 + calls w) jobKey [stillRunningLine];
            ext_SetStatus env (4 + calls w) jobKey status.JobUnexpectedError;
            ext_deleteJobRuntimeResources env (5 + calls w) jobKey])
        {| _jobsToDelete := _jobsToDelete w ∖ {[spec.ID jobKey]};
           _inProgressJobSpecMap := _inProgressJobSpecMap w;
           calls := 6 + calls w;
           trace := trace w ++ [EvLog jobKey [stillRunningLine];
                                EvSetStatus jobKey status.JobUnexpectedError;
                                EvDeleteRuntime jobKey] |}.
Proof.
  intros Hworkers Hdeferred. apply Z.eqb_neq in Hworkers.
  unfold checkIfJobCompleted. rewrite Hfailed. run.
  rewrite Hempty. cbn. rewrite Hmetrics. cbn. rewrite Hspec. cbn.
  rewrite Hworkers, bool_decide_eq_true_2 by done.
  cbn. by rewrite <- !app_assoc.
Qed.

End Classifier.

Lemma union_difference_fresh (id : string) (ids : gset string) :
  id ∉ ids -> ({[id]} ∪ ids) ∖ {[id]} = ids.
Proof.
  intros Hfresh. apply set_eq. intros x.
  rewrite elem_of_difference, elem_of_union, elem_of_singleton. split.
  - by intros [[?|?] ?].
  - intros Hx. split; [by right|]. by intros ->.
Qed.

(** X5: with no failed worker, the queue empty, as many succeeded workers
    as the spec has, but a count of succeeded work items that differs from
    the spec's total, a job that is not deferred is deferred by one
    invocation of the classifier (no outside effect) and, things being
    the same, finalised by the next: CompletedWithFailures is persisted,
    the runtime resources are deleted, no line is written, and the
    deferred IDs are as before the first invocation. *)
Theorem partial_success_is_committed_by_second_invocation env jobKey queueURL kJob
    jobSpec batchMetrics w :
  kbatch.Failed (kbatch.Status kJob) = 0 ->
  (forall n, ext_getQueueMetricsFromURL env n queueURL = Ok {| IsEmpty := true |}) ->
  (forall n, ext_getRealTimeBatchMetrics env n jobKey = Ok batchMetrics) ->
  (forall n, ext_downloadJobSpec env n jobKey = Ok jobSpec) ->
  spec.Workers jobSpec = kbatch.Succeeded (kbatch.Status kJob) ->
  spec.TotalBatchCount jobSpec <> Succeeded batchMetrics ->
  spec.ID jobKey ∉ _jobsToDelete w ->
  exists w1 err w2,
    checkIfJobCompleted env jobKey queueURL (Some kJob) w = Ret None w1 /\
    trace w1 = trace w /\
    _jobsToDelete w1 = {[spec.ID jobKey]} ∪ _jobsToDelete w /\
    checkIfJobCompleted env jobKey queueURL (Some kJob) w1 = Ret err w2 /\
    trace w2 = trace w ++ [EvSetStatus jobKey status.JobCompletedWithFailures;
                           EvDeleteRuntime jobKey] /\
    _jobsToDelete w2 = _jobsToDelete w.
Proof.
  intros Hfailed Hempty Hmetrics Hspec Hworkers Htotal Hfresh.
  do 3 eexists.
  split; [by eapply empty_queue_partial_first|]. split; [reflexivity|].
  split; [reflexivity|].
  split; [eapply empty_queue_partial_second; try done; cbn;
          by apply elem_of_union_l, elem_of_singleton|].
  split; [reflexivity|]. cbn. by apply union_difference_fresh.
Qed.

Lemma partial_success_is_committed_by_second_invocation_witness :
  let env := scenarioEnv metricsLag in
  exists w1 err w2,
    checkIfJobCompleted env jobA "sqs/A" (Some (batchOf "A" 0 4 0)) freshWorld
      = Ret None w1 /\
    trace w1 = trace freshWorld /\
    _jobsToDelete w1 = {[spec.ID jobA]} ∪ _jobsToDelete freshWorld /\
    checkIfJobCompleted env jobA "sqs/A" (Some (batchOf "A" 0 4 0)) w1 = Ret err w2 /\
    trace w2 = trace freshWorld ++ [EvSetStatus jobA status.JobCompletedWithFailures;
                                    EvDeleteRuntime jobA] /\
    _jobsToDelete w2 = _jobsToDelete freshWorld.
Proof.
  cbv zeta.
  apply (partial_success_is_committed_by_second_invocation (scenarioEnv metricsLag)
           jobA "sqs/A" (batchOf "A" 0 4 0) specA {| Succeeded := 995 |} freshWorld).
  - reflexivity.
  - intros n. reflexivity.
  - intros n. reflexivity.
  - intros n. reflexivity.
  - reflexivity.
  - vm_compute. discriminate.
  - compute_done.
Defined.

(** X6: with no failed worker and the queue empty, if the number of
    succeeded workers differs from the spec's Workers, a job that is not
    deferred is deferred by one invocation (no outside effect) and, things
    being the same, the next invocation writes the "queue is empty but
    cluster state still indicates..." line, persists UnexpectedError,
    deletes the runtime resources and takes the ID out of the deferred
    IDs. *)
Theorem worker_mismatch_is_an_error_on_second_invocation env jobKey queueURL kJob
    jobSpec batchMetrics w :
  kbatch.Failed (kbatch.Status kJob) = 0 ->
  (forall n, ext_getQueueMetricsFromURL env n queueURL = Ok {| IsEmpty := true |}) ->
  (forall n, ext_getRealTimeBatchMetrics env n jobKey = Ok batchMetrics) ->
  (forall n, ext_downloadJobSpec env n jobKey = Ok jobSpec) ->
  spec.Workers jobSpec <> kbatch.Succeeded (kbatch.Status kJob) ->
  spec.ID jobKey ∉ _jobsToDelete w ->
  exists w1 err w2,
    checkIfJobCompleted env jobKey queueURL (Some kJob) w = Ret None w1 /\
    trace w1 = trace w /\
    _jobsToDelete w1 = {[spec.ID jobKey]} ∪ _jobsToDelete w /\
    checkIfJobCompleted env jobKey queueURL (Some kJob) w1 = Ret err w2 /\
    trace w2 = trace w ++ [EvLog jobKey [stillRunningLine];
                           EvSetStatus jobKey status.JobUnexpectedError;
                           EvDeleteRuntime jobKey] /\
    _jobsToDelete w2 = _jobsToDelete w.
Proof.
  intros Hfailed Hempty Hmetrics Hspec Hworkers Hfresh.
  do 3 eexists.
  split; [by eapply empty_queue_mismatch_first|]. split; [reflexivity|].
  split; [reflexivity|].
  split; [eapply empty_queue_mismatch_second; try done; cbn;
          by apply elem_of_union_l, elem_of_singleton|].
  split; [reflexivity|]. cbn. by apply union_difference_fresh.
Qed.

Lemma worker_mismatch_is_an_error_on_second_invocation_witness :
  let env := scenarioEnv workerMissing in
  exists w1 err w2,
    checkIfJobCompleted env jobA "sqs/A" (Some (batchOf "A" 1 3 0)) freshWorld
      = Ret None w1 /\
    trace w1 = trace freshWorld /\
    _jobsToDelete w1 = {[spec.ID jobA]} ∪ _jobsToDelete freshWorld /\
    checkIfJobCompleted env jobA "sqs/A" (Some (batchOf "A" 1 3 0)) w1 = Ret err w2 /\
    trace w2 = trace freshWorld ++ [EvLog jobA [stillRunningLine];
                                    EvSetStatus jobA status.JobUnexpectedError;
                                    EvDeleteRuntime jobA] /\
    _jobsToDelete w2 = _jobsToDelete freshWorld.
Proof.
  cbv zeta.
  apply (worker_mismatch_is_an_error_on_second_invocation (scenarioEnv workerMissing)
           jobA "sqs/A" (batchOf "A" 1 3 0) specA {| Succeeded := 1000 |} freshWorld).
  - reflexivity.
  - intros n. reflexivity.
  - intros n. reflexivity.
  - intros n. reflexivity.
  - vm_compute. discriminate.
  - compute_done.
Defined.

(** X7: with no failed worker, messages left in the queue and at least
    one active worker, an invocation of the classifier returns nil, has no
    outside effect and changes nothing in the reconciler's state; in
    particular a job that was deferred stays deferred. *)
Theorem backlog_with_active_workers_is_left_alone env jobKey queueURL kJob w :
  kbatch.Failed (kbatch.Status kJob) = 0 ->
  ext_getQueueMetricsFromURL env (calls w) queueURL = Ok {| IsEmpty := false |} ->
  kbatch.Active (kbatch.Status kJob) <> 0 ->
  exists w', checkIfJobCompleted env jobKey queueURL (Some kJob) w = Ret None w' /\
             trace w' = trace w /\ sameState w w'.
Proof.
  intros Hfailed Hqueue Hactive. apply Z.eqb_neq in Hactive.
  unfold checkIfJobCompleted, sameState. rewrite Hfailed. run.
  rewrite Hqueue. cbn. rewrite Hactive. eexists. split; [reflexivity|]. done.
Qed.

Lemma backlog_with_active_workers_is_left_alone_witness :
  exists w', checkIfJobCompleted (scenarioEnv stillWorking) jobA "sqs/A"
               (Some (batchOf "A" 2 2 0)) staleWorld = Ret None w' /\
             trace w' = trace staleWorld /\ sameState staleWorld w'.
Proof.
  apply (backlog_with_active_workers_is_left_alone (scenarioEnv stillWorking)
           jobA "sqs/A" (batchOf "A" 2 2 0) staleWorld).
  - reflexivity.
  - reflexivity.
  - vm_compute. discriminate.
Defined.

Section Backlog.
Context (env : Env) (jobKey : spec.JobKey) (queueURL : string) (kJob : kbatch.Job).
Context (Hfailed : kbatch.Failed (kbatch.Status kJob) = 0).
Context (Hbacklog : forall n,
            ext_getQueueMetricsFromURL env n queueURL = Ok {| IsEmpty := false |}).
Context (Hidle : kbatch.Active (kbatch.Status kJob) = 0).

Lemma idle_backlog_first w :
  spec.ID jobKey ∉ _jobsToDelete w ->
  checkIfJobCompleted env jobKey queueURL (Some kJob) w =
    Ret None {| _jobsToDelete := {[spec.ID jobKey]} ∪ _jobsToDelete w;
                _inProgressJobSpecMap := _inProgressJobSpecMap w;
                calls := 1 + calls w;
                trace := trace w |}.
Proof.
  intros Hfresh. unfold checkIfJobCompleted. rewrite Hfailed. run.
  rewrite Hbacklog. cbn. rewrite Hidle. cbn.
  by rewrite bool_decide_eq_false_2 by done.
Qed.

Lemma idle_backlog_second w :
  spec.ID jobKey ∈ _jobsToDelete w ->
  checkIfJobCompleted env jobKey queueURL (Some kJob) w =
    Ret (FirstError
           [ext_writeToJobLogStream env (1 + calls w) jobKey [stillInProgressLine];
            ext_SetStatus env (2 + calls w) jobKey status.JobUnexpectedError;
            ext_deleteJobRuntimeResources env (3 + calls w) jobKey])
        {| _jobsToDelete := _jobsToDelete w ∖ {[spec.ID jobKey]};
           _inProgressJobSpecMap := _inProgressJobSpecMap w;
           calls := 4 + calls w;
           trace := trace w ++ [EvLog jobKey [stillInProgressLine];
                                EvSetStatus jobKey status.JobUnexpectedError;
                                EvDeleteRuntime jobKey] |}.
Proof.
  intros Hdeferred. unfold checkIfJobCompleted. rewrite Hfailed. run.
  rewrite Hbacklog. cbn. rewrite Hidle. cbn.
  rewrite bool_decide_eq_true_2 by done. cbn. by rewrite <- !app_assoc.
Qed.

End Backlog.

(** X8: with no failed worker, messages left in the queue and no active
    worker, a job that is not deferred is deferred by one invocation of
    the classifier (no outside effect) and, things being the same, the
    next invocation writes the "cluster state indicates job has completed
    but metrics indicate..." line, persists UnexpectedError, deletes the
    runtime resources and takes the ID out of the deferred IDs. *)
Theorem idle_backlog_is_an_error_on_second_invocation env jobKey queueURL kJob w :
  kbatch.Failed (kbatch.Status kJob) = 0 ->
  (forall n, ext_getQueueMetricsFromURL env n queueURL = Ok {| IsEmpty := false |}) ->
  kbatch.Active (kbatch.Status kJob) = 0 ->
  spec.ID jobKey ∉ _jobsToDelete w ->
  exists w1 err w2,
    checkIfJobCompleted env jobKey queueURL (Some kJob) w = Ret None w1 /\
    trace w1 = trace w /\
    _jobsToDelete w1 = {[spec.ID jobKey]} ∪ _jobsToDelete w /\
    checkIfJobCompleted env jobKey queueURL (Some kJob) w1 = Ret err w2 /\
    trace w2 = trace w ++ [EvLog jobKey [stillInProgressLine];
                           EvSetStatus jobKey status.JobUnexpectedError;
                           EvDeleteRuntime jobKey] /\
    _jobsToDelete w2 = _jobsToDelete w.
Proof.
  intros Hfailed Hbacklog Hidle Hfresh.
  do 3 eexists.
  split; [by eapply idle_backlog_first|]. split; [reflexivity|].
  split; [reflexivity|].
  split; [eapply idle_backlog_second; try done; cbn;
          by apply elem_of_union_l, elem_of_singleton|].
  split; [reflexivity|]. cbn. by apply union_difference_fresh.
Qed.

Lemma idle_backlog_is_an_error_on_second_invocation_witness :
  let env := scenarioEnv idleWithBacklog in
  exists w1 err w2,
    checkIfJobCompleted env jobA "sqs/A" (Some (batchOf "A" 0 4 0)) freshWorld
      = Ret None w1 /\
    trace w1 = trace freshWorld /\
    _jobsToDelete w1 = {[spec.ID jobA]} ∪ _jobsToDelete freshWorld /\
    checkIfJobCompleted env jobA "sqs/A" (Some (batchOf "A" 0 4 0)) w1 = Ret err w2 /\
    trace w2 = trace freshWorld ++ [EvLog jobA [stillInProgressLine];
                                    EvSetStatus jobA status.JobUnexpectedError;
                                    EvDeleteRuntime jobA] /\
    _jobsToDelete w2 = _jobsToDelete freshWorld.
Proof.
  cbv zeta.
  apply (idle_backlog_is_an_error_on_second_invocation (scenarioEnv idleWithBacklog)
           jobA "sqs/A" (batchOf "A" 0 4 0) freshWorld).
  - reflexivity.
  - intros n. reflexivity.
  - reflexivity.
  - compute_done.
Defined.

(** X9: with no failed worker, when a read of the classifier fails (the
    queue metrics; the batch metrics after an empty queue; the job spec
    after both), the invocation returns that error, has no outside effect
    and changes nothing in the reconciler's state: the decision is left to
    a later pass. *)
Theorem classifier_read_failure_changes_nothing env jobKey queueURL kJob w err :
  kbatch.Failed (kbatch.Status kJob) = 0 ->
  classifierReadFails env w jobKey queueURL err ->
  exists w', checkIfJobCompleted env jobKey queueURL (Some kJob) w = Ret (Some err) w' /\
             trace w' = trace w /\ sameState w w'.
Proof.
  intros Hfailed Hfails. unfold checkIfJobCompleted, sameState. rewrite Hfailed. run.
  destruct Hfails as [Hq|[Hq [Hm|[[bm Hm] Hs]]]]; rewrite Hq; cbn.
  - eexists. split; [reflexivity|]. done.
  - rewrite Hm. cbn. eexists. split; [reflexivity|]. done.
  - rewrite Hm. cbn. rewrite Hs. cbn. eexists. split; [reflexivity|]. done.
Qed.

Lemma classifier_read_failure_changes_nothing_witness :
  classifierReadFails metricsDown staleWorld jobA "sqs/A" "metrics backend unavailable" /\
  exists w', checkIfJobCompleted metricsDown jobA "sqs/A" (Some (batchOf "A" 0 4 0))
               staleWorld = Ret (Some "metrics backend unavailable") w' /\
             trace w' = trace staleWorld /\ sameState staleWorld w'.
Proof.
  assert (classifierReadFails metricsDown staleWorld jobA "sqs/A"
            "metrics backend unavailable") as Hfails.
  { right. split; [reflexivity|]. left. reflexivity. }
  split; [exact Hfails|].
  apply (classifier_read_failure_changes_nothing metricsDown jobA "sqs/A"
           (batchOf "A" 0 4 0) staleWorld "metrics backend unavailable");
    [reflexivity|exact Hfails].
Defined.

(** ** The failure investigator *)

Section Investigation.
Context (env : Env) (jobKey : spec.JobKey).

Lemma investigateContainers_lines podStatus reasonFound statuses w :
  investigateContainers env jobKey podStatus reasonFound statuses w =
    Ret (reasonFound ||
         negb (bool_decide (containerLines env podStatus statuses = [])))
        {| _jobsToDelete := _jobsToDelete w;
           _inProgressJobSpecMap := _inProgressJobSpecMap w;
           calls := (List.length (containerLines env podStatus statuses) + calls w)%nat;
           trace := trace w ++ logged jobKey (containerLines env podStatus statuses) |}.
Proof.
  revert reasonFound w.
  induction statuses as [|containerStatus rest IH]; intros reasonFound w.
  - cbn. rewrite app_nil_r, orb_false_r. by destruct w.
  - assert (containerLines env podStatus (containerStatus :: rest) =
            match reportedTermination containerStatus with
            | Some t => terminationLine env podStatus t :: containerLines env podStatus rest
            | None => containerLines env podStatus rest
            end) as ->.
    { unfold containerLines. cbn. by destruct (reportedTermination containerStatus). }
    cbn [investigateContainers]. unfold reportedTermination.
    destruct (kcore.LastTerminationState_Terminated containerStatus) as [t|];
      [|destruct (kcore.State_Terminated containerStatus) as [t|]].
    + run. rewrite IH. cbn. rewrite orb_true_r, <- app_assoc, Nat.add_succ_r. done.
    + run. rewrite IH. cbn. rewrite orb_true_r, <- app_assoc, Nat.add_succ_r. done.
    + apply IH.
Qed.

Lemma investigatePods_lines reasonFound pods w :
  Forall (notOOMKilled env) pods ->
  investigatePods env jobKey reasonFound pods w =
    Ret (inr (reasonFound || negb (bool_decide (workerLines env pods = []))))
        {| _jobsToDelete := _jobsToDelete w;
           _inProgressJobSpecMap := _inProgressJobSpecMap w;
           calls := (List.length (workerLines env pods) + calls w)%nat;
           trace := trace w ++ logged jobKey (workerLines env pods) |}.
Proof.
  intros Hpods. revert reasonFound w.
  induction Hpods as [|pod rest Hpod _ IH]; intros reasonFound w.
  - cbn. rewrite app_nil_r, orb_false_r. by destruct w.
  - cbn [investigatePods]. rewrite Hpod.
    unfold mbind at 1, M_bind. rewrite investigateContainers_lines, IH. cbn.
    unfold workerLines. cbn [mbind list_bind].
    set (here := containerLines env (GetPodStatus env pod) (kcore.ContainerStatuses pod)).
    set (there := rest ≫= _).
    unfold logged. rewrite fmap_app, length_app, <- !app_assoc. f_equal.
    + f_equal. destruct reasonFound; [done|]. cbn.
      destruct here, there; done.
    + f_equal. lia.
Qed.

Lemma investigatePods_oom reasonFound before oom after w :
  Forall (notOOMKilled env) before ->
  WasPodOOMKilled env oom = true ->
  let n := (List.length (workerLines env before) + calls w)%nat in
  investigatePods env jobKey reasonFound (before ++ oom :: after) w =
    Ret (inl (FirstError [ext_writeToJobLogStream env n jobKey [oomLine];
                          ext_SetStatus env (1 + n) jobKey status.JobWorkerOOM;
                          ext_deleteJobRuntimeResources env (2 + n) jobKey]))
        {| _jobsToDelete := _jobsToDelete w;
           _inProgressJobSpecMap := _inProgressJobSpecMap w;
           calls := (3 + n)%nat;
           trace := trace w ++ logged jobKey (workerLines env before) ++
                    [EvLog jobKey [oomLine];
                     EvSetStatus jobKey status.JobWorkerOOM;
                     EvDeleteRuntime jobKey] |}.
Proof.
  intros Hbefore Hoom. revert reasonFound w.
  induction Hbefore as [|pod rest Hpod _ IH]; intros reasonFound w.
  - cbn [app investigatePods]. rewrite Hoom. run. by rewrite <- !app_assoc.
  - cbn [app investigatePods]. rewrite Hpod.
    unfold mbind at 1, M_bind. rewrite investigateContainers_lines, IH. cbn.
    unfold workerLines. cbn [mbind list_bind].
    set (here := containerLines env (GetPodStatus env pod) (kcore.ContainerStatuses pod)).
    set (there := rest ≫= _).
    unfold logged. rewrite fmap_app, length_app, <- !app_assoc.
    replace (List.length there + (List.length here + calls w))%nat
      with (List.length here + List.length there + calls w)%nat by lia.
    done.
Qed.

End Investigation.

(** X10: when no pod of the job was OOM-killed, the investigator writes
    one line per terminated container, in the order of the pods and of
    their containers and preferring a container's last termination to its
    current one, or the single line "workers were killed for unknown
    reason" when no container has terminated; then it persists WorkerError
    and deletes the runtime resources.  The reconciler's state is left
    alone, and what is returned is the first error of the status write and
    the deletion (and of the unknown-reason line, if written): the errors
    of the per-container lines are dropped. *)
Theorem investigation_without_oom_reports_terminations env jobKey w :
  let pods := ext_ListPodsByLabel env (calls w) "jobID" (spec.ID jobKey) in
  let lines := workerLines env pods in
  let c := S (calls w) in
  Forall (notOOMKilled env) pods ->
  exists w',
    investigateJobFailure env jobKey w =
      Ret (FirstError
             [if bool_decide (lines = []) then
                ext_writeToJobLogStream env c jobKey [unknownReasonLine]
              else None;
              ext_SetStatus env (Nat.max 1 (List.length lines) + c) jobKey
                status.JobWorkerError;
              ext_deleteJobRuntimeResources env
                (1 + Nat.max 1 (List.length lines) + c) jobKey]) w' /\
    trace w' = trace w ++
               logged jobKey (if bool_decide (lines = []) then [unknownReasonLine]
                              else lines) ++
               [EvSetStatus jobKey status.JobWorkerError; EvDeleteRuntime jobKey] /\
    sameState w w'.
Proof.
  intros pods lines c Hpods. unfold investigateJobFailure, sameState.
  unfold mbind at 1, M_bind. unfold ListPodsByLabel, call at 1.
  unfold mbind at 1, M_bind. rewrite investigatePods_lines by exact Hpods.
  fold pods. fold lines. cbn [orb].
  destruct lines as [|line lines'] eqn:Hlines.
  - run. eexists. split; [reflexivity|]. cbn. by rewrite <- !app_assoc.
  - run. eexists. split; [reflexivity|]. cbn. by rewrite <- !app_assoc.
Qed.

Lemma investigation_without_oom_reports_terminations_witness :
  let env := scenarioEnv (failedWith [pendingPod; crashedPod]) in
  exists err w',
    investigateJobFailure env jobA freshWorld = Ret err w' /\
    trace w' =
      [EvLog jobA ["at least one worker had status Failed and terminated for reason Error (exit_code=2)"];
       EvLog jobA ["at least one worker had status Failed and terminated for reason Completed (exit_code=143)"];
       EvSetStatus jobA status.JobWorkerError;
       EvDeleteRuntime jobA].
Proof.
  cbv zeta.
  destruct (investigation_without_oom_reports_terminations
              (scenarioEnv (failedWith [pendingPod; crashedPod])) jobA freshWorld)
    as (w' & Hrun & Htrace & _).
  - repeat constructor.
  - eexists _, w'. split; [exact Hrun|]. rewrite Htrace. reflexivity.
Defined.

(** X11: the first OOM-killed pod of the listing ends the investigation:
    after the lines for the terminated containers of the pods before it,
    the investigator writes the out-of-memory line, persists WorkerOOM and
    deletes the runtime resources.  The pods after it are not looked at,
    and WorkerError is not persisted. *)
Theorem oom_pod_ends_the_investigation env jobKey w before oom after :
  ext_ListPodsByLabel env (calls w) "jobID" (spec.ID jobKey) = before ++ oom :: after ->
  Forall (notOOMKilled env) before ->
  WasPodOOMKilled env oom = true ->
  exists err w',
    investigateJobFailure env jobKey w = Ret err w' /\
    trace w' = trace w ++ logged jobKey (workerLines env before) ++
               [EvLog jobKey [oomLine];
                EvSetStatus jobKey status.JobWorkerOOM;
                EvDeleteRuntime jobKey] /\
    sameState w w'.
Proof.
  intros Hpods Hbefore Hoom. unfold investigateJobFailure, sameState.
  unfold mbind at 1, M_bind. unfold ListPodsByLabel, call at 1. rewrite Hpods.
  unfold mbind at 1, M_bind.
  rewrite (investigatePods_oom env jobKey false before oom after _ Hbefore Hoom).
  cbn. eexists _, _. split; [reflexivity|]. done.
Qed.

Lemma oom_pod_ends_the_investigation_witness :
  let env := scenarioEnv (failedWith [crashedPod; oomPod; crashedPod]) in
  exists err w',
    investigateJobFailure env jobA freshWorld = Ret err w' /\
    trace w' = trace freshWorld ++ logged jobA (workerLines env [crashedPod]) ++
               [EvLog jobA [oomLine];
                EvSetStatus jobA status.JobWorkerOOM;
                EvDeleteRuntime jobA] /\
    sameState freshWorld w'.
Proof.
  cbv zeta.
  apply (oom_pod_ends_the_investigation
           (scenarioEnv (failedWith [crashedPod; oomPod; crashedPod])) jobA freshWorld
           [crashedPod] oomPod [crashedPod]).
  - reflexivity.
  - repeat constructor.
  - reflexivity.
Defined.

(** ** What a computation does to the reconciler's state *)

Section Keeps.
Context (R : relation World) `{!StateOrder R}.

Lemma keeps_ret {A} (a : A) : keeps R (mret a : M A).
Proof. intros w. apply stateOrder_refl. Qed.

Lemma keeps_panic {A} : keeps R (panic : M A).
Proof. intros w. apply stateOrder_refl. Qed.

Lemma keeps_call {A} (f : nat -> A) : keeps R (call f).
Proof. intros w. by apply stateOrder_same. Qed.

Lemma keeps_act {A} e (f : nat -> A) : keeps R (act e f).
Proof. intros w. by apply stateOrder_same. Qed.

Lemma keeps_report err : keeps R (report err).
Proof. intros w. by apply stateOrder_same. Qed.

Lemma keeps_getJobsToDelete : keeps R getJobsToDelete.
Proof. intros w. apply stateOrder_refl. Qed.

Lemma keeps_getJobSpecMap : keeps R getJobSpecMap.
Proof. intros w. apply stateOrder_refl. Qed.

Lemma keeps_rangeKeys env l : keeps R (rangeKeys env l).
Proof. intros w. apply stateOrder_refl. Qed.

Lemma keeps_jobsToDelete_Has jobID : keeps R (jobsToDelete_Has jobID).
Proof. intros w. apply stateOrder_refl. Qed.

Lemma keeps_bind {A B} (m : M A) (f : A -> M B) :
  keeps R m -> (forall a, keeps R (f a)) -> keeps R (m ≫= f).
Proof.
  intros Hm Hf w. rewrite bind_unfold. specialize (Hm w).
  destruct (m w) as [a w1|w1]; [|exact Hm].
  eapply stateOrder_trans; [exact Hm|apply Hf].
Qed.

Lemma keeps_forM_ {A} (l : list A) (body : A -> M unit) :
  (forall x, x ∈ l -> keeps R (body x)) -> keeps R (forM_ l body).
Proof.
  induction l as [|x l IH]; intros Hbody; cbn.
  - apply keeps_ret.
  - apply keeps_bind.
    + apply Hbody. by left.
    + intros _. apply IH. intros y Hy. apply Hbody. by right.
Qed.

End Keeps.

Lemma keeps_weaken {A} (R R' : relation World) (m : M A) :
  (forall w w', R w w' -> R' w w') -> keeps R m -> keeps R' m.
Proof. intros Hsub Hm w. apply Hsub, Hm. Qed.

#[global] Instance sameState_order : StateOrder sameState.
Proof.
  split.
  - by intros w.
  - intros w1 w2 w3 [H1 H2] [H3 H4]. split; congruence.
  - auto.
Qed.

#[global] Instance touchesOnly_order jobKey : StateOrder (touchesOnly jobKey).
Proof.
  split.
  - by intros w.
  - intros w1 w2 w3 [H1 H2] [H3 H4]. split.
    + intros id Hid. destruct (H1 id Hid) as [Hd1 Hc1].
      destruct (H3 id Hid) as [Hd2 Hc2]. split; [by rewrite Hd2|by rewrite Hc2].
    + intros jobSpec Hs. by apply H4, H2.
  - intros w w' [Hdel Hcache]. unfold touchesOnly. rewrite Hdel, Hcache. done.
Qed.

#[global] Instance cacheKeptFor_order ids : StateOrder (cacheKeptFor ids).
Proof.
  split.
  - intros w id jobSpec _ Hs. exact Hs.
  - intros w1 w2 w3 H1 H2 id jobSpec Hid Hs. eapply H2; [done|]. by eapply H1.
  - intros w w' [_ Hcache]. unfold cacheKeptFor. by rewrite Hcache.
Qed.

#[global] Instance cacheGrowsWithin_order ids : StateOrder (cacheGrowsWithin ids).
Proof.
  split.
  - intros w id Hid. by left.
  - intros w1 w2 w3 H1 H2 id Hid. destruct (H2 id Hid) as [Hin|Hin]; [|by right].
    by apply H1.
  - intros w w' [_ Hcache]. unfold cacheGrowsWithin. rewrite Hcache. auto.
Qed.

#[global] Instance cacheSame_order : StateOrder cacheSame.
Proof.
  split.
  - by intros w.
  - unfold cacheSame. intros w1 w2 w3 H1 H2. congruence.
  - by intros w w' [_ Hcache].
Qed.

Create HintDb keeps.
#[global] Hint Resolve keeps_ret keeps_panic keeps_call keeps_getJobsToDelete
  keeps_getJobSpecMap keeps_rangeKeys keeps_jobsToDelete_Has keeps_act keeps_report
  : keeps.

(** Breaks a goal [keeps R m] down along the structure of [m]; what is
    left are the writes to the reconciler's state. *)
Ltac keeps_step :=
  match goal with
  | |- keeps _ (mbind _ _) => apply keeps_bind; [typeclasses eauto| |intros ?]
  | |- keeps _ (_ ≫= _) => apply keeps_bind; [typeclasses eauto| |intros ?]
  | |- keeps _ (match ?x with _ => _ end) => destruct x
  | |- keeps _ (if ?x then _ else _) => destruct x
  | |- keeps _ (let '(_, _) := ?x in _) => destruct x
  | |- keeps _ _ => solve [auto with keeps typeclass_instances]
  end.

Ltac keeps_auto :=
  unfold writeToJobLogStream, SetSucceededStatus, SetCompletedWithFailuresStatus,
    SetTimedOutStatus, SetUnexpectedErrorStatus, SetWorkerOOMStatus,
    SetWorkerErrorStatus, SetStatusForJob, DeleteInProgressFile,
    deleteJobRuntimeResources, ListAllInProgressJobKeys, GetJobState,
    listQueueURLsForAllAPIs, GetAllQueueAttributes, getJobQueueURL,
    getQueueMetricsFromURL, ListJobs, ListPodsByLabel, getRealTimeBatchMetrics,
    downloadJobSpec, Since, Now, reportIfError in *;
  repeat keeps_step.

Section StateFootprints.
Context (env : Env).

Lemma reconcileInProgressJob_keeps R `{!StateOrder R} jobState queueURL k8sJob :
  keeps R (reconcileInProgressJob env jobState queueURL k8sJob).
Proof. unfold reconcileInProgressJob. keeps_auto. Qed.

Lemma investigateContainers_keeps R `{!StateOrder R} jobKey podStatus reasonFound
    statuses :
  keeps R (investigateContainers env jobKey podStatus reasonFound statuses).
Proof.
  revert reasonFound. induction statuses as [|cs rest IH]; intros reasonFound; cbn.
  - apply keeps_ret; done.
  - keeps_auto; apply IH.
Qed.

Lemma investigatePods_keeps R `{!StateOrder R} jobKey reasonFound pods :
  keeps R (investigatePods env jobKey reasonFound pods).
Proof.
  revert reasonFound. induction pods as [|pod rest IH]; intros reasonFound; cbn.
  - apply keeps_ret; done.
  - destruct (WasPodOOMKilled env pod); [keeps_auto|].
    apply keeps_bind; [done|by apply investigateContainers_keeps|].
    intros found. apply IH.
Qed.

Lemma investigateJobFailure_keeps R `{!StateOrder R} jobKey :
  keeps R (investigateJobFailure env jobKey).
Proof.
  unfold investigateJobFailure.
  apply keeps_bind; [done|keeps_auto|]. intros pods.
  apply keeps_bind; [done|by apply investigatePods_keeps|]. intros r.
  keeps_auto.
Qed.

Lemma terminateAndCleanUp_keeps R `{!StateOrder R} jobKey err :
  keeps R (terminateAndCleanUp env jobKey err).
Proof. unfold terminateAndCleanUp. keeps_auto. Qed.

Lemma jobsToDelete_Add_touchesOnly jobKey :
  keeps (touchesOnly jobKey) (jobsToDelete_Add (spec.ID jobKey)).
Proof.
  intros w. unfold touchesOnly. run. split; [|done]. intros id Hid. split; [|done].
  rewrite elem_of_union, elem_of_singleton. split; [|by right].
  by intros [?|?].
Qed.

Lemma jobsToDelete_Remove_touchesOnly jobKey :
  keeps (touchesOnly jobKey) (jobsToDelete_Remove (spec.ID jobKey)).
Proof.
  intros w. unfold touchesOnly. run. split; [|done]. intros id Hid. split; [|done].
  rewrite elem_of_difference, elem_of_singleton. split; [by intros [? _]|done].
Qed.

Lemma checkIfJobCompleted_touchesOnly jobKey queueURL k8sJob :
  keeps (touchesOnly jobKey) (checkIfJobCompleted env jobKey queueURL k8sJob).
Proof.
  pose proof (jobsToDelete_Add_touchesOnly jobKey) as Hadd.
  pose proof (jobsToDelete_Remove_touchesOnly jobKey) as Hremove.
  unfold checkIfJobCompleted.
  destruct k8sJob as [k8sJob|]; [|apply keeps_panic; typeclasses eauto].
  destruct (0 <? _); [apply investigateJobFailure_keeps; typeclasses eauto|].
  keeps_auto; done.
Qed.

Lemma cachedJobSpec_touchesOnly jobKey :
  keeps (touchesOnly jobKey) (cachedJobSpec env jobKey).
Proof.
  intros w. unfold touchesOnly, cachedJobSpec, terminateAndCleanUp. run.
  destruct (_inProgressJobSpecMap w !! spec.ID jobKey) as [jobSpec|] eqn:Hcached; cbn.
  { split; [done|]. by intros s [= <-]. }
  destruct (ext_downloadJobSpec env (calls w) jobKey) as [jobSpec|err]; cbn.
  - split; [|done]. intros id Hid. split; [done|].
    by rewrite lookup_insert_ne.
  - repeat (inner_case; cbn); (split; [done|done]).
Qed.

Lemma reconcileJob_touchesOnly q b jobKey :
  keeps (touchesOnly jobKey) (reconcileJob env q b jobKey).
Proof.
  pose proof (cachedJobSpec_touchesOnly jobKey) as Hcached.
  pose proof (fun queueURL k8sJob =>
                checkIfJobCompleted_touchesOnly jobKey queueURL k8sJob) as Hcheck.
  unfold reconcileJob.
  apply keeps_bind; [typeclasses eauto|keeps_auto|]. intros r.
  destruct r as [jobState|err];
    [|apply terminateAndCleanUp_keeps; typeclasses eauto].
  destruct (negb _); [keeps_auto|].
  apply keeps_bind;
    [typeclasses eauto|apply reconcileInProgressJob_keeps; typeclasses eauto|].
  intros [[newStatusCode msg] err].
  keeps_auto; done.
Qed.

End StateFootprints.

(** ** The handling of one job and the other jobs *)

(** X12: the handling of a job by the driver, whether it returns or
    panics, changes nothing for the other jobs in the reconciler's state:
    they are deferred or not as before, and their cached specs are as
    before.  And a spec that is cached for the job itself is never
    replaced. *)
Theorem handling_touches_only_its_job env q b jobKey w :
  let w' := world_of (reconcileJob env q b jobKey w) in
  (forall id, id <> spec.ID jobKey ->
     (id ∈ _jobsToDelete w' <-> id ∈ _jobsToDelete w) /\
     _inProgressJobSpecMap w' !! id = _inProgressJobSpecMap w !! id) /\
  (forall jobSpec, _inProgressJobSpecMap w !! spec.ID jobKey = Some jobSpec ->
     _inProgressJobSpecMap w' !! spec.ID jobKey = Some jobSpec).
Proof. apply (reconcileJob_touchesOnly env q b jobKey w). Qed.

(** ** The three listings of a pass *)

Section Listings.
Context (env : Env).

Lemma listingFails_run w err :
  listingFails env w err ->
  exists w', ManageJobResources env w = Ret (Some err) w' /\
             trace w' = trace w /\ _jobsToDelete w' = _jobsToDelete w.
Proof.
  unfold listingFails, loadedInProgress, loadedQueues, loadedBatches.
  intros Hfails. unfold ManageJobResources.
  erewrite bind_Ret; [|reflexivity]. cbn [calls].
  destruct Hfails as [Hkeys|[[keys Hkeys] Hfails]]; rewrite Hkeys.
  { eexists. split; [reflexivity|]. done. }
  destruct (evictCompleted_run env (inProgressIDs keys)
              {| _jobsToDelete := _jobsToDelete w;
                 _inProgressJobSpecMap := _inProgressJobSpecMap w;
                 calls := S (calls w);
                 trace := trace w |}) as (cache & Hevict).
  erewrite bind_Ret; [|exact Hevict].
  erewrite bind_Ret; [|reflexivity]. cbn [calls].
  destruct Hfails as [Hqueues|[[queues Hqueues] Hjobs]]; rewrite Hqueues.
  { eexists. split; [reflexivity|]. done. }
  erewrite bind_Ret; [|reflexivity]. cbn [calls]. rewrite Hjobs.
  eexists. split; [reflexivity|]. done.
Qed.

Lemma passLoops_returns_nil keys q b w r w' :
  passLoops env keys q b w = Ret r w' -> r = None.
Proof.
  unfold passLoops. intros Hrun.
  apply bind_Ret_inv in Hrun as (_ & w1 & _ & Hrun).
  apply bind_Ret_inv in Hrun as (orphanBatches & w2 & _ & Hrun).
  apply bind_Ret_inv in Hrun as (_ & w3 & _ & Hrun).
  apply bind_Ret_inv in Hrun as (orphanQueues & w4 & _ & Hrun).
  apply bind_Ret_inv in Hrun as (_ & w5 & _ & Hrun).
  apply bind_Ret_inv in Hrun as ([] & w6 & _ & Hret).
  by inversion Hret.
Qed.

Lemma pass_error_is_a_failed_listing w err w' :
  ManageJobResources env w = Ret (Some err) w' -> listingFails env w err.
Proof.
  intros Hrun.
  assert (forall err', listingFails env w err' -> listingFails env w err) as Hsame.
  { intros err' Hfails. pose proof Hfails as Hfails'.
    apply listingFails_run in Hfails' as (w1 & Hrun' & _).
    rewrite Hrun in Hrun'. by inversion Hrun'. }
  destruct (loadedInProgress env w) as [keys|err1] eqn:Hkeys;
    [|apply (Hsame err1); by left].
  destruct (loadedQueues env w) as [queues|err2] eqn:Hqueues;
    [|apply (Hsame err2); right; split; [by eexists|by left]].
  destruct (loadedBatches env w) as [jobs|err3] eqn:Hjobs;
    [|apply (Hsame err3); right; split; [by eexists|right; split; [by eexists|done]]].
  destruct (ManageJobResources_loaded env w keys queues jobs Hkeys Hqueues Hjobs)
    as (w0 & _ & Hpass).
  rewrite Hpass in Hrun. by apply passLoops_returns_nil in Hrun.
Qed.

End Listings.

(** X13: a pass returns an error exactly when one of its three listings
    (in-progress keys, queues, batches) fails, and the error is that of
    the listing; errors met while handling a job or collecting garbage
    never end the pass.  A pass that returns an error has had no outside
    effect and has deferred or undeferred no job. *)
Theorem pass_fails_exactly_on_a_failed_listing env w err :
  (listingFails env w err <->
   exists w', ManageJobResources env w = Ret (Some err) w') /\
  (forall w', ManageJobResources env w = Ret (Some err) w' ->
     trace w' = trace w /\ _jobsToDelete w' = _jobsToDelete w).
Proof.
  split; [split|].
  - intros Hfails. apply listingFails_run in Hfails as (w' & Hrun & _). eauto.
  - intros [w' Hrun]. by eapply pass_error_is_a_failed_listing.
  - intros w' Hrun. pose proof Hrun as Hfails.
    apply pass_error_is_a_failed_listing, listingFails_run in Hfails
      as (w1 & Hrun' & Htrace & Hdel).
    rewrite Hrun in Hrun'. by inversion Hrun'; subst.
Qed.

Lemma pass_fails_exactly_on_a_failed_listing_witness :
  listingFails orchestratorDown staleWorld "orchestrator unavailable" /\
  exists w', ManageJobResources orchestratorDown staleWorld
               = Ret (Some "orchestrator unavailable") w' /\
             trace w' = trace staleWorld /\
             _jobsToDelete w' = _jobsToDelete staleWorld.
Proof.
  assert (listingFails orchestratorDown staleWorld "orchestrator unavailable")
    as Hfails.
  { right. split; [by eexists|]. right. split; [by eexists|reflexivity]. }
  split; [exact Hfails|].
  destruct (pass_fails_exactly_on_a_failed_listing orchestratorDown staleWorld
              "orchestrator unavailable") as [[Hruns _] Hquiet].
  destruct (Hruns Hfails) as [w' Hrun]. exists w'. split; [exact Hrun|].
  by apply Hquiet.
Defined.

(** ** The spec cache over a pass *)

Section PassState.
Context (env : Env).

Lemma evictCompleted_keptFor ids :
  keeps (cacheKeptFor ids) (evictCompleted env ids).
Proof.
  unfold evictCompleted. keeps_step; [keeps_step|]. keeps_step; [keeps_step|].
  apply keeps_forM_; [typeclasses eauto|]. intros jobID _.
  destruct (decide _) as [|Hout]; [apply keeps_ret; typeclasses eauto|].
  intros w. unfold cacheKeptFor. run. intros id jobSpec Hid Hs.
  rewrite lookup_delete_ne; [done|]. by intros ->.
Qed.

Lemma evict_loop (ids : gset string) (jobIDs : list string) w :
  forall id,
    id ∈ dom (_inProgressJobSpecMap
                (world_of (forM_ jobIDs (fun jobID =>
                   if decide (jobID ∈ ids) then mret tt
                   else cache ← getJobSpecMap; setJobSpecMap (delete jobID cache)) w))) ->
    id ∈ dom (_inProgressJobSpecMap w) /\ (id ∈ jobIDs -> id ∈ ids).
Proof.
  revert w. induction jobIDs as [|jobID rest IH]; intros w id; cbn [forM_].
  - intros Hid. split; [exact Hid|]. intros H. by apply elem_of_nil in H.
  - rewrite bind_unfold.
    destruct (decide (jobID ∈ ids)) as [Hin|Hout].
    + cbn. intros Hid. destruct (IH _ _ Hid) as [Hdom Hrest]. split; [done|].
      intros [->|H]%elem_of_cons; auto.
    + run. intros Hid. destruct (IH _ _ Hid) as [Hdom Hrest]. cbn in Hdom.
      apply elem_of_dom in Hdom as [jobSpec Hs].
      apply lookup_delete_Some in Hs as [Hne Hs].
      split; [by apply elem_of_dom; eexists|].
      intros [->|H]%elem_of_cons; [done|auto].
Qed.

Lemma evictCompleted_within ids w id :
  rangeFaithful env ->
  id ∈ dom (_inProgressJobSpecMap (world_of (evictCompleted env ids w))) ->
  id ∈ ids.
Proof.
  intros Hrange. unfold evictCompleted.
  rewrite bind_unfold. cbn [getJobSpecMap]. rewrite bind_unfold. cbn [rangeKeys].
  intros Hid. destruct (evict_loop _ _ _ _ Hid) as [Hdom Hin]. apply Hin.
  rewrite (Hrange _ _). by apply elem_of_elements.
Qed.

Lemma deleteOrphanBatch_keeps R `{!StateOrder R} b jobID :
  keeps R (deleteOrphanBatch env b jobID).
Proof. unfold deleteOrphanBatch. keeps_auto. Qed.

Lemma deleteOrphanQueue_keeps R `{!StateOrder R} q jobID :
  keeps R (deleteOrphanQueue env q jobID).
Proof. unfold deleteOrphanQueue. keeps_auto. Qed.

Lemma pruneJobsToDelete_cacheSame ids :
  keeps cacheSame (pruneJobsToDelete env ids).
Proof.
  unfold pruneJobsToDelete. keeps_step; [keeps_step|]. keeps_step; [keeps_step|].
  apply keeps_forM_; [typeclasses eauto|]. intros jobID _.
  destruct (decide _); [apply keeps_ret; typeclasses eauto|].
  intros w. reflexivity.
Qed.

(** A pass whose first listing succeeds evicts, and from there on keeps
    what the handling of each listed job and the pruning keep. *)
Lemma pass_state R `{!StateOrder R} w keys :
  loadedInProgress env w = Ok keys ->
  (forall q b jobKey, jobKey ∈ keys -> keeps R (reconcileJob env q b jobKey)) ->
  keeps R (pruneJobsToDelete env (inProgressIDs keys)) ->
  exists w1 w2,
    sameState w w1 /\
    evictCompleted env (inProgressIDs keys) w1 = Ret tt w2 /\
    R w2 (world_of (ManageJobResources env w)).
Proof.
  unfold loadedInProgress. intros Hkeys Hjobs Hprune. unfold ManageJobResources.
  erewrite bind_Ret; [|reflexivity]. cbn [calls]. rewrite Hkeys.
  destruct (evictCompleted_run env (inProgressIDs keys)
              {| _jobsToDelete := _jobsToDelete w;
                 _inProgressJobSpecMap := _inProgressJobSpecMap w;
                 calls := S (calls w);
                 trace := trace w |}) as (cache & Hevict).
  erewrite bind_Ret; [|exact Hevict].
  eexists _, _. split; [|split; [exact Hevict|]]; [done|].
  match goal with |- R ?w2 _ => generalize w2 end.
  apply keeps_bind; [done|keeps_auto|]. intros [queues|err]; [|by apply keeps_ret].
  apply keeps_bind; [done|keeps_auto|]. intros [jobs|err]; [|by apply keeps_ret].
  apply keeps_bind; [done|apply keeps_forM_; [done|]; intros k Hk; by apply Hjobs|].
  intros _. apply keeps_bind; [done|by apply keeps_rangeKeys|]. intros orphanBatches.
  apply keeps_bind;
    [done|apply keeps_forM_; [done|]; intros; by apply deleteOrphanBatch_keeps|].
  intros _. apply keeps_bind; [done|by apply keeps_rangeKeys|]. intros orphanQueues.
  apply keeps_bind;
    [done|apply keeps_forM_; [done|]; intros; by apply deleteOrphanQueue_keeps|].
  intros _. apply keeps_bind; [done|exact Hprune|]. intros _. by apply keeps_ret.
Qed.

End PassState.

(** X14: a spec that is cached for a job listed in progress is still the
    cached spec of the job after the pass, however the pass ends: the
    eviction spares it, no download replaces it. *)
Theorem cached_spec_survives_the_pass env w keys id jobSpec :
  loadedInProgress env w = Ok keys ->
  id ∈ inProgressIDs keys ->
  _inProgressJobSpecMap w !! id = Some jobSpec ->
  _inProgressJobSpecMap (world_of (ManageJobResources env w)) !! id = Some jobSpec.
Proof.
  intros Hkeys Hid Hcached.
  destruct (pass_state env (cacheKeptFor (inProgressIDs keys)) w keys Hkeys)
    as (w1 & w2 & [_ Hsame] & Hevict & Hrest).
  - intros q b jobKey _. eapply keeps_weaken; [|apply reconcileJob_touchesOnly].
    intros wa wb [Hothers Hown] id' jobSpec' _ Hs.
    destruct (decide (id' = spec.ID jobKey)) as [->|Hne]; [by apply Hown|].
    destruct (Hothers id' Hne) as [_ ->]. exact Hs.
  - eapply keeps_weaken; [|apply pruneJobsToDelete_cacheSame].
    intros wa wb Hsame id' jobSpec' _. unfold cacheSame in Hsame. by rewrite Hsame.
  - apply (Hrest id jobSpec Hid).
    pose proof (evictCompleted_keptFor env (inProgressIDs keys) w1) as Hkept.
    rewrite Hevict in Hkept. apply (Hkept id jobSpec Hid). by rewrite Hsame.
Qed.

Lemma cached_spec_survives_the_pass_witness :
  _inProgressJobSpecMap
    (world_of (ManageJobResources (scenarioEnv pastTimeout) staleCacheWorld)) !! "A"
  = Some specWithTimeoutA.
Proof.
  apply (cached_spec_survives_the_pass (scenarioEnv pastTimeout) staleCacheWorld
           [jobA] "A" specWithTimeoutA).
  - reflexivity.
  - compute_done.
  - compute_done.
Defined.

(** X15: after a pass whose first listing succeeded, however it ends, the
    spec cache holds entries for jobs listed in progress only. *)
Theorem cache_holds_in_progress_jobs_only env w keys id :
  rangeFaithful env ->
  loadedInProgress env w = Ok keys ->
  id ∈ dom (_inProgressJobSpecMap (world_of (ManageJobResources env w))) ->
  exists jobKey, jobKey ∈ keys /\ spec.ID jobKey = id.
Proof.
  intros Hrange Hkeys Hid. apply elem_of_inProgressIDs.
  destruct (pass_state env (cacheGrowsWithin (inProgressIDs keys)) w keys Hkeys)
    as (w1 & w2 & _ & Hevict & Hrest).
  - intros q b jobKey Hk. eapply keeps_weaken; [|apply reconcileJob_touchesOnly].
    intros wa wb [Hothers _] id' Hid'.
    destruct (decide (id' = spec.ID jobKey)) as [->|Hne].
    + right. apply elem_of_inProgressIDs. by exists jobKey.
    + left. destruct (Hothers id' Hne) as [_ Hsame].
      apply elem_of_dom. rewrite <- Hsame. by apply elem_of_dom.
  - eapply keeps_weaken; [|apply pruneJobsToDelete_cacheSame].
    intros wa wb Hsame id' Hid'. left. unfold cacheSame in Hsame. by rewrite <- Hsame.
  - destruct (Hrest id Hid) as [Hin|Hin]; [|exact Hin].
    apply (evictCompleted_within env (inProgressIDs keys) w1 id Hrange).
    by rewrite Hevict.
Qed.

Lemma cache_holds_in_progress_jobs_only_witness :
  dom (_inProgressJobSpecMap staleCacheWorld) = {["A"; "Z"]} /\
  dom (_inProgressJobSpecMap
         (world_of (ManageJobResources (scenarioEnv pastTimeout) staleCacheWorld)))
    = {["A"]} /\
  exists jobKey, jobKey ∈ [jobA] /\ spec.ID jobKey = "A".
Proof.
  split; [compute_done|]. split; [compute_done|].
  apply (cache_holds_in_progress_jobs_only (scenarioEnv pastTimeout) staleCacheWorld
           [jobA] "A").
  - apply scenarioEnv_rangeFaithful.
  - reflexivity.
  - compute_done.
Defined.

(** ** What a pass acts on *)

Section Listed.
Context (env : Env) (Hrange : rangeFaithful env).

Lemma passLoops_forListed keys queues jobs :
  emits (forListed keys (k8sJobIDSet (joinJobs jobs))
           (queueJobIDSet (joinQueues env queues) ∖ k8sJobIDSet (joinJobs jobs)
              ∖ inProgressIDs keys))
    (passLoops env keys (joinQueues env queues) (joinJobs jobs)).
Proof.
  intros w. unfold passLoops.
  apply emitsAt_bind.
  { apply emits_forM_. intros k Hk.
    eapply emits_weaken; [|apply reconcileJob_about].
    intros [] He; cbn in *; subst; auto. }
  intros [] w1 _. apply emitsAt_bind; [apply emits_rangeKeys|].
  intros orphanBatches w2 _. apply emitsAt_bind.
  { apply emits_forM_. intros id _.
    eapply emits_weaken; [|apply deleteOrphanBatch_listed].
    intros [] He; cbn in *; auto; done. }
  intros [] w3 _. apply emitsAt_bind; [apply emits_rangeKeys|].
  intros orphanQueues w4 Hkeys4. inversion Hkeys4; subst. clear Hkeys4.
  apply emitsAt_bind.
  { apply emits_forM_. intros id Hid.
    rewrite (Hrange _ _) in Hid. apply elem_of_elements in Hid.
    assert (id ∈ queueJobIDSet (joinQueues env queues)) as Hlisted.
    { apply elem_of_difference in Hid as [Hid _].
      by apply elem_of_difference in Hid as [Hid _]. }
    eapply emits_weaken; [|apply deleteOrphanQueue_deletesOnly].
    intros [] He; cbn in *; auto; try done.
    rewrite joinQueues_key_ID in He by done. subst. auto. }
  intros [] w5 _. apply emitsAt_bind; [apply pruneJobsToDelete_silent|].
  intros [] w6 _. apply emits_ret.
Qed.

End Listed.

(** X16: a pass acts on what it has listed and on nothing else: every log
    write, status write and marker deletion is for a key listed in
    progress; every runtime deletion is for such a key, for the ID of a
    listed batch, or for the ID of a listed queue that has neither batch
    nor marker. *)
Theorem pass_acts_on_listed_jobs_only env w keys queues jobs :
  rangeFaithful env ->
  loadedInProgress env w = Ok keys ->
  loadedQueues env w = Ok queues ->
  loadedBatches env w = Ok jobs ->
  Forall (forListed keys (k8sJobIDSet (joinJobs jobs))
            (queueJobIDSet (joinQueues env queues) ∖ k8sJobIDSet (joinJobs jobs)
               ∖ inProgressIDs keys))
    (added w (ManageJobResources env w)).
Proof.
  intros Hrange Hkeys Hqueues Hjobs.
  destruct (ManageJobResources_loaded env w keys queues jobs Hkeys Hqueues Hjobs)
    as (w0 & Htrace & Hpass).
  rewrite Hpass, (added_same_trace w w0) by done.
  apply emitsAt_added. by apply passLoops_forListed.
Qed.

Lemma pass_acts_on_listed_jobs_only_witness :
  let env := scenarioEnv leftovers in
  added freshWorld (ManageJobResources env freshWorld) =
    [EvDeleteRuntime jobA; EvDeleteRuntime jobQ] /\
  Forall (forListed [jobA] (k8sJobIDSet (joinJobs (sc_jobs leftovers)))
            (queueJobIDSet (joinQueues env (sc_queues leftovers))
               ∖ k8sJobIDSet (joinJobs (sc_jobs leftovers)) ∖ inProgressIDs [jobA]))
    (added freshWorld (ManageJobResources env freshWorld)).
Proof.
  cbv zeta. split; [vm_compute; reflexivity|].
  apply (pass_acts_on_listed_jobs_only (scenarioEnv leftovers) freshWorld
           [jobA] (sc_queues leftovers) (sc_jobs leftovers)).
  - apply scenarioEnv_rangeFaithful.
  - reflexivity.
  - reflexivity.
  - reflexivity.
Defined.

(** ** The orphan-batch loop *)

(** X17: whichever listed batch ID the orphan-batch loop visits, the
    runtime deletion it makes is for the key built from the labels of the
    last batch of the listing (the pointers of the batch view all lead
    there); its error, if any, is reported and nothing else is done. *)
Theorem orphan_batch_deletion_is_for_the_last_batch env jobs jobID last w :
  jobID ∈ k8sJobIDSet (joinJobs jobs) ->
  list.last jobs = Some last ->
  exists w',
    deleteOrphanBatch env (joinJobs jobs) jobID w = Ret tt w' /\
    trace w' = trace w ++
               EvDeleteRuntime (keyOfBatch last) ::
               match ext_deleteJobRuntimeResources env (calls w) (keyOfBatch last) with
               | Some err => [EvReport err]
               | None => []
               end /\
    sameState w w'.
Proof.
  intros Hin Hlast. unfold deleteOrphanBatch, sameState.
  rewrite (k8sJobMap_aliases_last jobs jobID Hin), Hlast. run.
  fold (keyOfBatch last).
  destruct (ext_deleteJobRuntimeResources env (calls w) (keyOfBatch last)); cbn;
    (eexists; split; [reflexivity|]); cbn; rewrite <- ?app_assoc; done.
Qed.

Lemma orphan_batch_deletion_is_for_the_last_batch_witness :
  let env := scenarioEnv leftovers in
  "B" ∈ k8sJobIDSet (joinJobs (sc_jobs leftovers)) ∖ inProgressIDs (sc_keys leftovers) /\
  exists w',
    deleteOrphanBatch env (joinJobs (sc_jobs leftovers)) "B" freshWorld = Ret tt w' /\
    trace w' = [EvDeleteRuntime jobA].
Proof.
  cbv zeta. split; [compute_done|].
  destruct (orphan_batch_deletion_is_for_the_last_batch (scenarioEnv leftovers)
              (sc_jobs leftovers) "B" (batchOf "A" 4 0 0) freshWorld)
    as (w' & Hrun & Htrace & _).
  - compute_done.
  - reflexivity.
  - exists w'. split; [exact Hrun|]. rewrite Htrace. reflexivity.
Defined.

(** ** Jobs that are still enqueuing *)

(** X18: the handling of a job whose stored status is Enqueuing always
    returns, never runs the completion classifier (it defers or undefers
    no job), and the only statuses it can persist are EnqueueFailed,
    UnexpectedError and Timed-Out. *)
Theorem enqueuing_job_is_not_classified env q b jobKey w jobState :
  ext_GetJobState env (calls w) jobKey = Ok jobState ->
  job.Status jobState = status.JobEnqueuing ->
  exists w' evs,
    reconcileJob env q b jobKey w = Ret tt w' /\
    trace w' = trace w ++ evs /\
    _jobsToDelete w' = _jobsToDelete w /\
    forall k code, EvSetStatus k code ∈ evs ->
      code = status.JobEnqueueFailed \/ code = status.JobUnexpectedError \/
      code = status.JobTimedOut.
Proof.
  intros Hstate Hstatus.
  unfold reconcileJob, reconcileInProgressJob, cachedJobSpec, terminateAndCleanUp.
  run. rewrite Hstate. cbn. rewrite Hstatus. cbn.
  exec_with fail;
    eexists _, _; (split; [reflexivity|]); cbn; rewrite <- ?app_assoc;
    (split; [first [reflexivity | symmetry; apply app_nil_r]|]);
    (split; [reflexivity|]);
    intros k code Hin;
    repeat (apply elem_of_cons in Hin as [Hin|Hin]; [inversion Hin; subst; auto|]);
    by apply elem_of_nil in Hin.
Qed.

Lemma enqueuing_job_is_not_classified_witness :
  let env := scenarioEnv stuckEnqueuing in
  exists w' evs,
    reconcileJob env (joinQueues env ["sqs/A"]) (joinJobs []) jobA freshWorld
      = Ret tt w' /\
    trace w' = trace freshWorld ++ evs /\
    _jobsToDelete w' = _jobsToDelete freshWorld /\
    forall k code, EvSetStatus k code ∈ evs ->
      code = status.JobEnqueueFailed \/ code = status.JobUnexpectedError \/
      code = status.JobTimedOut.
Proof.
  cbv zeta.
  apply (enqueuing_job_is_not_classified (scenarioEnv stuckEnqueuing) _ _ jobA
           freshWorld stuckEnqueuingA).
  - reflexivity.
  - reflexivity.
Defined.

(** ** Passes that run to their end *)

Lemma returns_ret {A} (a : A) : returns (mret a : M A).
Proof. intros w. by eexists _, _. Qed.

Lemma returns_call {A} (f : nat -> A) : returns (call f).
Proof. intros w. by eexists _, _. Qed.

Lemma returns_act {A} e (f : nat -> A) : returns (act e f).
Proof. intros w. by eexists _, _. Qed.

Lemma returns_report err : returns (report err).
Proof. intros w. by eexists _, _. Qed.

Lemma returns_getJobsToDelete : returns getJobsToDelete.
Proof. intros w. by eexists _, _. Qed.

Lemma returns_setJobsToDelete s : returns (setJobsToDelete s).
Proof. intros w. by eexists _, _. Qed.

Lemma returns_getJobSpecMap : returns getJobSpecMap.
Proof. intros w. by eexists _, _. Qed.

Lemma returns_setJobSpecMap m : returns (setJobSpecMap m).
Proof. intros w. by eexists _, _. Qed.

Lemma returns_rangeKeys env l : returns (rangeKeys env l).
Proof. intros w. by eexists _, _. Qed.

Lemma returns_bind {A B} (m : M A) (f : A -> M B) :
  returns m -> (forall a, returns (f a)) -> returns (m ≫= f).
Proof.
  intros Hm Hf w. destruct (Hm w) as (a & w1 & Ha).
  rewrite (bind_Ret _ _ _ _ _ Ha). apply Hf.
Qed.

Lemma returns_forM_ {A} (l : list A) (body : A -> M unit) :
  (forall x, x ∈ l -> returns (body x)) -> returns (forM_ l body).
Proof.
  induction l as [|x l IH]; intros Hbody; cbn.
  - apply returns_ret.
  - apply returns_bind.
    + apply Hbody. by left.
    + intros _. apply IH. intros y Hy. apply Hbody. by right.
Qed.

Create HintDb returns.
#[global] Hint Resolve returns_ret returns_call returns_act returns_report
  returns_getJobsToDelete returns_setJobsToDelete returns_getJobSpecMap
  returns_setJobSpecMap returns_rangeKeys : returns.

Ltac returns_step :=
  match goal with
  | |- returns (mbind _ _) => apply returns_bind; [|intros ?]
  | |- returns (_ ≫= _) => apply returns_bind; [|intros ?]
  | |- returns (match ?x with _ => _ end) => destruct x
  | |- returns (if ?x then _ else _) => destruct x
  | |- returns (let '(_, _) := ?x in _) => destruct x
  | |- returns _ => solve [auto with returns]
  end.

Ltac returns_auto := ops; repeat returns_step.

Section Returns.
Context (env : Env).

Lemma reconcileInProgressJob_returns jobState queueURL k8sJob :
  returns (reconcileInProgressJob env jobState queueURL k8sJob).
Proof. unfold reconcileInProgressJob. returns_auto. Qed.

Lemma investigateContainers_returns jobKey podStatus reasonFound statuses :
  returns (investigateContainers env jobKey podStatus reasonFound statuses).
Proof.
  revert reasonFound. induction statuses as [|cs rest IH]; intros reasonFound; cbn.
  - apply returns_ret.
  - returns_auto; apply IH.
Qed.

Lemma investigatePods_returns jobKey reasonFound pods :
  returns (investigatePods env jobKey reasonFound pods).
Proof.
  revert reasonFound. induction pods as [|pod rest IH]; intros reasonFound; cbn.
  - apply returns_ret.
  - destruct (WasPodOOMKilled env pod); [returns_auto|].
    apply returns_bind; [apply investigateContainers_returns|].
    intros found. apply IH.
Qed.

Lemma investigateJobFailure_returns jobKey :
  returns (investigateJobFailure env jobKey).
Proof.
  unfold investigateJobFailure.
  apply returns_bind; [returns_auto|]. intros pods.
  apply returns_bind; [apply investigatePods_returns|]. intros r.
  returns_auto.
Qed.

Lemma checkIfJobCompleted_returns jobKey queueURL kJob :
  returns (checkIfJobCompleted env jobKey queueURL (Some kJob)).
Proof.
  unfold checkIfJobCompleted.
  destruct (0 <? _); [apply investigateJobFailure_returns|].
  returns_auto.
Qed.

Lemma terminateAndCleanUp_returns jobKey err :
  returns (terminateAndCleanUp env jobKey err).
Proof. unfold terminateAndCleanUp. returns_auto. Qed.

Lemma cachedJobSpec_returns jobKey : returns (cachedJobSpec env jobKey).
Proof.
  pose proof (terminateAndCleanUp_returns jobKey) as Hterminate.
  unfold cachedJobSpec. returns_auto.
Qed.

Lemma reconcileJob_returns q b jobKey :
  (spec.ID jobKey ∈ queueJobIDSet q -> is_Some (lookupJob b (spec.ID jobKey))) ->
  returns (reconcileJob env q b jobKey).
Proof.
  intros Hbatch. unfold reconcileJob.
  apply returns_bind; [returns_auto|]. intros r.
  destruct r as [jobState|err]; [|apply terminateAndCleanUp_returns].
  destruct (negb _); [returns_auto|].
  apply returns_bind; [apply reconcileInProgressJob_returns|].
  intros [[newStatusCode msg] err].
  destruct err; [returns_auto|].
  apply returns_bind; [returns_auto|]. intros err.
  destruct err; [returns_auto|].
  destruct (decide (spec.ID jobKey ∈ queueJobIDSet q)) as [Hin|]; [|apply returns_ret].
  destruct (Hbatch Hin) as [kJob ->].
  apply returns_bind; [apply cachedJobSpec_returns|]. intros cached.
  pose proof (checkIfJobCompleted_returns jobKey
                (index (queueURLMap q) (spec.ID jobKey)) kJob) as Hcheck.
  returns_auto.
Qed.

Lemma lookupJob_listed jobs jobID :
  jobID ∈ k8sJobIDSet (joinJobs jobs) -> is_Some (lookupJob (joinJobs jobs) jobID).
Proof.
  intros Hin. rewrite (k8sJobMap_aliases_last jobs jobID Hin).
  destruct (list.last jobs) eqn:Hlast; [by eexists|].
  apply last_None in Hlast. subst jobs. cbn in Hin. by apply elem_of_empty in Hin.
Qed.

Lemma deleteOrphanBatch_returns jobs jobID :
  jobID ∈ k8sJobIDSet (joinJobs jobs) ->
  returns (deleteOrphanBatch env (joinJobs jobs) jobID).
Proof.
  intros Hin. unfold deleteOrphanBatch.
  destruct (lookupJob_listed jobs jobID Hin) as [kJob ->]. returns_auto.
Qed.

Lemma deleteOrphanQueue_returns q jobID :
  returns (deleteOrphanQueue env q jobID).
Proof. unfold deleteOrphanQueue. returns_auto. Qed.

Lemma pruneJobsToDelete_returns ids : returns (pruneJobsToDelete env ids).
Proof.
  unfold pruneJobsToDelete. returns_step; [returns_step|]. returns_step; [returns_step|].
  apply returns_forM_. intros jobID _. returns_auto.
Qed.

Lemma passLoops_returns keys queues jobs w :
  rangeFaithful env ->
  queuedJobsHaveBatches keys (joinQueues env queues) (joinJobs jobs) ->
  exists w', passLoops env keys (joinQueues env queues) (joinJobs jobs) w = Ret None w'.
Proof.
  intros Hrange Hbatches. unfold passLoops.
  destruct (returns_forM_ keys
              (reconcileJob env (joinQueues env queues) (joinJobs jobs))) with w
    as ([] & w1 & Hjobs).
  { intros k Hk. apply reconcileJob_returns. intros Hq.
    by apply lookupJob_listed, Hbatches. }
  erewrite bind_Ret; [|exact Hjobs].
  erewrite bind_Ret; [|reflexivity].
  match goal with
  | |- context [forM_ ?l (deleteOrphanBatch env ?b)] =>
      destruct (returns_forM_ l (deleteOrphanBatch env b)) with w1
        as ([] & w2 & Horphans)
  end.
  { intros id Hid. apply deleteOrphanBatch_returns.
    rewrite (Hrange _ _) in Hid. apply elem_of_elements in Hid.
    by apply elem_of_difference in Hid as [Hid _]. }
  erewrite bind_Ret; [|exact Horphans].
  erewrite bind_Ret; [|reflexivity].
  match goal with
  | |- context [forM_ ?l (deleteOrphanQueue env ?q)] =>
      destruct (returns_forM_ l (deleteOrphanQueue env q)) with w2
        as ([] & w3 & Hqueues)
  end.
  { intros id _. apply deleteOrphanQueue_returns. }
  erewrite bind_Ret; [|exact Hqueues].
  destruct (pruneJobsToDelete_returns (inProgressIDs keys) w3)
    as ([] & w4 & Hprune).
  erewrite bind_Ret; [|exact Hprune].
  by eexists.
Qed.

End Returns.

(** X19: a pass whose three listings succeed runs to its end and returns
    nil when every job listed in progress whose queue is listed has its
    batch listed too: no handling of a job and no garbage collection
    panics. *)
Theorem pass_runs_to_its_end env w keys queues jobs :
  rangeFaithful env ->
  loadedInProgress env w = Ok keys ->
  loadedQueues env w = Ok queues ->
  loadedBatches env w = Ok jobs ->
  queuedJobsHaveBatches keys (joinQueues env queues) (joinJobs jobs) ->
  exists w', ManageJobResources env w = Ret None w'.
Proof.
  intros Hrange Hkeys Hqueues Hjobs Hbatches.
  destruct (ManageJobResources_loaded env w keys queues jobs Hkeys Hqueues Hjobs)
    as (w0 & _ & ->).
  by apply passLoops_returns.
Qed.

Lemma pass_runs_to_its_end_witness :
  let env := scenarioEnv leftovers in
  queuedJobsHaveBatches (sc_keys leftovers) (joinQueues env (sc_queues leftovers))
    (joinJobs (sc_jobs leftovers)) /\
  exists w', ManageJobResources env freshWorld = Ret None w'.
Proof.
  cbv zeta.
  assert (queuedJobsHaveBatches (sc_keys leftovers)
            (joinQueues (scenarioEnv leftovers) (sc_queues leftovers))
            (joinJobs (sc_jobs leftovers))) as Hbatches.
  { intros k Hk _. apply elem_of_cons in Hk as [->|Hk]; [compute_done|].
    by apply elem_of_nil in Hk. }
  split; [exact Hbatches|].
  apply (pass_runs_to_its_end (scenarioEnv leftovers) freshWorld
           (sc_keys leftovers) (sc_queues leftovers) (sc_jobs leftovers)).
  - apply scenarioEnv_rangeFaithful.
  - reflexivity.
  - reflexivity.
  - reflexivity.
  - exact Hbatches.
Defined.

(** ** A batch with a failed worker *)

(** X20: when the batch of the job reports a failed worker, one invocation
    of the classifier concludes the job: after at least one line written
    to the job's log stream it persists WorkerOOM or WorkerError and
    deletes the runtime resources.  The queue and the metrics are not
    consulted, and the job is neither deferred nor undeferred. *)
Theorem failed_worker_concludes_the_job env jobKey queueURL kJob w :
  0 < kbatch.Failed (kbatch.Status kJob) ->
  exists err w' lines code,
    checkIfJobCompleted env jobKey queueURL (Some kJob) w = Ret err w' /\
    trace w' = trace w ++ lines ++ [EvSetStatus jobKey code; EvDeleteRuntime jobKey] /\
    Forall (isLine jobKey) lines /\ lines <> [] /\
    (code = status.JobWorkerOOM \/ code = status.JobWorkerError) /\
    sameState w w'.
Proof.
  intros Hfailed. apply Z.ltb_lt in Hfailed.
  unfold checkIfJobCompleted. rewrite Hfailed. unfold investigateJobFailure.
  erewrite bind_Ret; [|reflexivity]. cbv beta.
  match goal with
  | |- context [(investigatePods env jobKey false ?pods ≫= _) ?w1] =>
      destruct (investigatePods_runs env jobKey false pods w1)
        as (r & w2 & evs & Hrun & Htrace & HR);
      pose proof (investigatePods_keeps env sameState jobKey false pods w1) as Hstate
  end.
  rewrite Hrun in Hstate. cbn in Hstate, Htrace.
  erewrite bind_Ret; [|exact Hrun]. destruct r as [err|found].
  - destruct HR as (L & line & HL & ->).
    exists err, w2, (L ++ [EvLog jobKey [line]]), status.JobWorkerOOM.
    split; [reflexivity|]. rewrite Htrace, <- !app_assoc.
    split; [reflexivity|]. split; [apply Forall_app; split; [done|]|].
    { constructor; [by eexists|done]. }
    split; [by destruct L|]. split; [by left|done].
  - destruct HR as [HL Hfound]. destruct found; run.
    + eexists _, _, evs, status.JobWorkerError.
      split; [reflexivity|]. cbn. rewrite Htrace, <- !app_assoc.
      split; [reflexivity|]. split; [done|].
      split; [by destruct (Hfound eq_refl)|]. split; [by right|done].
    + eexists _, _, (evs ++ [EvLog jobKey ["workers were killed for unknown reason"]]),
        status.JobWorkerError.
      split; [reflexivity|]. cbn. rewrite Htrace, <- !app_assoc.
      split; [reflexivity|]. split; [apply Forall_app; split; [done|]|].
      { constructor; [by eexists|done]. }
      split; [by destruct evs|]. split; [by right|done].
Qed.

Lemma failed_worker_concludes_the_job_witness :
  let env := scenarioEnv oomScenario in
  exists err w' lines code,
    checkIfJobCompleted env jobA "sqs/A" (Some (batchOf "A" 3 0 1)) freshWorld
      = Ret err w' /\
    trace w' = trace freshWorld ++ lines ++
               [EvSetStatus jobA code; EvDeleteRuntime jobA] /\
    Forall (isLine jobA) lines /\ lines <> [] /\
    (code = status.JobWorkerOOM \/ code = status.JobWorkerError) /\
    sameState freshWorld w'.
Proof.
  cbv zeta.
  apply (failed_worker_concludes_the_job (scenarioEnv oomScenario) jobA "sqs/A"
           (batchOf "A" 3 0 1) freshWorld).
  reflexivity.
Defined.

(** ** The spec cache of the driver *)

(** X21: when the spec of a Running job with its queue and batch listed is
    not cached and cannot be downloaded, the handling of the job writes
    the error and a termination notice to the job's log stream, deletes
    the in-progress marker and the runtime resources, writes no status and
    caches nothing; the classifier is not run. *)
Theorem spec_download_failure_terminates_job env q b jobKey w jobState kJob err :
  ext_GetJobState env (calls w) jobKey = Ok jobState ->
  job.Status jobState = status.JobRunning ->
  spec.ID jobKey ∈ queueJobIDSet q ->
  lookupJob b (spec.ID jobKey) = Some kJob ->
  _inProgressJobSpecMap w !! spec.ID jobKey = None ->
  (forall n, ext_downloadJobSpec env n jobKey = Err err) ->
  exists w' reports,
    reconcileJob env q b jobKey w = Ret tt w' /\
    trace w' = trace w ++
      [EvLog jobKey [err; cleanUpNotice];
       EvDeleteInProgressFile jobKey;
       EvDeleteRuntime jobKey] ++ reports /\
    Forall isReport reports /\
    sameState w w'.
Proof.
  intros Hstate Hrunning Hqueue Hbatch Hcached Hdownload.
  unfold reconcileJob, reconcileInProgressJob, cachedJobSpec, terminateAndCleanUp,
    sameState, cleanUpNotice.
  run. rewrite Hstate. cbn. rewrite Hrunning. cbn.
  destruct (decide (spec.ID jobKey ∈ queueJobIDSet q)) as [_|]; [|done]. cbn.
  rewrite Hbatch.
  exec_with ltac:(first [rewrite Hcached | rewrite Hdownload]);
    do 2 eexists; (split; [reflexivity|]); cbn; rewrite <- ?app_assoc; cbn;
    (split; [reflexivity|]); (split; [|done]); repeat constructor; by eexists.
Qed.

Lemma spec_download_failure_terminates_job_witness :
  let env := specStoreDown in
  exists w' reports,
    reconcileJob env (joinQueues env ["sqs/A"]) (joinJobs [batchOf "A" 0 4 0])
      jobA freshWorld = Ret tt w' /\
    trace w' = trace freshWorld ++
      [EvLog jobA ["NoSuchKey"; cleanUpNotice];
       EvDeleteInProgressFile jobA;
       EvDeleteRuntime jobA] ++ reports /\
    Forall isReport reports /\
    sameState freshWorld w'.
Proof.
  cbv zeta.
  apply (spec_download_failure_terminates_job specStoreDown _ _ jobA freshWorld
           runningA (batchOf "A" 0 4 0) "NoSuchKey").
  - reflexivity.
  - reflexivity.
  - compute_done.
  - vm_compute. reflexivity.
  - reflexivity.
  - intros n. reflexivity.
Defined.

(** X22: a spec that is not cached is downloaded once: the lookup caches
    what it has downloaded under the job's ID, and a second lookup returns
    the same spec from the cache without any external call. *)
Theorem downloaded_spec_is_cached env jobKey w jobSpec :
  _inProgressJobSpecMap w !! spec.ID jobKey = None ->
  ext_downloadJobSpec env (calls w) jobKey = Ok jobSpec ->
  exists w1,
    cachedJobSpec env jobKey w = Ret (Some jobSpec) w1 /\
    trace w1 = trace w /\
    _inProgressJobSpecMap w1 = <[spec.ID jobKey := jobSpec]> (_inProgressJobSpecMap w) /\
    cachedJobSpec env jobKey w1 = Ret (Some jobSpec) w1.
Proof.
  intros Hcached Hdownload. unfold cachedJobSpec. run.
  rewrite Hcached. cbn. rewrite Hdownload. cbn.
  eexists. split; [reflexivity|]. cbn. rewrite lookup_insert_eq. done.
Qed.

Lemma downloaded_spec_is_cached_witness :
  let env := scenarioEnv happyPath in
  exists w1,
    cachedJobSpec env jobA freshWorld = Ret (Some specA) w1 /\
    trace w1 = trace freshWorld /\
    _inProgressJobSpecMap w1 = <[spec.ID jobA := specA]> (_inProgressJobSpecMap freshWorld) /\
    cachedJobSpec env jobA w1 = Ret (Some specA) w1.
Proof.
  cbv zeta.
  apply (downloaded_spec_is_cached (scenarioEnv happyPath) jobA freshWorld specA).
  - reflexivity.
  - reflexivity.
Defined.

(** ** The pruning of the deferred IDs *)

Lemma prune_loop_exact (ids : gset string) (jobIDs : list string) w :
  exists w',
    forM_ jobIDs (fun jobID =>
        if decide (jobID ∈ ids) then mret tt
        else jobsToDelete_Remove jobID) w = Ret tt w' /\
    trace w' = trace w /\
    _inProgressJobSpecMap w' = _inProgressJobSpecMap w /\
    forall id, id ∈ _jobsToDelete w' <->
               id ∈ _jobsToDelete w /\ (id ∈ jobIDs -> id ∈ ids).
Proof.
  revert w. induction jobIDs as [|jobID rest IH]; intros w; cbn [forM_].
  - exists w. split; [done|]. split; [done|]. split; [done|]. intros id.
    split; [|by intros [? _]]. intros Hid. split; [done|].
    intros H. by apply elem_of_nil in H.
  - destruct (decide (jobID ∈ ids)) as [Hin|Hout].
    + destruct (IH w) as (w' & Hrun & Htrace & Hcache & Hdel).
      exists w'. rewrite bind_unfold. cbn. split; [done|]. split; [done|].
      split; [done|]. intros id. rewrite Hdel, elem_of_cons. split.
      * intros [Hid Hrest]. split; [done|]. by intros [->|H]; auto.
      * intros [Hid Hrest]. split; [done|]. auto.
    + rewrite bind_unfold. run.
      match goal with
      | |- context [forM_ rest _ ?w1] =>
          destruct (IH w1) as (w' & Hrun & Htrace & Hcache & Hdel)
      end.
      exists w'. split; [done|]. split; [done|]. split; [done|].
      intros id. rewrite Hdel. cbn. rewrite elem_of_difference, elem_of_singleton,
        elem_of_cons. split.
      * intros [[Hid Hne] Hrest]. split; [done|]. by intros [->|H]; auto.
      * intros [Hid Hrest]. split; [split; [done|]|by auto].
        intros ->. apply Hout, Hrest. by left.
Qed.

(** X23: the pruning at the end of a pass keeps exactly the deferred IDs
    that are listed in progress; it makes no outside effect and leaves
    the spec cache alone. *)
Theorem pruning_keeps_the_in_progress_deferrals env ids w :
  rangeFaithful env ->
  exists w',
    pruneJobsToDelete env ids w = Ret tt w' /\
    _jobsToDelete w' = _jobsToDelete w ∩ ids /\
    trace w' = trace w /\
    _inProgressJobSpecMap w' = _inProgressJobSpecMap w.
Proof.
  intros Hrange. unfold pruneJobsToDelete.
  erewrite bind_Ret; [|reflexivity]. erewrite bind_Ret; [|reflexivity].
  destruct (prune_loop_exact ids
              (ext_rangeOrder env (calls w) (elements (_jobsToDelete w))) w)
    as (w' & Hrun & Htrace & Hcache & Hdel).
  exists w'. split; [exact Hrun|]. split; [|done].
  apply set_eq. intros id. rewrite Hdel, elem_of_intersection, (Hrange _ _).
  split.
  - intros [Hid Hin]. split; [done|]. by apply Hin, elem_of_elements.
  - intros [Hid Hin]. split; [done|]. done.
Qed.

Lemma pruning_keeps_the_in_progress_deferrals_witness :
  exists w',
    pruneJobsToDelete (scenarioEnv happyPath) {["A"]} twoDeferred = Ret tt w' /\
    _jobsToDelete w' = _jobsToDelete twoDeferred ∩ {["A"]} /\
    trace w' = trace twoDeferred /\
    _inProgressJobSpecMap w' = _inProgressJobSpecMap twoDeferred.
Proof.
  apply (pruning_keeps_the_in_progress_deferrals (scenarioEnv happyPath) {["A"]}
           twoDeferred).
  apply scenarioEnv_rangeFaithful.
Defined.

(** ** The views built from the listings *)

Lemma joinQueues_IDs env queues id :
  id ∈ queueJobIDSet (joinQueues env queues) <->
  exists queueURL, queueURL ∈ queues /\ spec.ID (jobKeyFromQueueURL env queueURL) = id.
Proof.
  unfold joinQueues.
  assert (forall q,
             id ∈ queueJobIDSet (foldl (addQueue env) q queues) <->
             id ∈ queueJobIDSet q \/
             exists queueURL, queueURL ∈ queues /\
                              spec.ID (jobKeyFromQueueURL env queueURL) = id) as Hgen.
  { induction queues as [|queueURL rest IH]; intros q; cbn [foldl].
    - split; [auto|]. intros [H|(u & Hu & _)]; [done|]. by apply elem_of_nil in Hu.
    - rewrite IH. cbn. rewrite elem_of_union, elem_of_singleton. split.
      + intros [[->|H]|(u & Hu & Hid)]; [right|by left|right].
        * exists queueURL. split; [by left|done].
        * exists u. split; [by right|done].
      + intros [H|(u & Hu & Hid)]; [by left; right|].
        apply elem_of_cons in Hu as [->|Hu]; [by left; left|].
        right. by exists u. }
  rewrite Hgen. cbn. split; [|by right]. intros [H|H]; [|done].
  by apply elem_of_empty in H.
Qed.

Lemma joinJobs_IDs jobs id :
  id ∈ k8sJobIDSet (joinJobs jobs) <->
  exists kJob, kJob ∈ jobs /\ index (kbatch.Labels kJob) "jobID" = id.
Proof.
  unfold joinJobs.
  assert (forall b,
             id ∈ k8sJobIDSet (foldl (joinJob addr_kJob) b jobs) <->
             id ∈ k8sJobIDSet b \/
             exists kJob, kJob ∈ jobs /\ index (kbatch.Labels kJob) "jobID" = id)
    as Hgen.
  { induction jobs as [|elem rest IH]; intros b; cbn [foldl].
    - split; [auto|]. intros [H|(j & Hj & _)]; [done|]. by apply elem_of_nil in Hj.
    - rewrite IH. cbn. rewrite elem_of_union, elem_of_singleton. split.
      + intros [[->|H]|(j & Hj & Hid)]; [right|by left|right].
        * exists elem. split; [by left|done].
        * exists j. split; [by right|done].
      + intros [H|(j & Hj & Hid)]; [by left; right|].
        apply elem_of_cons in Hj as [->|Hj]; [by left; left|].
        right. by exists j. }
  rewrite Hgen. cbn. split; [|by right]. intros [H|H]; [|done].
  by apply elem_of_empty in H.
Qed.

Lemma joinQueues_dom env queues :
  dom (queueURLMap (joinQueues env queues)) = queueJobIDSet (joinQueues env queues).
Proof.
  unfold joinQueues.
  assert (forall q, dom (queueURLMap q) = queueJobIDSet q ->
            dom (queueURLMap (foldl (addQueue env) q queues))
            = queueJobIDSet (foldl (addQueue env) q queues)) as Hgen.
  { induction queues as [|queueURL rest IH]; intros q Hq; [done|]. cbn [foldl].
    apply IH. cbn. by rewrite dom_insert_L, Hq. }
  apply Hgen. cbn. apply dom_empty_L.
Qed.

Lemma joinJobs_dom jobs :
  dom (k8sJobMap (joinJobs jobs)) = k8sJobIDSet (joinJobs jobs).
Proof.
  unfold joinJobs.
  assert (forall b, dom (k8sJobMap b) = k8sJobIDSet b ->
            dom (k8sJobMap (foldl (joinJob addr_kJob) b jobs))
            = k8sJobIDSet (foldl (joinJob addr_kJob) b jobs)) as Hgen.
  { induction jobs as [|elem rest IH]; intros b Hb; [done|]. cbn [foldl].
    apply IH. cbn. by rewrite dom_insert_L, Hb. }
  apply Hgen. cbn. apply dom_empty_L.
Qed.

(** X24: the ID sets of the two views a pass builds are exactly the IDs
    of its listings: the IDs of the job keys of the listed queue URLs, and
    the jobID labels of the listed batches; and each view's map has an
    entry for exactly the IDs of its set. *)
Theorem views_hold_the_listed_IDs env queues jobs id :
  (id ∈ queueJobIDSet (joinQueues env queues) <->
   exists queueURL, queueURL ∈ queues /\
                    spec.ID (jobKeyFromQueueURL env queueURL) = id) /\
  (id ∈ k8sJobIDSet (joinJobs jobs) <->
   exists kJob, kJob ∈ jobs /\ index (kbatch.Labels kJob) "jobID" = id) /\
  dom (queueURLMap (joinQueues env queues)) = queueJobIDSet (joinQueues env queues) /\
  dom (k8sJobMap (joinJobs jobs)) = k8sJobIDSet (joinJobs jobs).
Proof.
  split; [apply joinQueues_IDs|]. split; [apply joinJobs_IDs|].
  split; [apply joinQueues_dom|apply joinJobs_dom].
Qed.
